(** * mac-blueprint: the blueprint schema module [src/utils/schema.js]

    A shallow embedding of [validateSetup], [createEmptySetup],
    [isCompatibleVersion] and [diffSetups], and the properties of the
    schema validation and differencing engine proved about them.

    The module works on untyped JavaScript values (documents parsed from
    JSON files), so the embedding starts with the fragment of the
    JavaScript semantics the module relies on: truthiness, property
    access (which throws a [TypeError] on [null] and [undefined]),
    [Array.isArray], [typeof], strict equality, and the insertion-ordered
    [Map] and [Set] collections.

    The two tools that call the module, [src/tools/diff.js] and
    [src/tools/apply.js], are embedded as well: all of the first, and of
    the second the reading of the command line and of the document, the
    installation of the taps and the batching of the packages. *)

From Stdlib Require Import ZArith Ascii String.
From stdpp Require Import gmap strings list fin_maps pretty.

#[local] Set Warnings "-register-all".
#[local] Open Scope string_scope.
#[local] Open Scope list_scope.
#[local] Open Scope nat_scope.

(** ** JavaScript values *)

Module JS.

(** A value is a primitive, an array or a plain object.  Arrays and
  objects carry the identity of the heap object ([id]): two objects with
  equal contents are still different objects for [===], [Map] and
  [Set].  An array also has named own properties ([props]), which an
  assignment such as [arr.version = x] creates.  Numbers are only ever
  tested for zero and for equality, and are kept as integers. *)
Inductive value : Type :=
| VUndef
| VNull
| VBool (b : bool)
| VNum (n : Z)
| VStr (s : string)
| VArr (id : nat) (items : list value) (props : gmap string value)
| VObj (id : nat) (props : gmap string value).

(** The only exception the module can raise. *)
Inductive exn : Type := TypeError.

Inductive outcome (A : Type) : Type :=
| Ok (a : A)
| Throw (e : exn).
Arguments Ok {A} a.
Arguments Throw {A} e.

#[global] Instance outcome_ret : MRet outcome := fun A a => Ok a.
#[global] Instance outcome_bind : MBind outcome := fun A B f m =>
match m with
| Ok a => f a
| Throw e => Throw e
end.

Definition returns {A} (o : outcome A) : bool :=
match o with Ok _ => true | Throw _ => false end.

(** [!!v] *)
Definition truthy (v : value) : bool :=
match v with
| VUndef | VNull => false
| VBool b => b
| VNum n => negb (n =? 0)%Z
| VStr s => negb (String.eqb s "")
| VArr _ _ _ | VObj _ _ => true
end.

Definition nullish (v : value) : bool :=
match v with
| VUndef | VNull => true
| _ => false
end.

Definition own_props (v : value) : gmap string value :=
match v with
| VArr _ _ props | VObj _ props => props
| _ => ∅
end.

(** [v[k]] without the [TypeError]: [undefined] when [v] has no own
  property [k].  The module reads properties under fixed names only,
  none of which is [length], an index or a member of a prototype, so
  own named properties are all there is to look up. *)
Definition field (v : value) (k : string) : value :=
default VUndef (own_props v !! k).

(** [v.k] *)
Definition member (v : value) (k : string) : outcome value :=
if nullish v then Throw TypeError else Ok (field v k).

(** [v.k = x] in non-strict code (the module has no ["use strict"]):
  a [TypeError] on [null] and [undefined], silently nothing on another
  primitive. *)
Definition assign (v : value) (k : string) (x : value) : outcome value :=
match v with
| VUndef | VNull => Throw TypeError
| VObj id props => Ok (VObj id (<[k := x]> props))
| VArr id items props => Ok (VArr id items (<[k := x]> props))
| _ => Ok v
end.

(** [Array.isArray(v)] *)
Definition isArray (v : value) : bool :=
match v with
| VArr _ _ _ => true
| _ => false
end.

(** [typeof v] *)
Definition typeof (v : value) : string :=
match v with
| VUndef => "undefined"
| VBool _ => "boolean"
| VNum _ => "number"
| VStr _ => "string"
| VNull | VArr _ _ _ | VObj _ _ => "object"
end.

(** [a === b].  Without [NaN] this is also the [SameValueZero] comparison
  of [Map] and [Set] keys. *)
Definition strict_equal (a b : value) : bool :=
match a, b with
| VUndef, VUndef | VNull, VNull => true
| VBool x, VBool y => Bool.eqb x y
| VNum x, VNum y => (x =? y)%Z
| VStr x, VStr y => String.eqb x y
| VArr i _ _, VArr j _ _ => Nat.eqb i j
| VObj i _, VObj j _ => Nat.eqb i j
| _, _ => false
end.

(** The elements of [v] when a call [v.map(f)] or a loop [for (x of v)] has
  an array to run on.  A value parsed from JSON is never a function, so
  a [map] on anything but an array is a [TypeError]. *)
Definition elements_of (v : value) : outcome (list value) :=
match v with
| VArr _ items _ => Ok items
| _ => Throw TypeError
end.

(** [v.map(f)] for a callback that may throw. *)
Definition array_map {B} (f : value → outcome B) (v : value) : outcome (list B) :=
items ← elements_of v; mapM (M := outcome) f items.

(** [s.split(sep)] on a string, for a one-character separator. *)
Fixpoint split_on (sep : ascii) (s : string) : list string :=
match s with
| EmptyString => [""]
| String c rest =>
    if Ascii.eqb c sep then "" :: split_on sep rest
    else match split_on sep rest with
         | piece :: pieces => String c piece :: pieces
         | [] => [String c ""]
         end
end.

(** [v.split(sep)]: only a string has the method. *)
Definition split (v : value) (sep : ascii) : outcome (list value) :=
match v with
| VStr s => Ok (VStr <$> split_on sep s)
| _ => Throw TypeError
end.

(** *** [Map] and [Set]: insertion-ordered, keys compared by identity *)

Definition Map : Type := list (value * value).

Fixpoint Map_set (k v : value) (m : Map) : Map :=
match m with
| [] => [(k, v)]
| (k', v') :: m' =>
    if strict_equal k' k then (k', v) :: m' else (k', v') :: Map_set k v m'
end.

(** [new Map(entries)] *)
Definition new_Map (entries : list (value * value)) : Map :=
fold_left (fun m e => Map_set e.1 e.2 m) entries [].

Definition Map_has (m : Map) (k : value) : bool :=
existsb (fun e => strict_equal e.1 k) m.

Definition Map_get (m : Map) (k : value) : value :=
match find (fun e => strict_equal e.1 k) m with
| Some e => e.2
| None => VUndef
end.

Definition JSet : Type := list value.

Definition Set_has (s : JSet) (k : value) : bool :=
existsb (fun x => strict_equal x k) s.

Definition Set_add (k : value) (s : JSet) : JSet :=
if Set_has s k then s else s ++ [k].

(** [new Set(keys)] *)
Definition new_Set (keys : list value) : JSet :=
fold_left (fun s k => Set_add k s) keys [].

(** Literals [{ k1: v1, ... }] and [[x1, ...]] for the object with identity
  [id]. *)
Definition object_literal (id : nat) (fields : list (string * value)) : value :=
VObj id (list_to_map fields).
Definition array_literal (id : nat) (items : list value) : value :=
VArr id items ∅.

(** *** [Date]

  The instant [new Date()] reads off the clock, broken down in UTC. *)
Record Date : Type := {
utc_year : N; utc_month : N; utc_day : N;
utc_hours : N; utc_minutes : N; utc_seconds : N;
utc_milliseconds : N
}.

Definition pad (width : nat) (n : N) : string :=
let digits := pretty n in
String.concat "" (replicate (width - String.length digits) "0") +:+ digits.

(** [d.toISOString()]: [YYYY-MM-DDTHH:mm:ss.sssZ], with the signed
  six-digit year beyond year 9999. *)
Definition toISOString (d : Date) : string :=
(if (utc_year d <=? 9999)%N then pad 4 (utc_year d)
 else "+" +:+ pad 6 (utc_year d))
+:+ "-" +:+ pad 2 (utc_month d) +:+ "-" +:+ pad 2 (utc_day d)
+:+ "T" +:+ pad 2 (utc_hours d) +:+ ":" +:+ pad 2 (utc_minutes d)
+:+ ":" +:+ pad 2 (utc_seconds d) +:+ "." +:+ pad 3 (utc_milliseconds d)
+:+ "Z".

End JS.
Import JS.

(** ** Statements: a state and exception monad

    A function body runs on a store of its variables; a statement either
    completes with a value or throws, and leaves a store behind in both
    cases. *)

Definition M (S A : Type) : Type := S → outcome A * S.

Section Monad.
Context {S : Type}.

#[global] Instance M_ret : MRet (M S) := fun A a s => (Ok a, s).
#[global] Instance M_bind : MBind (M S) := fun A B f m s =>
  match m s with
  | (Ok a, s') => f a s'
  | (Throw e, s') => (Throw e, s')
  end.

Definition gets {A} (f : S → A) : M S A := fun s => (Ok (f s), s).
Definition modify (f : S → S) : M S unit := fun s => (Ok (), f s).
(** An expression that reads values it was given and may throw. *)
Definition eval {A} (o : outcome A) : M S A := fun s => (o, s).
Definition when (b : bool) (body : M S unit) : M S unit :=
  if b then body else mret ().

(** [for (const x of l) body(x)] *)
Fixpoint for_of {A} (l : list A) (body : A → M S unit) : M S unit :=
  match l with
  | [] => mret ()
  | x :: l' => body x ;; for_of l' body
  end.

(** [l.forEach((x, idx) => body(x, idx))], counting from [idx]. *)
Fixpoint forEach_from {A} (idx : nat) (l : list A)
    (body : A → nat → M S unit) : M S unit :=
  match l with
  | [] => mret ()
  | x :: l' => body x idx ;; forEach_from (Datatypes.S idx) l' body
  end.
Definition forEach {A} (l : list A) (body : A → nat → M S unit) : M S unit :=
  forEach_from 0 l body.
End Monad.

(** ** The schema module *)

Definition SCHEMA_VERSION : string := "2.0".

(** *** [validateSetup] *)

(** The result object [{ valid, errors }]. *)
Record validation : Type := { valid : bool; errors : list string }.

(** The variables of [validateSetup]: the argument [setup] (the caller's
    object, which the function writes to), the local array [errors], and
    the lines written with [console.warn]. *)
Record vstore : Type := {
  v_setup : value;
  v_errors : list string;
  v_console : list string
}.

Module Validate.

(** [setup.k] *)
Definition setup_member (k : string) : M vstore value :=
  fun s => (member (v_setup s) k, s).

(** [setup.k = x] *)
Definition setup_assign (k : string) (x : value) : M vstore unit :=
  fun s =>
    match assign (v_setup s) k x with
    | Ok o => (Ok (), {| v_setup := o; v_errors := v_errors s;
                         v_console := v_console s |})
    | Throw e => (Throw e, s)
    end.

(** [errors.push(msg)] *)
Definition errors_push (msg : string) : M vstore unit :=
  modify (fun s => {| v_setup := v_setup s; v_errors := v_errors s ++ [msg];
                      v_console := v_console s |}).

(** [console.warn(msg)] *)
Definition console_warn (msg : string) : M vstore unit :=
  modify (fun s => {| v_setup := v_setup s; v_errors := v_errors s;
                      v_console := v_console s ++ [msg] |}).

Definition legacy_warning : string :=
  "Warning: Legacy setup format detected. Consider re-capturing for full features.".

(** Check version compatibility *)
Definition check_version : M vstore unit :=
  version ← setup_member "version";
  when (negb (truthy version))
    (setup_assign "version" (VStr "1.0");;
     console_warn legacy_warning).

(** Validate system info *)
Definition check_system : M vstore unit :=
  system ← setup_member "system";
  if negb (truthy system) then
    errors_push "Missing required field: system"
  else
    hostname ← eval (member system "hostname");
    when (negb (truthy hostname))
      (errors_push "Missing required field: system.hostname");;
    macosVersion ← eval (member system "macosVersion");
    when (negb (truthy macosVersion))
      (errors_push "Missing required field: system.macosVersion");;
    captureDate ← eval (member system "captureDate");
    when (negb (truthy captureDate))
      (errors_push "Missing required field: system.captureDate").

(** The callback of [casks.forEach] and of [formulae.forEach]. *)
Definition check_package (kind : string) (pkg : value) (idx : nat)
    : M vstore unit :=
  name ← eval (member pkg "name");
  when (negb (truthy name))
    (errors_push ("Invalid " +:+ kind +:+ " at index " +:+ pretty idx
                  +:+ ": missing 'name' field")).

(** Validate homebrew section *)
Definition check_homebrew : M vstore unit :=
  homebrew ← setup_member "homebrew";
  if negb (truthy homebrew) then
    errors_push "Missing required field: homebrew"
  else
    taps ← eval (member homebrew "taps");
    when (negb (isArray taps))
      (errors_push "Invalid field: homebrew.taps must be an array");;
    casks ← eval (member homebrew "casks");
    when (negb (isArray casks))
      (errors_push "Invalid field: homebrew.casks must be an array");;
    formulae ← eval (member homebrew "formulae");
    when (negb (isArray formulae))
      (errors_push "Invalid field: homebrew.formulae must be an array");;
    (* Validate package objects have required fields *)
    when (isArray casks)
      (items ← eval (elements_of casks);
       forEach items (check_package "cask"));;
    when (isArray formulae)
      (items ← eval (elements_of formulae);
       forEach items (check_package "formula")).

(** Validate applications array *)
Definition check_applications : M vstore unit :=
  applications ← setup_member "applications";
  when (truthy applications && negb (isArray applications))
    (errors_push "Invalid field: applications must be an array").

Definition managers : list string := ["npm"; "bun"; "dart"; "ruby"].

(** Validate global packages *)
Definition check_globalPackages : M vstore unit :=
  globalPackages ← setup_member "globalPackages";
  when (truthy globalPackages)
    (for_of managers (fun manager =>
       pkgs ← eval (member globalPackages manager);
       when (truthy pkgs && negb (isArray pkgs))
         (errors_push ("Invalid field: globalPackages." +:+ manager
                       +:+ " must be an array")))).

(** Validate shell configs *)
Definition check_shellConfigs : M vstore unit :=
  shellConfigs ← setup_member "shellConfigs";
  when (truthy shellConfigs && negb (isArray shellConfigs))
    (errors_push "Invalid field: shellConfigs must be an array").

(** Validate git config *)
Definition check_gitConfig : M vstore unit :=
  gitConfig ← setup_member "gitConfig";
  when (truthy gitConfig)
    (user ← eval (member gitConfig "user");
     when (truthy user && negb (String.eqb (typeof user) "object"))
       (errors_push "Invalid field: gitConfig.user must be an object");;
     settings ← eval (member gitConfig "settings");
     when (truthy settings && negb (isArray settings))
       (errors_push "Invalid field: gitConfig.settings must be an array")).

(** Validate github repos *)
Definition check_githubRepos : M vstore unit :=
  githubRepos ← setup_member "githubRepos";
  when (truthy githubRepos && negb (isArray githubRepos))
    (errors_push "Invalid field: githubRepos must be an array").

(** The checks that follow the version check, in source order. *)
Definition structural_checks : list (M vstore unit) :=
  [ check_system; check_homebrew; check_applications;
    check_globalPackages; check_shellConfigs; check_gitConfig;
    check_githubRepos ].

Definition body : M vstore validation :=
  check_version;;
  check_system;;
  check_homebrew;;
  check_applications;;
  check_globalPackages;;
  check_shellConfigs;;
  check_gitConfig;;
  check_githubRepos;;
  errors ← gets v_errors;
  mret {| valid := Nat.eqb (length errors) 0; errors := errors |}.

End Validate.

(** A call [validateSetup(setup)]: the outcome, and the store the call
    leaves, whose [v_setup] is the caller's object after the call. *)
Definition validateSetup (setup : value) : outcome validation * vstore :=
  Validate.body {| v_setup := setup; v_errors := []; v_console := [] |}.

(** *** [createEmptySetup]

    [now] is the instant [new Date()] yields; the thirty objects and
    arrays of the literal get the identities [fresh], [fresh + 1], ... *)
Definition createEmptySetup (now : Date) (fresh : nat) : value :=
  object_literal fresh [
    ("version", VStr SCHEMA_VERSION);
    ("system", object_literal (fresh + 1) [
       ("hostname", VStr "unknown");
       ("macosVersion", VStr "unknown");
       ("architecture", VStr "unknown");
       ("homebrewVersion", VStr "unknown");
       ("captureDate", VStr (toISOString now)) ]);
    ("applications", array_literal (fresh + 2) []);
    ("homebrew", object_literal (fresh + 3) [
       ("taps", array_literal (fresh + 4) []);
       ("casks", array_literal (fresh + 5) []);
       ("formulae", array_literal (fresh + 6) []) ]);
    ("binaries", array_literal (fresh + 7) []);
    ("homeBin", array_literal (fresh + 8) []);
    ("githubRepos", array_literal (fresh + 9) []);
    ("globalPackages", object_literal (fresh + 10) [
       ("npm", array_literal (fresh + 11) []);
       ("bun", array_literal (fresh + 12) []);
       ("dart", array_literal (fresh + 13) []);
       ("ruby", array_literal (fresh + 14) []) ]);
    ("shellConfigs", array_literal (fresh + 15) []);
    ("gitConfig", object_literal (fresh + 16) [
       ("user", object_literal (fresh + 17) []);
       ("settings", array_literal (fresh + 18) []) ]);
    ("versionManagers", object_literal (fresh + 19) [
       ("nvm", object_literal (fresh + 20) [
          ("installed", VBool false);
          ("versions", array_literal (fresh + 21) []) ]);
       ("pyenv", object_literal (fresh + 22) [
          ("installed", VBool false);
          ("versions", array_literal (fresh + 23) []) ]);
       ("rbenv", object_literal (fresh + 24) [
          ("installed", VBool false);
          ("versions", array_literal (fresh + 25) []) ]) ]);
    ("menubarConfig", object_literal (fresh + 26) [
       ("loginItems", array_literal (fresh + 27) []);
       ("runningApps", array_literal (fresh + 28) []);
       ("launchAgents", array_literal (fresh + 29) []) ])
  ].

(** *** [isCompatibleVersion] *)

Definition isCompatibleVersion (setup : value) : outcome bool :=
  version ← member setup "version";
  if negb (truthy version) then
    (* Legacy v1.0 format is still compatible *)
    mret true
  else
    parts ← split version ".";
    let major := hd VUndef parts in
    currentParts ← split (VStr SCHEMA_VERSION) ".";
    let currentMajor := hd VUndef currentParts in
    (* Major version must match for compatibility *)
    mret (strict_equal major currentMajor).

(** *** [diffSetups] *)

(** [{ added: [...], removed: [...] }] *)
Record changes : Type := { added : list value; removed : list value }.

(** [{ name, oldVersion, newVersion }] *)
Record app_update : Type := {
  upd_name : value; oldVersion : value; newVersion : value
}.

(** [{ added: [...], removed: [...], updated: [...] }] *)
Record app_changes : Type := {
  app_added : list value;
  app_removed : list value;
  app_updated : list app_update
}.

(** The object [diff].  [diff.homebrew] is indexed with a computed key
    ([diff.homebrew[category]]), so it is a map from property names to
    [{ added, removed }] objects, and so is its sibling
    [diff.globalPackages]. *)
Record report : Type := {
  applications : app_changes;
  homebrew : gmap string changes;
  globalPackages : gmap string changes
}.

(** The variables of [diffSetups]: the two arguments, the local object
    [diff], and the identity the next object the body creates will get. *)
Record dstore : Type := {
  oldSetup : value;
  newSetup : value;
  diff : report;
  next_id : nat
}.

Module Diff.

Definition no_changes : changes := {| added := []; removed := [] |}.

(** The literal that initialises [diff]. *)
Definition initial_diff : report := {|
  applications := {| app_added := []; app_removed := []; app_updated := [] |};
  homebrew := {[ "formulae" := no_changes; "casks" := no_changes;
                 "taps" := no_changes ]};
  globalPackages := {[ "npm" := no_changes; "bun" := no_changes;
                       "dart" := no_changes; "ruby" := no_changes ]}
|}.

Definition set_diff (d : report) (s : dstore) : dstore :=
  {| oldSetup := oldSetup s; newSetup := newSetup s; diff := d;
     next_id := next_id s |}.

Definition set_applications (a : app_changes) (d : report) : report :=
  {| applications := a; homebrew := homebrew d;
     globalPackages := globalPackages d |}.

Definition set_homebrew (h : gmap string changes) (d : report) : report :=
  {| applications := applications d; homebrew := h;
     globalPackages := globalPackages d |}.

(** [const diff = { ... }] *)
Definition declare_diff : M dstore unit := modify (set_diff initial_diff).

(** [[]]: a new empty array *)
Definition empty_array : M dstore value := fun s =>
  (Ok (array_literal (next_id s) []),
   {| oldSetup := oldSetup s; newSetup := newSetup s; diff := diff s;
      next_id := S (next_id s) |}).

(** [diff.applications.added.push(app)] *)
Definition applications_added_push (app : value) : M dstore unit :=
  modify (fun s =>
    let a := applications (diff s) in
    set_diff (set_applications
      {| app_added := app_added a ++ [app]; app_removed := app_removed a;
         app_updated := app_updated a |} (diff s)) s).

(** [diff.applications.removed.push(app)] *)
Definition applications_removed_push (app : value) : M dstore unit :=
  modify (fun s =>
    let a := applications (diff s) in
    set_diff (set_applications
      {| app_added := app_added a; app_removed := app_removed a ++ [app];
         app_updated := app_updated a |} (diff s)) s).

(** [diff.applications.updated.push(u)] *)
Definition applications_updated_push (u : app_update) : M dstore unit :=
  modify (fun s =>
    let a := applications (diff s) in
    set_diff (set_applications
      {| app_added := app_added a; app_removed := app_removed a;
         app_updated := app_updated a ++ [u] |} (diff s)) s).

(** [diff.homebrew[category].added.push(arg)].  The callee
    [diff.homebrew[category].added] is evaluated before the argument, and
    is a [TypeError] when [diff.homebrew] has no property [category]. *)
Definition homebrew_added_push (category : string) (arg : outcome value)
    : M dstore unit := fun s =>
  match homebrew (diff s) !! category with
  | None => (Throw TypeError, s)
  | Some c =>
      match arg with
      | Throw e => (Throw e, s)
      | Ok x =>
          (Ok (), set_diff (set_homebrew
             (<[category := {| added := added c ++ [x];
                               removed := removed c |}]> (homebrew (diff s)))
             (diff s)) s)
      end
  end.

(** [diff.homebrew[category].removed.push(arg)] *)
Definition homebrew_removed_push (category : string) (arg : outcome value)
    : M dstore unit := fun s =>
  match homebrew (diff s) !! category with
  | None => (Throw TypeError, s)
  | Some c =>
      match arg with
      | Throw e => (Throw e, s)
      | Ok x =>
          (Ok (), set_diff (set_homebrew
             (<[category := {| added := added c;
                               removed := removed c ++ [x] |}]> (homebrew (diff s)))
             (diff s)) s)
      end
  end.

(** [a => [a.name, a]] *)
Definition name_entry (a : value) : outcome (value * value) :=
  name ← member a "name"; mret (name, a).

(** Compare applications *)
Definition compare_applications : M dstore unit :=
  old ← gets oldSetup;
  oldList ← eval (member old "applications");
  oldEntries ← eval (array_map name_entry oldList);
  let oldApps := new_Map oldEntries in
  new ← gets newSetup;
  newList ← eval (member new "applications");
  newEntries ← eval (array_map name_entry newList);
  let newApps := new_Map newEntries in
  for_of newApps (fun '(name, app) =>
    if negb (Map_has oldApps name) then
      applications_added_push app
    else
      oldV ← eval (member (Map_get oldApps name) "version");
      newV ← eval (member app "version");
      when (negb (strict_equal oldV newV))
        (oldVersion ← eval (member (Map_get oldApps name) "version");
         newVersion ← eval (member app "version");
         applications_updated_push
           {| upd_name := name; oldVersion := oldVersion;
              newVersion := newVersion |}));;
  for_of oldApps (fun '(name, app) =>
    when (negb (Map_has newApps name)) (applications_removed_push app)).

(** [p.name || p] *)
Definition name_or_self (p : value) : outcome value :=
  name ← member p "name"; mret (if truthy name then name else p).

(** [typeof pkg === 'string' ? pkg : pkg.name] *)
Definition bare_name (pkg : value) : outcome value :=
  if String.eqb (typeof pkg) "string" then mret pkg else member pkg "name".

(** Compare Homebrew packages *)
Definition comparePackages (oldPkgs newPkgs : value) (type category : string)
    : M dstore unit :=
  oldNames ← eval (array_map name_or_self oldPkgs);
  let oldSet := new_Set oldNames in
  newNames ← eval (array_map name_or_self newPkgs);
  let newSet := new_Set newNames in
  newItems ← eval (elements_of newPkgs);
  for_of newItems (fun pkg =>
    name ← eval (name_or_self pkg);
    when (negb (Set_has oldSet name))
      (homebrew_added_push category (bare_name pkg)));;
  oldItems ← eval (elements_of oldPkgs);
  for_of oldItems (fun pkg =>
    name ← eval (name_or_self pkg);
    when (negb (Set_has newSet name))
      (homebrew_removed_push category (bare_name pkg))).

(** [comparePackages(oldSetup.homebrew.c, newSetup.homebrew.c, c, c)] *)
Definition compare_homebrew (category : string) : M dstore unit :=
  old ← gets oldSetup;
  oldHomebrew ← eval (member old "homebrew");
  oldPkgs ← eval (member oldHomebrew category);
  new ← gets newSetup;
  newHomebrew ← eval (member new "homebrew");
  newPkgs ← eval (member newHomebrew category);
  comparePackages oldPkgs newPkgs category category.

(** [x || []] *)
Definition or_empty_array (x : value) : M dstore value :=
  if truthy x then mret x else empty_array.

(** Compare global packages *)
Definition compare_globalPackages : M dstore unit :=
  for_of ["npm"; "bun"; "dart"; "ruby"] (fun manager =>
    old ← gets oldSetup;
    oldGlobal ← eval (member old "globalPackages");
    oldValue ← eval (member oldGlobal manager);
    oldPkgs ← or_empty_array oldValue;
    new ← gets newSetup;
    newGlobal ← eval (member new "globalPackages");
    newValue ← eval (member newGlobal manager);
    newPkgs ← or_empty_array newValue;
    comparePackages oldPkgs newPkgs manager manager).

Definition body : M dstore report :=
  declare_diff;;
  compare_applications;;
  compare_homebrew "formulae";;
  compare_homebrew "casks";;
  compare_homebrew "taps";;
  compare_globalPackages;;
  gets diff.

(** The store a call starts from: [diff] is not yet initialised and
    holds whatever [junk] the memory had. *)
Definition entry (old new : value) (junk : report) (next : nat) : dstore :=
  {| oldSetup := old; newSetup := new; diff := junk; next_id := next |}.

End Diff.

(** A call [diffSetups(oldSetup, newSetup)], made when the next object
    created gets the identity [next]: the outcome and the store the call
    leaves. *)
Definition diffSetups (old new : value) (next : nat) : outcome report * dstore :=
  Diff.body (Diff.entry old new Diff.initial_diff next).

(** * The command-line tools

    A tool writes lines to the console, runs shell commands, and ends by
    returning, by an uncaught exception or by [process.exit(code)]. *)
Module Tool.

(** What a run has done so far: the lines written to the standard and
    to the error output, and the shell commands passed to [exec]. *)
Record effects : Type := {
  stdout : list string;
  stderr : list string;
  executed : list string
}.

Inductive ending (A : Type) : Type :=
| Returned (a : A)
| Uncaught (e : exn)
| Exited (code : Z).
Arguments Returned {A} a.
Arguments Uncaught {A} e.
Arguments Exited {A} code.

Definition P (A : Type) : Type := effects → ending A * effects.

#[global] Instance P_ret : MRet P := fun A a c => (Returned a, c).
#[global] Instance P_bind : MBind P := fun A B f m c =>
  match m c with
  | (Returned a, c') => f a c'
  | (Uncaught e, c') => (Uncaught e, c')
  | (Exited code, c') => (Exited code, c')
  end.

(** An expression that may throw. *)
Definition try {A} (o : outcome A) : P A := fun c =>
  (match o with Ok a => Returned a | Throw e => Uncaught e end, c).

(** [console.log(line)] *)
Definition console_log (line : string) : P unit := fun c =>
  (Returned (), {| stdout := stdout c ++ [line]; stderr := stderr c;
                   executed := executed c |}).

(** [console.error(line)], and [console.warn(line)], which writes to the
    same output. *)
Definition console_error (line : string) : P unit := fun c =>
  (Returned (), {| stdout := stdout c; stderr := stderr c ++ [line];
                   executed := executed c |}).

(** [process.exit(code)] *)
Definition process_exit {A} (code : Z) : P A := fun c => (Exited code, c).

Definition when (b : bool) (body : P unit) : P unit :=
  if b then body else mret ().

(** [for (const x of l) body(x)] *)
Fixpoint for_of {A} (l : list A) (body : A → P unit) : P unit :=
  match l with
  | [] => mret ()
  | x :: l' => body x ;; for_of l' body
  end.

(** The line feed of ['\n']. *)
Definition LF : string := String "010" "".

(** [String(v)], the conversion a template literal applies to [${v}].
    [number] renders a number.  An object is rendered by
    [Object.prototype.toString] and an array by [Array.prototype.join],
    unless an own property hides the method: an own [toString], which a
    parsed value cannot have as a function, leaves no conversion and is a
    [TypeError]; an array with an own [join] is rendered as an object. *)
Fixpoint to_string (number : Z → string) (v : value) : outcome string :=
  match v with
  | VUndef => Ok "undefined"
  | VNull => Ok "null"
  | VBool b => Ok (if b then "true" else "false")
  | VNum n => Ok (number n)
  | VStr s => Ok s
  | VObj _ props =>
      if decide (is_Some (props !! "toString")) then Throw TypeError
      else Ok "[object Object]"
  | VArr _ items props =>
      if decide (is_Some (props !! "toString")) then Throw TypeError
      else if decide (is_Some (props !! "join")) then Ok "[object Array]"
      else
        pieces ← mapM (M := outcome)
                   (fun x => if nullish x then Ok "" else to_string number x)
                   items;
        mret (String.concat "," pieces)
  end.

Definition upper (c : ascii) : ascii :=
  let n := nat_of_ascii c in
  if (97 <=? n) && (n <=? 122) then ascii_of_nat (n - 32) else c.

(** [s.toUpperCase()] for a string of ASCII characters. *)
Fixpoint toUpperCase (s : string) : string :=
  match s with
  | EmptyString => EmptyString
  | String c rest => String (upper c) (toUpperCase rest)
  end.

End Tool.

(** ** [src/tools/diff.js] *)
Module DiffTool.
Import Tool.

(** What [JSON.parse(fs.readFileSync(file, 'utf8'))] yields: a value, or
    an error with a message. *)
Inductive parsed : Type :=
| Parsed (v : value)
| Failed (message : string).

Section Main.
(** The files: [fs.existsSync], and the reading and parsing of a file.
    [number] renders a number in a template literal, and [next] is the
    identity of the next object created once the two files are parsed. *)
Variable existsSync : string → bool.
Variable read_json : string → parsed.
Variable number : Z → string.
Variable next : nat.

(** [`${v}`] *)
Definition text (v : value) : P string := try (to_string number v).

(** [diff.homebrew[k]], [diff.globalPackages[k]]: a [TypeError] is
    raised when a property of the missing object is read. *)
Definition bucket (buckets : gmap string changes) (k : string) : P changes :=
  match buckets !! k with
  | Some c => mret c
  | None => try (Throw TypeError)
  end.

Definition added_of buckets k : P (list value) :=
  c ← bucket buckets k; mret (added c).
Definition removed_of buckets k : P (list value) :=
  c ← bucket buckets k; mret (removed c).

(** [a.length > 0 || b.length > 0 || ...], which stops at the first
    array that is not empty. *)
Fixpoint some_not_empty (arrays : list (P (list value))) : P bool :=
  match arrays with
  | [] => mret false
  | array :: rest =>
      items ← array;
      if 0 <? length items then mret true else some_not_empty rest
  end.

(** [a.length + b.length + ...] *)
Fixpoint total_length (arrays : list (P (list value))) : P nat :=
  match arrays with
  | [] => mret 0
  | array :: rest =>
      items ← array; n ← total_length rest; mret (length items + n)
  end.

(** [for (const x of names) console.log(`${prefix}${x}`)] *)
Definition log_names (prefix : string) (names : list value) : P unit :=
  for_of names (fun x => s ← text x; console_log (prefix +:+ s)).

Definition print_usage : P unit :=
  console_log "Usage: node diff.js <old-setup.json> <new-setup.json> [options]";;
  console_log "";;
  console_log "Compare two mac-setup.json files to see what changed";;
  console_log "";;
  console_log "Options:";;
  console_log "  --help, -h     Show this help message";;
  console_log "";;
  console_log "Example:";;
  console_log "  node diff.js mac-setup-2024-01.json mac-setup-2024-12.json";;
  process_exit 0.

(** [JSON.parse(fs.readFileSync(file, 'utf8'))] in its [try] block. *)
Definition load (file : string) : P value :=
  match read_json file with
  | Parsed v => mret v
  | Failed message =>
      console_error ("Error parsing " +:+ file +:+ ": " +:+ message);;
      process_exit 1
  end.

(** [`${label}: ${setup.system.hostname} (captured
    ${setup.system.captureDate})`] *)
Definition origin (label : string) (setup : value) : P unit :=
  system ← try (member setup "system");
  hostname ← try (member system "hostname");
  host ← text hostname;
  system ← try (member setup "system");
  captureDate ← try (member system "captureDate");
  date ← text captureDate;
  console_log (label +:+ ": " +:+ host +:+ " (captured " +:+ date +:+ ")").

(** The section on the applications. *)
Definition print_applications (apps : app_changes) : P unit :=
  when ((0 <? length (app_added apps)) || (0 <? length (app_removed apps))
        || (0 <? length (app_updated apps)))
    (console_log "Applications:";;
     console_log "-------------";;
     when (0 <? length (app_added apps))
       (console_log (LF +:+ "✓ Added (" +:+ pretty (length (app_added apps))
                     +:+ "):");;
        for_of (app_added apps) (fun app =>
          name ← try (member app "name"); name ← text name;
          version ← try (member app "version"); version ← text version;
          console_log ("  + " +:+ name +:+ " (" +:+ version +:+ ")")));;
     when (0 <? length (app_removed apps))
       (console_log (LF +:+ "✗ Removed ("
                     +:+ pretty (length (app_removed apps)) +:+ "):");;
        for_of (app_removed apps) (fun app =>
          name ← try (member app "name"); name ← text name;
          version ← try (member app "version"); version ← text version;
          console_log ("  - " +:+ name +:+ " (" +:+ version +:+ ")")));;
     when (0 <? length (app_updated apps))
       (console_log (LF +:+ "↑ Updated ("
                     +:+ pretty (length (app_updated apps)) +:+ "):");;
        for_of (app_updated apps) (fun app =>
          name ← text (upd_name app);
          old ← text (oldVersion app);
          new ← text (newVersion app);
          console_log ("  ↑ " +:+ name +:+ ": " +:+ old +:+ " → " +:+ new)));;
     console_log "").

(** The lines on one collection of [diff.homebrew].  The object
    [diff.homebrew[k]] is read again at each use, and is the same object
    each time. *)
Definition print_category (title : string) (c : P changes) : P unit :=
  c ← c;
  when (0 <? length (added c))
    (console_log (LF +:+ "✓ " +:+ title +:+ " Added ("
                  +:+ pretty (length (added c)) +:+ "):");;
     log_names "  + " (added c));;
  when (0 <? length (removed c))
    (console_log (LF +:+ "✗ " +:+ title +:+ " Removed ("
                  +:+ pretty (length (removed c)) +:+ "):");;
     log_names "  - " (removed c)).

(** The section on Homebrew. *)
Definition print_homebrew (buckets : gmap string changes) : P unit :=
  hasHomebrewChanges ← some_not_empty [
    added_of buckets "formulae"; removed_of buckets "formulae";
    added_of buckets "casks"; removed_of buckets "casks";
    added_of buckets "taps"; removed_of buckets "taps" ];
  when hasHomebrewChanges
    (console_log "Homebrew:";;
     console_log "---------";;
     print_category "Taps" (bucket buckets "taps");;
     print_category "Formulae" (bucket buckets "formulae");;
     print_category "Casks" (bucket buckets "casks");;
     console_log "").

(** The section on the global packages. *)
Definition print_globalPackages (buckets : gmap string changes) : P unit :=
  hasPackageChanges ← some_not_empty [
    added_of buckets "npm"; removed_of buckets "npm";
    added_of buckets "bun"; removed_of buckets "bun";
    added_of buckets "dart"; removed_of buckets "dart";
    added_of buckets "ruby"; removed_of buckets "ruby" ];
  when hasPackageChanges
    (console_log "Global Packages:";;
     console_log "----------------";;
     for_of ["npm"; "bun"; "dart"; "ruby"] (fun manager =>
       added ← added_of buckets manager;
       removed ← removed_of buckets manager;
       when ((0 <? length added) || (0 <? length removed))
         (console_log (LF +:+ toUpperCase manager +:+ ":");;
          when (0 <? length added)
            (console_log ("  ✓ Added (" +:+ pretty (length added) +:+ "):");;
             log_names "    + " added);;
          when (0 <? length removed)
            (console_log ("  ✗ Removed (" +:+ pretty (length removed)
                          +:+ "):");;
             log_names "    - " removed)));;
     console_log "").

(** The summary. *)
Definition print_summary (diff : report) : P unit :=
  totalAdded ← total_length [
    mret (app_added (applications diff));
    added_of (homebrew diff) "formulae"; added_of (homebrew diff) "casks";
    added_of (homebrew diff) "taps";
    added_of (globalPackages diff) "npm"; added_of (globalPackages diff) "bun";
    added_of (globalPackages diff) "dart";
    added_of (globalPackages diff) "ruby" ];
  totalRemoved ← total_length [
    mret (app_removed (applications diff));
    removed_of (homebrew diff) "formulae"; removed_of (homebrew diff) "casks";
    removed_of (homebrew diff) "taps";
    removed_of (globalPackages diff) "npm";
    removed_of (globalPackages diff) "bun";
    removed_of (globalPackages diff) "dart";
    removed_of (globalPackages diff) "ruby" ];
  let totalUpdated := length (app_updated (applications diff)) in
  console_log "Summary:";;
  console_log "--------";;
  console_log ("✓ Added:   " +:+ pretty totalAdded);;
  console_log ("✗ Removed: " +:+ pretty totalRemoved);;
  console_log ("↑ Updated: " +:+ pretty totalUpdated);;
  console_log ("  Total changes: "
               +:+ pretty (totalAdded + totalRemoved + totalUpdated)).

(** The statements of [main] that follow the parsing of the two
    files. *)
Definition compare (oldSetup newSetup : value) : P unit :=
  console_log "Mac Setup Diff Tool";;
  console_log ("===================" +:+ LF);;
  origin "Old" oldSetup;;
  origin "New" newSetup;;
  console_log "";;
  diff ← try (diffSetups oldSetup newSetup next).1;
  print_applications (applications diff);;
  print_homebrew (homebrew diff);;
  print_globalPackages (globalPackages diff);;
  print_summary diff.

(** [main()], for the arguments [args] of the command line. *)
Definition main (args : list string) : P unit :=
  when (existsb (String.eqb "--help") args
        || existsb (String.eqb "-h") args
        || (length args <? 2))
    print_usage;;
  let oldFile := nth 0 args "" in
  let newFile := nth 1 args "" in
  when (negb (existsSync oldFile))
    (console_error ("File not found: " +:+ oldFile);; process_exit 1);;
  when (negb (existsSync newFile))
    (console_error ("File not found: " +:+ newFile);; process_exit 1);;
  oldSetup ← load oldFile;
  newSetup ← load newFile;
  compare oldSetup newSetup.

End Main.
End DiffTool.

(** ** [src/tools/apply.js] *)
Module ApplyTool.
Import Tool.

(** The options of the command line. *)
Record options : Type := {
  setupFile : option string;
  installGlobalPackages : bool;
  installMas : bool;
  dryRun : bool;
  verify : bool
}.

(** [let setupFile = null; let installGlobalPackages = false; ...] *)
Definition no_options : options :=
  {| setupFile := None; installGlobalPackages := false; installMas := false;
     dryRun := false; verify := false |}.

(** [!!setupFile] *)
Definition file_given (o : options) : bool :=
  match setupFile o with
  | Some file => negb (String.eqb file "")
  | None => false
  end.

(** A character of the class [[a-zA-Z0-9\-_\/]]. *)
Definition tap_character (c : ascii) : bool :=
  let n := nat_of_ascii c in
  (97 <=? n) && (n <=? 122) || (65 <=? n) && (n <=? 90)
  || (48 <=? n) && (n <=? 57)
  || Ascii.eqb c "-" || Ascii.eqb c "_" || Ascii.eqb c "/".

(** [/^[a-zA-Z0-9\-_\/]+$/.test(s)] *)
Definition tap_name (s : string) : bool :=
  negb (String.eqb s "") && forallb tap_character (list_ascii_of_string s).

(** [l.filter(test)] for a test that may throw. *)
Fixpoint filter_with {A} (test : A → outcome bool) (l : list A)
    : outcome (list A) :=
  match l with
  | [] => Ok []
  | x :: l' =>
      match test x, filter_with test l' with
      | Ok keep, Ok rest => Ok (if keep then x :: rest else rest)
      | Throw e, _ | _, Throw e => Throw e
      end
  end.

(** The loop [for (let i = 0; i < names.length; i += size)
    batches.push(names.slice(i, i + size))] of [installFormulae] and
    [installCasks], which takes one turn per unit of [fuel]. *)
Fixpoint batches_from {A} (fuel i size : nat) (names : list A)
    (batches : list (list A)) : list (list A) :=
  match fuel with
  | 0 => batches
  | S fuel' =>
      if i <? length names then
        batches_from fuel' (i + size) size names
          (batches ++ [take size (drop i names)])
      else batches
  end.

(** The batches of [size] names; the loop is over within
    [length names] turns when [size] is not zero. *)
Definition batches_of {A} (size : nat) (names : list A) : list (list A) :=
  batches_from (length names) 0 size names [].

Section Run.
(** The files, as for the diff tool, and [external command]: what running
    [command] does, and what [exec] of [src/utils/exec.js] does besides
    once it is called. *)
Variable existsSync : string → bool.
Variable read_json : string → DiffTool.parsed.
Variable number : Z → string.
Variable external : string → P unit.

(** [exec(command, options)] *)
Definition exec (command : string) : P unit := fun c =>
  external command {| stdout := stdout c; stderr := stderr c;
                      executed := executed c ++ [command] |}.

(** [`${v}`] *)
Definition text (v : value) : P string := try (to_string number v).

(** [installTaps(taps, dryRun)], for the elements [taps] of the array. *)
Definition installTaps (taps : list value) (dryRun : bool) : P unit :=
  if length taps =? 0 then mret () else
  console_log ((if dryRun then "Would install" else "Installing") +:+ " "
               +:+ pretty (length taps) +:+ " Homebrew taps...");;
  (* Sanitize tap names *)
  names ← try (mapM (M := outcome) Diff.bare_name taps);
  safeTaps ← try (filter_with
                    (fun tap => s ← to_string number tap; Ok (tap_name s))
                    names);
  when (negb (length safeTaps =? length taps))
    (console_error ("Warning: " +:+ pretty (length taps - length safeTaps)
                    +:+ " invalid tap name(s) skipped"));;
  for_of safeTaps (fun tap =>
    name ← text tap;
    console_log ("- " +:+ (if dryRun then "Would tap" else "Tapping") +:+ " "
                 +:+ name);;
    when (negb dryRun)
      (name ← text tap; exec ("brew tap " +:+ name)));;
  console_log "".

(** One turn of the loop over the arguments. *)
Definition parse_argument (o : options) (arg : string) : P options :=
  if String.eqb arg "--install-global-packages" then
    mret {| setupFile := setupFile o; installGlobalPackages := true;
            installMas := installMas o; dryRun := dryRun o;
            verify := verify o |}
  else if String.eqb arg "--install-mas" then
    mret {| setupFile := setupFile o;
            installGlobalPackages := installGlobalPackages o;
            installMas := true; dryRun := dryRun o; verify := verify o |}
  else if String.eqb arg "--dry-run" then
    mret {| setupFile := setupFile o;
            installGlobalPackages := installGlobalPackages o;
            installMas := installMas o; dryRun := true; verify := verify o |}
  else if String.eqb arg "--verify" then
    mret {| setupFile := setupFile o;
            installGlobalPackages := installGlobalPackages o;
            installMas := installMas o; dryRun := dryRun o; verify := true |}
  else if String.eqb arg "--help" || String.eqb arg "-h" then
    console_log "Usage: node apply.js <mac-setup.json> [options]";;
    console_log "";;
    console_log "Options:";;
    console_log "  --install-global-packages  Automatically install npm, bun, dart, ruby packages";;
    console_log "  --install-mas              Automatically install Mac App Store apps (requires mas CLI)";;
    console_log "  --dry-run                  Show what would be done without making changes";;
    console_log "  --verify                   Verify installations after applying";;
    console_log "  --help, -h                 Show this help message";;
    process_exit 0
  else if negb (file_given o) then
    mret {| setupFile := Some arg;
            installGlobalPackages := installGlobalPackages o;
            installMas := installMas o; dryRun := dryRun o;
            verify := verify o |}
  else mret o.

(** Parse arguments *)
Fixpoint parse_arguments (o : options) (args : list string) : P options :=
  match args with
  | [] => mret o
  | arg :: rest => o' ← parse_argument o arg; parse_arguments o' rest
  end.

(** [validateSetup(setup)], whose warning goes to the error output: the
    result, and the caller's object after the call. *)
Definition validate (setup : value) : P (validation * value) := fun c =>
  let run := validateSetup setup in
  (match run.1 with
   | Ok result => Returned (result, v_setup run.2)
   | Throw e => Uncaught e
   end,
   {| stdout := stdout c; stderr := stderr c ++ v_console run.2;
      executed := executed c |}).

(** The statements of [main] up to the check of the version: they yield
    the options and the document that the installation then works
    from. *)
Definition prepare (args : list string) : P (options * value) :=
  o ← parse_arguments no_options args;
  when (negb (file_given o))
    (console_error "Usage: node apply.js <mac-setup.json> [options]";;
     console_error "";;
     console_error "Run with --help for more information";;
     process_exit 1);;
  let file := default "" (setupFile o) in
  when (negb (existsSync file))
    (console_error ("File not found: " +:+ file);; process_exit 1);;
  setup ← match read_json file with
          | DiffTool.Parsed v => mret v
          | DiffTool.Failed message =>
              console_error ("Error parsing JSON file: " +:+ message);;
              process_exit 1
          end;
  (* Validate setup JSON *)
  '(validation, setup) ← validate setup;
  when (negb (valid validation))
    (console_error "Invalid setup file:";;
     for_of (errors validation) (fun error =>
       console_error ("  - " +:+ error));;
     process_exit 1);;
  (* Check version compatibility *)
  compatible ← try (isCompatibleVersion setup);
  when (negb compatible)
    (version ← try (member setup "version");
     version ← text (if truthy version then version else VStr "1.0");
     console_error ("Warning: Setup file version " +:+ version
                    +:+ " may not be fully compatible");;
     console_error "Consider re-capturing your setup with the latest version");;
  mret (o, setup).

End Run.
End ApplyTool.

(** * Notions used to state the properties *)

(** The text before the first ['.'] of a string, as the specification
    words it. *)
Fixpoint before_first_dot (s : string) : string :=
  match s with
  | EmptyString => ""
  | String c rest =>
      if Ascii.eqb c "." then "" else String c (before_first_dot rest)
  end.

(** ** Properties of statements

    A statement [preserves] a relation [P] between the store it starts
    from and the store it leaves, whether it completes or throws. *)
Definition preserves {S : Type} (P : S → S → Prop) {A} (m : M S A) : Prop :=
  ∀ s, P s (m s).2.

(** A statement [respects] a relation [R] between two stores when, started
    from related stores, it has the same outcome in both and leaves
    related stores. *)
Definition respects {S : Type} (R : S → S → Prop) {A} (m : M S A) : Prop :=
  ∀ s s', R s s' → (m s).1 = (m s').1 ∧ R (m s).2 (m s').2.

(** Every value the statement can complete with satisfies [Q]. *)
Definition returns_only {S A : Type} (Q : A → Prop) (m : M S A) : Prop :=
  ∀ s a s', m s = (Ok a, s') → Q a.

(** A statement that throws from every store satisfying [Q]. *)
Definition throws_on {S : Type} (Q : S → Prop) {A} (m : M S A) : Prop :=
  ∀ s, Q s → returns (m s).1 = false.

(** ** Notions about [validateSetup] *)

Module Checks.
Import Validate.

(** The checks after the version check, and the result. *)
Definition checks : M vstore validation :=
  check_system;;
  check_homebrew;;
  check_applications;;
  check_globalPackages;;
  check_shellConfigs;;
  check_gitConfig;;
  check_githubRepos;;
  errors ← gets v_errors;
  mret {| valid := Nat.eqb (length errors) 0; errors := errors |}.

(** The store is as before but for messages pushed on [errors]. *)
Definition only_errors_pushed (s s' : vstore) : Prop :=
  v_setup s' = v_setup s ∧ v_console s' = v_console s
  ∧ ∃ pushed, v_errors s' = v_errors s ++ pushed.

(** The caller's object after [setup.version = '1.0']. *)
Definition backfill (setup : value) : value :=
  match assign setup "version" (VStr "1.0") with
  | Ok o => o
  | Throw _ => setup
  end.

(** The store a call starts from. *)
Definition start (setup : value) : vstore :=
  {| v_setup := setup; v_errors := []; v_console := [] |}.

(** Two stores whose documents differ at most in [version], the first
    holding the messages [pre] before those of the second. *)
Definition alike (pre : list string) (s s' : vstore) : Prop :=
  nullish (v_setup s) = nullish (v_setup s')
  ∧ (∀ k, k ≠ "version" → field (v_setup s) k = field (v_setup s') k)
  ∧ v_errors s = pre ++ v_errors s'.

(** The [return] statement. *)
Definition result : M vstore validation :=
  errors ← gets v_errors;
  mret {| valid := Nat.eqb (length errors) 0; errors := errors |}.

(** The checks run one after the other. *)
Definition sequence (cs : list (M vstore unit)) : M vstore validation :=
  foldr (fun c rest => c;; rest) result cs.

(** The messages a check pushes when it runs on [setup] alone. *)
Definition own_errors (setup : value) (c : M vstore unit) : list string :=
  v_errors (c (start setup)).2.

(** A check that only pushes messages, the same ones whatever was
    pushed before. *)
Definition well_behaved (c : M vstore unit) : Prop :=
  preserves only_errors_pushed c ∧ ∀ pre, respects (alike pre) c.

(** The message of [check_package] for the entry at [idx]. *)
Definition package_message (kind : string) (idx : nat) : string :=
  "Invalid " +:+ kind +:+ " at index " +:+ pretty idx
  +:+ ": missing 'name' field".

(** The store after [errors.push(msg)] for each of [msgs]. *)
Definition push_all (msgs : list string) (s : vstore) : vstore :=
  {| v_setup := v_setup s; v_errors := v_errors s ++ msgs;
     v_console := v_console s |}.

(** The messages for the entries [items], the first of which is at
    index [idx]. *)
Fixpoint package_errors (kind : string) (idx : nat) (items : list value)
    : list string :=
  match items with
  | [] => []
  | pkg :: rest =>
      (if truthy (field pkg "name") then [] else [package_message kind idx])
      ++ package_errors kind (S idx) rest
  end.

(** The messages about a field of the document, as opposed to those
    about an entry of a package list. *)
Definition is_field_message (msg : string) : bool :=
  String.prefix "Missing required field" msg
  || String.prefix "Invalid field" msg.

(** Only field messages were pushed. *)
Definition field_messages_pushed (s s' : vstore) : Prop :=
  ∀ msg, In msg (v_errors s') →
         In msg (v_errors s) ∨ is_field_message msg = true.

(** The elements of an array, none for another value. *)
Definition items_of (v : value) : list value :=
  match v with
  | VArr _ items _ => items
  | _ => []
  end.

(** Neither [null] nor [undefined]. *)
Definition not_nullish (v : value) : bool := negb (nullish v).

(** The messages of the three [Array.isArray] tests. *)
Definition array_errors (homebrew : value) : list string :=
  (if isArray (field homebrew "taps") then []
   else ["Invalid field: homebrew.taps must be an array"])
  ++ (if isArray (field homebrew "casks") then []
      else ["Invalid field: homebrew.casks must be an array"])
  ++ (if isArray (field homebrew "formulae") then []
      else ["Invalid field: homebrew.formulae must be an array"]).

(** [if (Array.isArray(v)) { v.forEach(...) }] *)
Definition packages_loop (kind : string) (v : value) : M vstore unit :=
  when (isArray v)
    (items ← eval (elements_of v); forEach items (check_package kind)).

End Checks.

(** The two package lists of [homebrew] that [validateSetup] walks. *)
Inductive collection : Type := Casks | Formulae.

Definition collection_field (c : collection) : string :=
  match c with Casks => "casks" | Formulae => "formulae" end.

Definition collection_kind (c : collection) : string :=
  match c with Casks => "cask" | Formulae => "formula" end.

(** A document that conforms but for the entries of [homebrew.casks]. *)
Definition setup_with_casks (casks : list value) : value :=
  object_literal 0 [
    ("version", VStr "2.0");
    ("system", object_literal 1 [
       ("hostname", VStr "studio"); ("macosVersion", VStr "14.5");
       ("captureDate", VStr "2024-12-01T10:00:00.000Z") ]);
    ("homebrew", object_literal 2 [
       ("taps", array_literal 3 [VStr "homebrew/cask"]);
       ("casks", array_literal 4 casks);
       ("formulae", array_literal 5 [
          object_literal 6 [("name", VStr "git"); ("version", VStr "2.45.0")] ]) ])
  ].

(** ** Notions about [diffSetups] *)

Module Passes.
Import Diff.

(** The two arguments are as before. *)
Definition inputs_kept (s s' : dstore) : Prop :=
  oldSetup s' = oldSetup s ∧ newSetup s' = newSetup s.

(** Of [diff], only [diff.homebrew] was written. *)
Definition only_homebrew_written (s s' : dstore) : Prop :=
  inputs_kept s s'
  ∧ applications (diff s') = applications (diff s)
  ∧ globalPackages (diff s') = globalPackages (diff s).

(** The statements that follow the comparison of the applications. *)
Definition packages_and_result : M dstore report :=
  compare_homebrew "formulae";;
  compare_homebrew "casks";;
  compare_homebrew "taps";;
  compare_globalPackages;;
  gets diff.

(** Of [diff], only [diff.applications] was written. *)
Definition only_applications_written (s s' : dstore) : Prop :=
  inputs_kept s s'
  ∧ homebrew (diff s') = homebrew (diff s)
  ∧ globalPackages (diff s') = globalPackages (diff s).

(** One of the two arguments has no [applications]. *)
Definition lacks_applications (s : dstore) : Prop :=
  field (oldSetup s) "applications" = VUndef
  ∨ field (newSetup s) "applications" = VUndef.

(** One of the two arguments has no [globalPackages]. *)
Definition lacks_globalPackages (s : dstore) : Prop :=
  field (oldSetup s) "globalPackages" = VUndef
  ∨ field (newSetup s) "globalPackages" = VUndef.

(** [setup.applications.map(a => [a.name, a])] *)
Definition entries_of (setup : value) : outcome (list (value * value)) :=
  apps ← member setup "applications"; array_map name_entry apps.

(** The body of the loop over [newApps]. *)
Definition added_or_updated (oldApps : Map) : value * value → M dstore unit :=
  fun '(name, app) =>
    if negb (Map_has oldApps name) then
      applications_added_push app
    else
      oldV ← eval (member (Map_get oldApps name) "version");
      newV ← eval (member app "version");
      when (negb (strict_equal oldV newV))
        (oldVersion ← eval (member (Map_get oldApps name) "version");
         newVersion ← eval (member app "version");
         applications_updated_push
           {| upd_name := name; oldVersion := oldVersion;
              newVersion := newVersion |}).

(** The body of the loop over [oldApps]. *)
Definition removed_if_absent (newApps : Map) : value * value → M dstore unit :=
  fun '(name, app) =>
    when (negb (Map_has newApps name)) (applications_removed_push app).

(** The values of [m2] whose key [m1] does not have. *)
Definition absent_from (m1 m2 : Map) : list value :=
  (List.filter (fun e => negb (Map_has m1 e.1)) m2).*2.

(** The [{ name, oldVersion, newVersion }] pushed for the entry [e] of
    [newApps], if any. *)
Definition update_of (oldApps : Map) (e : value * value) : option app_update :=
  let oldVersion := field (Map_get oldApps e.1) "version" in
  let newVersion := field e.2 "version" in
  if Map_has oldApps e.1 && negb (strict_equal oldVersion newVersion)
  then Some {| upd_name := e.1; oldVersion := oldVersion;
               newVersion := newVersion |}
  else None.

(** What the loop over [newApps] pushes on [diff.applications.updated]. *)
Definition updates (oldApps newApps : Map) : list app_update :=
  omap (update_of oldApps) newApps.

(** The store after pushing [a] on [diff.applications.added], [u] on
    [updated] and [r] on [removed]. *)
Definition push_applications (a : list value) (u : list app_update)
    (r : list value) (s : dstore) : dstore :=
  set_diff (set_applications
    {| app_added := app_added (applications (diff s)) ++ a;
       app_removed := app_removed (applications (diff s)) ++ r;
       app_updated := app_updated (applications (diff s)) ++ u |}
    (diff s)) s.

(** No value of the map is [null] or [undefined]. *)
Definition values_not_nullish (m : Map) : Prop :=
  Forall (fun e => nullish e.2 = false) m.

(** The pairs [[a.name, a]] of the elements [items]. *)
Definition name_entries (items : list value) : list (value * value) :=
  (fun a => (field a "name", a)) <$> items.

End Passes.

(** Applications as the specification has them: entries keyed by
    name. *)
Module Keyed.

Definition is_string (v : value) : bool :=
  match v with VStr _ => true | _ => false end.


(** No value of the list is [===] to a later one. *)
Fixpoint distinct (l : list value) : bool :=
  match l with
  | [] => true
  | x :: l' => negb (existsb (strict_equal x) l') && distinct l'
  end.



End Keyed.

(** The comparison of the global packages. *)
Module Globals.
Import Diff.

(** [category] is not a property of [diff.homebrew]. *)
Definition no_bucket (category : string) (s : dstore) : Prop :=
  homebrew (diff s) !! category = None.

(** Properties that [diff.homebrew] lacks, it still lacks. *)
Definition no_bucket_added (s s' : dstore) : Prop :=
  ∀ category, no_bucket category s → no_bucket category s'.

(** The body of the two loops of [comparePackages]. *)
Definition push_if_absent (push : outcome value → M dstore unit)
    (others : JSet) (pkg : value) : M dstore unit :=
  name ← eval (name_or_self pkg);
  when (negb (Set_has others name)) (push (bare_name pkg)).

(** Every package of [pkgs] has its name in [others]. *)
Definition all_present (others : JSet) (pkgs : list value) : Prop :=
  Forall (fun pkg => ∃ name, name_or_self pkg = Ok name
                             ∧ Set_has others name = true) pkgs.

(** The packages [doc.globalPackages[manager] || []] holds, when that is
    an array. *)
Definition global_packages (doc : value) (manager : string) : list value :=
  Checks.items_of (field (field doc "globalPackages") manager).

(** Their names, [p.name || p]. *)
Definition name_set (pkgs : list value) : JSet :=
  new_Set ((fun p => if truthy (field p "name") then field p "name" else p)
           <$> pkgs).
(** One turn of the loop over the managers. *)
Definition compare_manager (manager : string) : M dstore unit :=
  old ← gets oldSetup;
  oldGlobal ← eval (member old "globalPackages");
  oldValue ← eval (member oldGlobal manager);
  oldPkgs ← or_empty_array oldValue;
  new ← gets newSetup;
  newGlobal ← eval (member new "globalPackages");
  newValue ← eval (member newGlobal manager);
  newPkgs ← or_empty_array newValue;
  comparePackages oldPkgs newPkgs manager manager.

(** Nothing but the counter of identities has changed. *)
Definition only_ids_taken (s s' : dstore) : Prop :=
  oldSetup s' = oldSetup s ∧ newSetup s' = newSetup s ∧ diff s' = diff s.

(** Neither document has a package for [manager] that the other lacks. *)
Definition same_global_packages (old new : value) (manager : string) : Prop :=
  all_present (name_set (global_packages old manager))
    (global_packages new manager)
  ∧ all_present (name_set (global_packages new manager))
      (global_packages old manager).
End Globals.

(** [doc] has no own property [k]. *)
Definition omits (doc : value) (k : string) : Prop := own_props doc !! k = None.

(** Two documents that differ in their applications only. *)
Definition application (id : nat) (name version : string) : value :=
  object_literal id [("name", VStr name); ("version", VStr version)].

Definition setup_with_applications (id : nat) (apps : list value) : value :=
  object_literal id [
    ("version", VStr "2.0");
    ("system", object_literal (id + 1) [
       ("hostname", VStr "studio"); ("macosVersion", VStr "14.5");
       ("captureDate", VStr "2024-12-01T10:00:00.000Z") ]);
    ("applications", array_literal (id + 2) apps);
    ("homebrew", object_literal (id + 3) [
       ("taps", array_literal (id + 4) [VStr "homebrew/cask"]);
       ("casks", array_literal (id + 5) [
          object_literal (id + 6) [("name", VStr "firefox");
                                   ("version", VStr "126.0")] ]);
       ("formulae", array_literal (id + 7) []) ]);
    ("globalPackages", object_literal (id + 8) [
       ("npm", array_literal (id + 9) [
          object_literal (id + 10) [("name", VStr "typescript");
                                    ("version", VStr "5.4.5")] ]);
       ("bun", array_literal (id + 11) []);
       ("dart", array_literal (id + 12) []);
       ("ruby", array_literal (id + 13) []) ])
  ].

Definition studio_applications : list value :=
  [application 20 "Xcode.app" "14.0"; application 21 "Slack.app" "4.38"].

Definition laptop_applications : list value :=
  [application 60 "Xcode.app" "15.0"; application 61 "Zoom.app" "6.0"].

(** As the specification words it: the name a package reference
    normalizes to, and the names of [refs] absent from [others]. *)
Definition package_name (ref : value) : value :=
  match ref with
  | VStr s => VStr s
  | _ => field ref "name"
  end.

Definition names_absent_from (others refs : list value) : list value :=
  List.filter
    (fun n => negb (existsb (strict_equal n) (package_name <$> others)))
    (package_name <$> refs).

(** A document that conforms, with the global npm packages [npm]. *)
Definition setup_with_npm (id : nat) (npm : list value) : value :=
  object_literal id [
    ("version", VStr "2.0");
    ("system", object_literal (id + 1) [
       ("hostname", VStr "studio"); ("macosVersion", VStr "14.5");
       ("captureDate", VStr "2024-12-01T10:00:00.000Z") ]);
    ("applications", array_literal (id + 2) []);
    ("homebrew", object_literal (id + 3) [
       ("taps", array_literal (id + 4) []);
       ("casks", array_literal (id + 5) []);
       ("formulae", array_literal (id + 6) []) ]);
    ("globalPackages", object_literal (id + 7) [
       ("npm", array_literal (id + 8) npm);
       ("bun", array_literal (id + 9) []);
       ("dart", array_literal (id + 10) []);
       ("ruby", array_literal (id + 11) []) ])
  ].

(** The rules of [validateSetup] as functions of the document. *)
Module Rules.
Import Validate Checks.

(** The message of a rule, when the rule fails. *)
Definition unless (holds : bool) (msg : string) : list string :=
  if holds then [] else [msg].

(** An optional field that must be an array when it is there. *)
Definition array_if_present (v : value) : bool :=
  negb (truthy v) || isArray v.

Definition system_errors (setup : value) : list string :=
  let system := field setup "system" in
  if truthy system then
    unless (truthy (field system "hostname"))
      "Missing required field: system.hostname"
    ++ unless (truthy (field system "macosVersion"))
         "Missing required field: system.macosVersion"
    ++ unless (truthy (field system "captureDate"))
         "Missing required field: system.captureDate"
  else ["Missing required field: system"].

Definition homebrew_errors (setup : value) : list string :=
  let homebrew := field setup "homebrew" in
  if truthy homebrew then
    array_errors homebrew
    ++ package_errors "cask" 0 (items_of (field homebrew "casks"))
    ++ package_errors "formula" 0 (items_of (field homebrew "formulae"))
  else ["Missing required field: homebrew"].

Definition applications_errors (setup : value) : list string :=
  unless (array_if_present (field setup "applications"))
    "Invalid field: applications must be an array".

Definition manager_message (manager : string) : string :=
  "Invalid field: globalPackages." +:+ manager +:+ " must be an array".

Definition globalPackages_errors (setup : value) : list string :=
  let globalPackages := field setup "globalPackages" in
  if truthy globalPackages then
    mjoin ((fun manager =>
              unless (array_if_present (field globalPackages manager))
                (manager_message manager)) <$> managers)
  else [].

Definition shellConfigs_errors (setup : value) : list string :=
  unless (array_if_present (field setup "shellConfigs"))
    "Invalid field: shellConfigs must be an array".

Definition gitConfig_errors (setup : value) : list string :=
  let gitConfig := field setup "gitConfig" in
  if truthy gitConfig then
    unless (negb (truthy (field gitConfig "user"))
            || String.eqb (typeof (field gitConfig "user")) "object")
      "Invalid field: gitConfig.user must be an object"
    ++ unless (array_if_present (field gitConfig "settings"))
         "Invalid field: gitConfig.settings must be an array"
  else [].

Definition githubRepos_errors (setup : value) : list string :=
  unless (array_if_present (field setup "githubRepos"))
    "Invalid field: githubRepos must be an array".

(** The messages of all the rules, in the order of the checks. *)
Definition all_errors (setup : value) : list string :=
  system_errors setup ++ homebrew_errors setup ++ applications_errors setup
  ++ globalPackages_errors setup ++ shellConfigs_errors setup
  ++ gitConfig_errors setup ++ githubRepos_errors setup.

(** The rules about the fields of the document, each with the message
    it fails with: all the rules but those about the entries of the two
    package lists. *)
Definition field_rules (setup : value) : list (string * bool) :=
  let system := field setup "system" in
  let homebrew := field setup "homebrew" in
  let globalPackages := field setup "globalPackages" in
  let gitConfig := field setup "gitConfig" in
  [ ("Missing required field: system", truthy system);
    ("Missing required field: system.hostname",
     negb (truthy system) || truthy (field system "hostname"));
    ("Missing required field: system.macosVersion",
     negb (truthy system) || truthy (field system "macosVersion"));
    ("Missing required field: system.captureDate",
     negb (truthy system) || truthy (field system "captureDate"));
    ("Missing required field: homebrew", truthy homebrew);
    ("Invalid field: homebrew.taps must be an array",
     negb (truthy homebrew) || isArray (field homebrew "taps"));
    ("Invalid field: homebrew.casks must be an array",
     negb (truthy homebrew) || isArray (field homebrew "casks"));
    ("Invalid field: homebrew.formulae must be an array",
     negb (truthy homebrew) || isArray (field homebrew "formulae"));
    ("Invalid field: applications must be an array",
     array_if_present (field setup "applications"));
    ("Invalid field: globalPackages.npm must be an array",
     negb (truthy globalPackages)
     || array_if_present (field globalPackages "npm"));
    ("Invalid field: globalPackages.bun must be an array",
     negb (truthy globalPackages)
     || array_if_present (field globalPackages "bun"));
    ("Invalid field: globalPackages.dart must be an array",
     negb (truthy globalPackages)
     || array_if_present (field globalPackages "dart"));
    ("Invalid field: globalPackages.ruby must be an array",
     negb (truthy globalPackages)
     || array_if_present (field globalPackages "ruby"));
    ("Invalid field: shellConfigs must be an array",
     array_if_present (field setup "shellConfigs"));
    ("Invalid field: gitConfig.user must be an object",
     negb (truthy gitConfig)
     || (negb (truthy (field gitConfig "user"))
         || String.eqb (typeof (field gitConfig "user")) "object"));
    ("Invalid field: gitConfig.settings must be an array",
     negb (truthy gitConfig)
     || array_if_present (field gitConfig "settings"));
    ("Invalid field: githubRepos must be an array",
     array_if_present (field setup "githubRepos")) ].

(** The messages of the rules that fail. *)
Definition failed (rules : list (string * bool)) : list string :=
  rules ≫= (fun rule => unless rule.2 rule.1).

(** [msg] is the message of a rule that fails. *)
Definition fails (msg : string) (rules : list (string * bool)) : bool :=
  existsb (fun rule => String.eqb msg rule.1 && negb rule.2) rules.

(** No entry of [homebrew.casks] and [homebrew.formulae] is [null] or
    [undefined]. *)
Definition entries_readable (setup : value) : bool :=
  let homebrew := field setup "homebrew" in
  negb (truthy homebrew)
  || forallb not_nullish (items_of (field homebrew "casks"))
     && forallb not_nullish (items_of (field homebrew "formulae")).

(** The document is one [validateSetup] returns on. *)
Definition checkable (setup : value) : bool :=
  negb (nullish setup) && entries_readable setup.

End Rules.

(** The sections of a document that [validateSetup] reads. *)
Definition validated_sections : list string :=
  [ "system"; "homebrew"; "applications"; "globalPackages"; "shellConfigs";
    "gitConfig"; "githubRepos" ].

(** What [diffSetups] computes, as functions of the two documents. *)
Module Engine.
Import Diff.

(** An array none of whose elements is [null] or [undefined]: a value on
    which [v.map(x => x.name ...)] completes. *)
Definition entries_ok (v : value) : bool :=
  isArray v && forallb Checks.not_nullish (Checks.items_of v).

(** [p.name || p], for [p] other than [null] and [undefined]. *)
Definition key (p : value) : value :=
  if truthy (field p "name") then field p "name" else p.

(** [typeof pkg === 'string' ? pkg : pkg.name], likewise. *)
Definition reported (pkg : value) : value :=
  if String.eqb (typeof pkg) "string" then pkg else field pkg "name".

(** [new Set(pkgs.map(p => p.name || p))] *)
Definition key_set (pkgs : list value) : JSet := new_Set (key <$> pkgs).

(** What a loop of [comparePackages] over [pkgs] pushes: the names of the
    packages whose key the other side does not have, in the order of
    [pkgs]. *)
Definition pushed (others pkgs : list value) : list value :=
  reported <$> List.filter (fun p => negb (Set_has (key_set others) (key p))) pkgs.

Definition package_changes (oldPkgs newPkgs : list value) : changes :=
  {| added := pushed oldPkgs newPkgs; removed := pushed newPkgs oldPkgs |}.

(** The store after [diff.homebrew[category].added.push(x)] for each [x]
    of [a] and [diff.homebrew[category].removed.push(x)] for each [x] of
    [r]. *)
Definition push_homebrew (category : string) (a r : list value) (s : dstore)
    : dstore :=
  match homebrew (diff s) !! category with
  | Some c =>
      set_diff (set_homebrew
        (<[category := {| added := added c ++ a; removed := removed c ++ r |}]>
           (homebrew (diff s)))
        (diff s)) s
  | None => s
  end.

(** The packages of [doc.homebrew[category]]. *)
Definition homebrew_packages (doc : value) (category : string) : list value :=
  Checks.items_of (field (field doc "homebrew") category).

(** The store when the categories of [homebrew] are compared. *)
Definition homebrew_pushed (old new : value) (categories : list string)
    (s : dstore) : dstore :=
  foldl (fun s category =>
           push_homebrew category
             (pushed (homebrew_packages old category)
                (homebrew_packages new category))
             (pushed (homebrew_packages new category)
                (homebrew_packages old category)) s)
    s categories.

(** Neither side has a package whose key the other lacks. *)
Definition nothing_pushed (oldPkgs newPkgs : list value) : bool :=
  forallb (fun p => Set_has (key_set oldPkgs) (key p)) newPkgs
  && forallb (fun p => Set_has (key_set newPkgs) (key p)) oldPkgs.

(** [doc.globalPackages[manager] || []] is an array that can be mapped. *)
Definition manager_ok (doc : value) (manager : string) : bool :=
  let pkgs := field (field doc "globalPackages") manager in
  negb (truthy pkgs) || entries_ok pkgs.

Definition applications_ok (doc : value) : bool :=
  negb (nullish doc) && entries_ok (field doc "applications").

(** [comparePackages(oldSetup.homebrew[category],
    newSetup.homebrew[category], ...)] has two arrays to work on. *)
Definition category_ok (old new : value) (category : string) : bool :=
  negb (nullish (field old "homebrew"))
  && negb (nullish (field new "homebrew"))
  && entries_ok (field (field old "homebrew") category)
  && entries_ok (field (field new "homebrew") category).

(** The turn of the loop over the managers for [manager] has two arrays
    to work on, and no name to report. *)
Definition manager_turn_ok (old new : value) (manager : string) : bool :=
  negb (nullish (field old "globalPackages"))
  && negb (nullish (field new "globalPackages"))
  && manager_ok old manager && manager_ok new manager
  && nothing_pushed (Globals.global_packages old manager)
       (Globals.global_packages new manager).

(** The pairs of documents on which [diffSetups] returns. *)
Definition diffable (old new : value) : bool :=
  applications_ok old && applications_ok new
  && forallb (category_ok old new) ["formulae"; "casks"; "taps"]
  && forallb (manager_turn_ok old new) ["npm"; "bun"; "dart"; "ruby"].

(** [new Map(doc.applications.map(a => [a.name, a]))] *)
Definition applications_map (doc : value) : Map :=
  new_Map (Passes.name_entries (Checks.items_of (field doc "applications"))).

(** The report [diffSetups] returns when it returns. *)
Definition report_of (old new : value) : report :=
  let oldApps := applications_map old in
  let newApps := applications_map new in
  let compare category :=
    package_changes (homebrew_packages old category)
      (homebrew_packages new category) in
  {| applications :=
       {| app_added := Passes.absent_from oldApps newApps;
          app_removed := Passes.absent_from newApps oldApps;
          app_updated := Passes.updates oldApps newApps |};
     homebrew := {[ "formulae" := compare "formulae";
                    "casks" := compare "casks";
                    "taps" := compare "taps" ]};
     globalPackages := globalPackages initial_diff |}.

End Engine.

(** A document that conforms, with the given [version]. *)
Definition setup_with_version (version : value) : value :=
  object_literal 0 [
    ("version", version);
    ("system", object_literal 1 [
       ("hostname", VStr "studio"); ("macosVersion", VStr "14.5");
       ("captureDate", VStr "2024-12-01T10:00:00.000Z") ]);
    ("homebrew", object_literal 2 [
       ("taps", array_literal 3 [VStr "homebrew/core"]);
       ("casks", array_literal 4 []);
       ("formulae", array_literal 5 [
          object_literal 6 [("name", VStr "git"); ("version", VStr "2.45.0")] ]) ])
  ].


(** A package reference: a bare name string, or a value carrying a
    [name]. *)
Definition package_reference (p : value) : bool :=
  Keyed.is_string p || truthy (field p "name").

(** The sections of a document that [diffSetups] reads. *)
Definition compared_sections : list string :=
  [ "applications"; "homebrew"; "globalPackages" ].

Module ToolNotions.
Import Tool.

(** Nothing was written yet. *)
Definition silent : effects :=
  {| stdout := []; stderr := []; executed := [] |}.

(** A statement that only adds lines satisfying [Q] to the standard
    output. *)
Definition logs (Q : string → Prop) {A} (m : P A) : Prop :=
  ∀ c, ∃ lines, stdout (m c).2 = stdout c ++ lines ∧ Forall Q lines.

(** A statement that does not call [process.exit]. *)
Definition no_exit {A} (m : P A) : Prop :=
  ∀ c code, (m c).1 ≠ Exited code.

(** A statement that ends by an uncaught [TypeError] whatever the
    run has done before. *)
Definition crashes {A} (m : P A) : Prop :=
  ∀ c, (m c).1 = Uncaught TypeError.

End ToolNotions.

Module DiffToolNotions.
Import Tool DiffTool.

(** The lines that open the section on the global packages. *)
Definition opens_global_section (line : string) : bool :=
  String.eqb line "Global Packages:" || String.eqb line "----------------".

(** A line that does not open that section. *)
Definition quiet (line : string) : Prop := opens_global_section line = false.

(** The lines of the summary, for the three totals. *)
Definition summary_lines (totalAdded totalRemoved totalUpdated : nat)
    : list string :=
  [ "Summary:"; "--------";
    "✓ Added:   " +:+ pretty totalAdded;
    "✗ Removed: " +:+ pretty totalRemoved;
    "↑ Updated: " +:+ pretty totalUpdated;
    "  Total changes: " +:+ pretty (totalAdded + totalRemoved + totalUpdated) ].

(** The lines of the usage message. *)
Definition usage_lines : list string :=
  [ "Usage: node diff.js <old-setup.json> <new-setup.json> [options]";
    "";
    "Compare two mac-setup.json files to see what changed";
    "";
    "Options:";
    "  --help, -h     Show this help message";
    "";
    "Example:";
    "  node diff.js mac-setup-2024-01.json mac-setup-2024-12.json" ].

(** [`${v}`] is evaluated without an exception. *)
Definition renders (number : Z → string) (v : value) : bool :=
  match to_string number v with Ok _ => true | Throw _ => false end.

(** The line on the origin of a document can be written. *)
Definition origin_renders (number : Z → string) (setup : value) : bool :=
  let system := field setup "system" in
  negb (nullish system) && renders number (field system "hostname")
  && renders number (field system "captureDate").

(** The lines of a report can be written. *)
Definition application_renders (number : Z → string) (app : value) : bool :=
  negb (nullish app) && renders number (field app "name")
  && renders number (field app "version").

Definition update_renders (number : Z → string) (u : app_update) : bool :=
  renders number (upd_name u) && renders number (oldVersion u)
  && renders number (newVersion u).

Definition changes_render (number : Z → string) (c : changes) : bool :=
  forallb (renders number) (added c) && forallb (renders number) (removed c).

Definition report_renders (number : Z → string) (r : report) : bool :=
  forallb (application_renders number) (app_added (applications r))
  && forallb (application_renders number) (app_removed (applications r))
  && forallb (update_renders number) (app_updated (applications r))
  && forallb (fun category =>
                match homebrew r !! category with
                | Some c => changes_render number c
                | None => false
                end) ["taps"; "formulae"; "casks"].

(** A statement that returns, after it has added lines to the standard
    output and nothing else; [R] holds of what it returns. *)
Definition completes {A} (R : A → Prop) (m : P A) : Prop :=
  ∀ c, ∃ a lines,
    m c = (Returned a, {| stdout := stdout c ++ lines; stderr := stderr c;
                          executed := executed c |})
    ∧ R a.

(** A statement that returns after it has added lines to the standard
    output, the lines [last] at the end. *)
Definition ends_with (last : list string) (m : P unit) : Prop :=
  ∀ c, ∃ lines,
    m c = (Returned (), {| stdout := stdout c ++ lines ++ last;
                           stderr := stderr c; executed := executed c |}).

End DiffToolNotions.

Module ApplyNotions.
Import Tool ApplyTool.

(** The arguments that are options. *)
Definition option_names : list string :=
  [ "--install-global-packages"; "--install-mas"; "--dry-run"; "--verify" ].

(** An argument that can name the file: neither an option nor empty. *)
Definition names_file (arg : string) : bool :=
  negb (existsb (String.eqb arg) option_names) && negb (String.eqb arg "").

(** The options an argument list asks for, when the first argument that
    names a file is [file]. *)
Definition options_of (args : list string) : options :=
  {| setupFile := find names_file args;
     installGlobalPackages :=
       existsb (String.eqb "--install-global-packages") args;
     installMas := existsb (String.eqb "--install-mas") args;
     dryRun := existsb (String.eqb "--dry-run") args;
     verify := existsb (String.eqb "--verify") args |}.

(** One turn of the loop, for an argument other than [--help] and
    [-h]. *)
Definition turn (o : options) (arg : string) : options :=
  {| setupFile :=
       if existsb (String.eqb arg) option_names || file_given o
       then setupFile o else Some arg;
     installGlobalPackages :=
       installGlobalPackages o || String.eqb arg "--install-global-packages";
     installMas := installMas o || String.eqb arg "--install-mas";
     dryRun := dryRun o || String.eqb arg "--dry-run";
     verify := verify o || String.eqb arg "--verify" |}.

(** The commands passed to [exec] are kept on record. *)
Definition keeps_record (external : string → P unit) : Prop :=
  ∀ command c, executed (external command c).2 = executed c.

(** A statement that only adds commands satisfying [Q] to those passed
    to [exec]. *)
Definition runs (Q : string → Prop) {A} (m : P A) : Prop :=
  ∀ c, ∃ commands,
    executed (m c).2 = executed c ++ commands ∧ Forall Q commands.

(** [brew tap] of a name made of the characters of the class only. *)
Definition safe_tap_command (command : string) : Prop :=
  ∃ name, command = "brew tap " +:+ name ∧ tap_name name = true.

(** The lines a rejected document is reported with. *)
Definition rejection (errors : list string) : list string :=
  "Invalid setup file:" :: (String.append "  - " <$> errors).

End ApplyNotions.

(** A document that lacks fields and has others of the wrong type; [more]
    are further properties. *)
Definition incomplete_setup (more : list (string * value)) : value :=
  object_literal 0 ([
    ("system", object_literal 1 [("hostname", VStr "studio")]);
    ("applications", VStr "none");
    ("globalPackages", object_literal 2 [("npm", VStr "typescript")])
  ] ++ more).

(** A document that conforms, with the given taps and formulae. *)
Definition setup_with_homebrew
    (id : nat) (hostname : string) (taps formulae : list value) : value :=
  object_literal id [
    ("version", VStr "2.0");
    ("system", object_literal (id + 1) [
       ("hostname", VStr hostname); ("macosVersion", VStr "14.5");
       ("captureDate", VStr "2024-12-01T10:00:00.000Z") ]);
    ("applications", array_literal (id + 2) []);
    ("homebrew", object_literal (id + 3) [
       ("taps", array_literal (id + 4) taps);
       ("casks", array_literal (id + 5) []);
       ("formulae", array_literal (id + 6) formulae) ]);
    ("globalPackages", object_literal (id + 7) [
       ("npm", array_literal (id + 8) []);
       ("bun", array_literal (id + 9) []);
       ("dart", array_literal (id + 10) []);
       ("ruby", array_literal (id + 11) []) ])
  ].

Definition studio_homebrew : value :=
  setup_with_homebrew 0 "studio" [VStr "homebrew/core"]
    [VStr "git"; object_literal 20 [("name", VStr "wget")]].

Definition laptop_homebrew : value :=
  setup_with_homebrew 40 "laptop" [VStr "homebrew/core"; VStr "homebrew/cask"]
    [object_literal 60 [("name", VStr "git")]; VStr "jq"].

(** A file system with no file, and one where every file holds
    [setup]. *)
Definition no_file (file : string) : bool := false.
Definition unreadable (file : string) : DiffTool.parsed :=
  DiffTool.Failed "Unexpected end of JSON input".
Definition any_file (file : string) : bool := true.
Definition holding (setup : value) (file : string) : DiffTool.parsed :=
  DiffTool.Parsed setup.

(** Integers in decimal. *)
Definition decimal (n : Z) : string := pretty n.

(** A shell in which every command succeeds. *)
Definition succeeds (command : string) : Tool.P unit := mret ().

(** * Properties *)

(** ** Running statements *)

Section MonadFacts.
Context {S : Type}.
Implicit Types s : S.

Lemma run_ret {A} (a : A) s : (mret a : M S A) s = (Ok a, s).
Proof. reflexivity. Qed.

Lemma run_bind {A B} (m : M S A) (f : A → M S B) s :
  (m ≫= f) s =
  match m s with
  | (Ok a, s') => f a s'
  | (Throw e, s') => (Throw e, s')
  end.
Proof. reflexivity. Qed.

Lemma run_bind_ok {A B} (m : M S A) (f : A → M S B) s a s' :
  m s = (Ok a, s') → (m ≫= f) s = f a s'.
Proof. intros H. rewrite run_bind, H. reflexivity. Qed.

Lemma run_bind_throw {A B} (m : M S A) (f : A → M S B) s e s' :
  m s = (Throw e, s') → (m ≫= f) s = (Throw e, s').
Proof. intros H. rewrite run_bind, H. reflexivity. Qed.

Lemma run_bind_returns {A B} (m : M S A) (f : A → M S B) s b s' :
  (m ≫= f) s = (Ok b, s') →
  ∃ a s1, m s = (Ok a, s1) ∧ f a s1 = (Ok b, s').
Proof.
  rewrite run_bind. destruct (m s) as [[a|e] s1]; [eauto|discriminate].
Qed.

Lemma run_bind_throws {A B} (m : M S A) (f : A → M S B) s :
  returns (m s).1 = false → returns ((m ≫= f) s).1 = false.
Proof.
  rewrite run_bind. destruct (m s) as [[a|e] s1]; [discriminate|reflexivity].
Qed.

Lemma run_eval_bind {A B} (o : outcome A) (f : A → M S B) s :
  (eval o ≫= f) s =
  match o with
  | Ok a => f a s
  | Throw e => (Throw e, s)
  end.
Proof. rewrite run_bind. unfold eval. destruct o; reflexivity. Qed.

Lemma run_gets_bind {A B} (g : S → A) (f : A → M S B) s :
  (gets g ≫= f) s = f (g s) s.
Proof. reflexivity. Qed.

Lemma run_modify_bind {B} (g : S → S) (f : unit → M S B) s :
  (modify g ≫= f) s = f () (g s).
Proof. reflexivity. Qed.
End MonadFacts.

Lemma exn_unique (e : exn) : e = TypeError.
Proof. destruct e. reflexivity. Qed.

(** ** The Factory passes validation *)

Lemma append_nonempty (a b : string) (c : ascii) : a +:+ String c b ≠ "".
Proof. destruct a; discriminate. Qed.

Lemma toISOString_nonempty (d : Date) : toISOString d ≠ "".
Proof. unfold toISOString. apply append_nonempty. Qed.

Lemma truthy_timestamp (d : Date) : truthy (VStr (toISOString d)) = true.
Proof.
  simpl. destruct (String.eqb_spec (toISOString d) ""); [|reflexivity].
  exfalso. eapply toISOString_nonempty; eassumption.
Qed.

(** C9. Whatever the instant [now] at which the Factory is called (and
    whatever identities its objects get), [validateSetup] applied to the
    document of [createEmptySetup] returns [valid = true] with an empty
    [errors] list, and leaves the document as it was: no version backfill
    takes place and no warning is written, the [version] of the document
    being the current schema version ["2.0"]. *)
Theorem validateSetup_createEmptySetup (now : Date) (fresh : nat) :
  let setup := createEmptySetup now fresh in
  validateSetup setup
    = (Ok {| valid := true; errors := [] |},
       {| v_setup := setup; v_errors := []; v_console := [] |})
  ∧ field setup "version" = VStr "2.0".
Proof.
  pose proof (toISOString_nonempty now) as Hne.
  unfold createEmptySetup; cbv zeta.
  destruct (toISOString now) as [|c t]; [congruence|].
  split; vm_compute; reflexivity.
Qed.

(** ** Version compatibility *)

Lemma split_on_nonempty (sep : ascii) (s : string) : split_on sep s ≠ [].
Proof.
  destruct s as [|c rest]; simpl; [discriminate|].
  destruct (Ascii.eqb c sep); [discriminate|].
  destruct (split_on sep rest); discriminate.
Qed.

Lemma hd_split_on_dot (s : string) :
  hd "" (split_on "." s) = before_first_dot s.
Proof.
  induction s as [|c rest IH]; simpl; [reflexivity|].
  destruct (Ascii.eqb c "."); [reflexivity|].
  destruct (split_on "." rest) eqn:E; simpl in *.
  - exfalso. eapply split_on_nonempty; eassumption.
  - rewrite IH. reflexivity.
Qed.

Lemma major_of_split (s : string) :
  hd VUndef (VStr <$> split_on "." s) = VStr (before_first_dot s).
Proof.
  rewrite <- hd_split_on_dot.
  pose proof (split_on_nonempty "." s).
  destruct (split_on "." s); [congruence|reflexivity].
Qed.

Lemma String_eqb_bool_decide (a b : string) :
  String.eqb a b = bool_decide (a = b).
Proof.
  destruct (String.eqb_spec a b).
  - rewrite bool_decide_eq_true_2; auto.
  - rewrite bool_decide_eq_false_2; auto.
Qed.

Lemma isCompatibleVersion_falsy (setup : value) :
  nullish setup = false →
  truthy (field setup "version") = false →
  isCompatibleVersion setup = Ok true.
Proof.
  intros Hn Hv. unfold isCompatibleVersion, member. rewrite Hn. simpl.
  rewrite Hv. reflexivity.
Qed.

Lemma isCompatibleVersion_string (setup : value) (s : string) :
  nullish setup = false →
  field setup "version" = VStr s →
  s ≠ "" →
  isCompatibleVersion setup
    = Ok (bool_decide (before_first_dot s = before_first_dot SCHEMA_VERSION)).
Proof.
  intros Hn Hv Hs. unfold isCompatibleVersion, member. rewrite Hn. simpl.
  rewrite Hv. simpl.
  destruct (String.eqb_spec s ""); [congruence|]. simpl.
  rewrite major_of_split. simpl.
  rewrite String_eqb_bool_decide. reflexivity.
Qed.

(** C4 (as amended). For every document [setup]: [isCompatibleVersion]
    returns [true] when [setup] has no [version] field, and also when its
    [version] is the empty string; when [version] is a non-empty string
    [s], it returns [true] iff the text before the first ['.'] of [s]
    equals, as a string, the text before the first ['.'] of the current
    schema version ["2.0"]; in particular it returns [true] for ["2.0"]
    and ["2.1"], and [false] for ["3.0"] and ["1.0"]. *)
Theorem isCompatibleVersion_major (setup : value) :
  nullish setup = false →
  (own_props setup !! "version" = None → isCompatibleVersion setup = Ok true)
  ∧ (field setup "version" = VStr "" → isCompatibleVersion setup = Ok true)
  ∧ (∀ s : string, field setup "version" = VStr s → s ≠ "" →
       isCompatibleVersion setup
         = Ok (bool_decide
                 (before_first_dot s = before_first_dot SCHEMA_VERSION)))
  ∧ (field setup "version" = VStr "2.0" → isCompatibleVersion setup = Ok true)
  ∧ (field setup "version" = VStr "2.1" → isCompatibleVersion setup = Ok true)
  ∧ (field setup "version" = VStr "3.0" → isCompatibleVersion setup = Ok false)
  ∧ (field setup "version" = VStr "1.0" → isCompatibleVersion setup = Ok false).
Proof.
  intros Hn. repeat split.
  - intros H. apply isCompatibleVersion_falsy; [assumption|].
    unfold field. rewrite H. reflexivity.
  - intros H. apply isCompatibleVersion_falsy; [assumption|].
    rewrite H. reflexivity.
  - intros s H Hs. apply isCompatibleVersion_string; assumption.
  - intros H. rewrite (isCompatibleVersion_string _ _ Hn H); [reflexivity|discriminate].
  - intros H. rewrite (isCompatibleVersion_string _ _ Hn H); [reflexivity|discriminate].
  - intros H. rewrite (isCompatibleVersion_string _ _ Hn H); [reflexivity|discriminate].
  - intros H. rewrite (isCompatibleVersion_string _ _ Hn H); [reflexivity|discriminate].
Qed.

Lemma isCompatibleVersion_major_witness :
  let setup := object_literal 0 [("version", VStr "2.1")] in
  nullish setup = false
  ∧ field setup "version" = VStr "2.1"
  ∧ isCompatibleVersion setup = Ok true.
Proof.
  split; [reflexivity|]. split; [reflexivity|].
  apply (isCompatibleVersion_major
           (object_literal 0 [("version", VStr "2.1")])); reflexivity.
Defined.

(** A document whose [version] is the empty string has a version string
    whose text before the first ['.'] (the empty text) differs from that
    of ["2.0"], and is reported compatible all the same. *)
Lemma isCompatibleVersion_empty_version_string :
  let setup := object_literal 0 [("version", VStr "")] in
  field setup "version" = VStr ""
  ∧ isCompatibleVersion setup = Ok true
  ∧ isCompatibleVersion setup
      ≠ Ok (bool_decide (before_first_dot "" = before_first_dot SCHEMA_VERSION)).
Proof. repeat split. discriminate. Qed.

(** ** Frames and independence of statements *)

(** One rule per construct to show that a statement preserves a
    reflexive and transitive relation. *)
Section Preserves.
Context {S : Type} (P : S → S → Prop).
Hypothesis P_refl : ∀ s, P s s.
Hypothesis P_trans : ∀ s1 s2 s3, P s1 s2 → P s2 s3 → P s1 s3.

Lemma preserves_ret {A} (a : A) : preserves P (mret a).
Proof using P_refl. intros s. apply P_refl. Qed.

Lemma preserves_eval {A} (o : outcome A) : preserves P (eval o).
Proof using P_refl. intros s. apply P_refl. Qed.

Lemma preserves_gets {A} (g : S → A) : preserves P (gets g).
Proof using P_refl. intros s. apply P_refl. Qed.

Lemma preserves_modify (g : S → S) : (∀ s, P s (g s)) → preserves P (modify g).
Proof. intros H s. apply H. Qed.

Lemma preserves_bind {A B} (m : M S A) (f : A → M S B) :
  preserves P m → (∀ a, preserves P (f a)) → preserves P (m ≫= f).
Proof using P_trans.
  intros Hm Hf s. rewrite run_bind. specialize (Hm s).
  destruct (m s) as [[a|e] s']; simpl in *; [|assumption].
  eapply P_trans; [eassumption|apply Hf].
Qed.

Lemma preserves_when (b : bool) (m : M S unit) :
  preserves P m → preserves P (when b m).
Proof using P_refl. intros Hm. destruct b; [assumption|apply preserves_ret]. Qed.

Lemma preserves_for_of {A} (l : list A) (body : A → M S unit) :
  (∀ x, preserves P (body x)) → preserves P (for_of l body).
Proof using P_refl P_trans.
  intros Hb. induction l as [|x l IH]; simpl.
  - apply preserves_ret.
  - apply preserves_bind; [apply Hb|intros _; apply IH].
Qed.

Lemma preserves_forEach_from {A} (l : list A) (body : A → nat → M S unit) idx :
  (∀ x i, preserves P (body x i)) → preserves P (forEach_from idx l body).
Proof using P_refl P_trans.
  intros Hb. revert idx. induction l as [|x l IH]; intros idx; simpl.
  - apply preserves_ret.
  - apply preserves_bind; [apply Hb|intros _; apply IH].
Qed.
End Preserves.

(** One rule per construct to show that a statement respects a
    relation. *)
Section Respects.
Context {S : Type} (R : S → S → Prop).

Lemma respects_ret {A} (a : A) : respects R (mret a).
Proof. intros s s' H. split; [reflexivity|assumption]. Qed.

Lemma respects_eval {A} (o : outcome A) : respects R (eval o).
Proof. intros s s' H. split; [reflexivity|assumption]. Qed.

Lemma respects_bind {A B} (m : M S A) (f : A → M S B) :
  respects R m → (∀ a, respects R (f a)) → respects R (m ≫= f).
Proof.
  intros Hm Hf s s' H. rewrite !run_bind.
  destruct (Hm s s' H) as [Ho Hs].
  destruct (m s) as [[a|e] s1], (m s') as [[a'|e'] s1']; simpl in *;
    try discriminate.
  - injection Ho as ->. apply Hf. assumption.
  - injection Ho as ->. split; [reflexivity|assumption].
Qed.

Lemma respects_when (b : bool) (m : M S unit) :
  respects R m → respects R (when b m).
Proof. intros Hm. destruct b; [assumption|apply respects_ret]. Qed.

Lemma respects_for_of {A} (l : list A) (body : A → M S unit) :
  (∀ x, respects R (body x)) → respects R (for_of l body).
Proof.
  intros Hb. induction l as [|x l IH]; simpl.
  - apply respects_ret.
  - apply respects_bind; [apply Hb|intros _; apply IH].
Qed.

Lemma respects_forEach_from {A} (l : list A) (body : A → nat → M S unit) idx :
  (∀ x i, respects R (body x i)) → respects R (forEach_from idx l body).
Proof.
  intros Hb. revert idx. induction l as [|x l IH]; intros idx; simpl.
  - apply respects_ret.
  - apply respects_bind; [apply Hb|intros _; apply IH].
Qed.
End Respects.

(** Decompose a statement along its syntax, leaving the goals about the
    primitive statements it is made of. *)
Ltac statement_cases :=
  repeat (cbv zeta;
    lazymatch goal with
    | |- preserves _ (mret _) => apply preserves_ret
    | |- preserves _ (eval _) => apply preserves_eval
    | |- preserves _ (gets _) => apply preserves_gets
    | |- preserves _ (_ ≫= _) => apply preserves_bind
    | |- preserves _ (when _ _) => apply preserves_when
    | |- preserves _ (for_of _ _) => apply preserves_for_of
    | |- preserves _ (forEach _ _) => apply preserves_forEach_from
    | |- preserves _ (if ?b then _ else _) => destruct b
    | |- preserves _ (let (_, _) := ?p in _) => destruct p
    | |- respects _ (mret _) => apply respects_ret
    | |- respects _ (eval _) => apply respects_eval
    | |- respects _ (_ ≫= _) => apply respects_bind
    | |- respects _ (when _ _) => apply respects_when
    | |- respects _ (for_of _ _) => apply respects_for_of
    | |- respects _ (forEach _ _) => apply respects_forEach_from
    | |- respects _ (if ?b then _ else _) => destruct b
    | |- respects _ (let (_, _) := ?p in _) => destruct p
    | |- forall _, _ =>
        intros;
        lazymatch goal with
        | |- preserves _ _ => idtac
        | |- respects _ _ => idtac
        end
    end).

Section RespectsState.
Context {S : Type} (R : S → S → Prop).

Lemma respects_gets {A} (g : S → A) :
  (∀ s s', R s s' → g s = g s') → respects R (gets g).
Proof. intros Hg s s' H. simpl. rewrite (Hg s s' H). auto. Qed.

Lemma respects_modify (g : S → S) :
  (∀ s s', R s s' → R (g s) (g s')) → respects R (modify g).
Proof. intros Hg s s' H. simpl. auto. Qed.
End RespectsState.

(** ** What [validateSetup] writes *)

Module ValidateFacts.
Import Validate Checks.

Lemma validate_body_eq : body = (check_version;; checks).
Proof. reflexivity. Qed.

Lemma only_errors_pushed_refl s : only_errors_pushed s s.
Proof. repeat split. exists []. symmetry. apply app_nil_r. Qed.

Lemma only_errors_pushed_trans s1 s2 s3 :
  only_errors_pushed s1 s2 → only_errors_pushed s2 s3 →
  only_errors_pushed s1 s3.
Proof.
  intros (Ha & Hb & p & Hp) (Ha' & Hb' & p' & Hp').
  repeat split; [congruence|congruence|].
  exists (p ++ p'). rewrite Hp', Hp, app_assoc. reflexivity.
Qed.

Lemma setup_member_pure k s : setup_member k s = (member (v_setup s) k, s).
Proof. reflexivity. Qed.

Lemma preserves_setup_member P k :
  (∀ s, P s s) → preserves (S := vstore) P (setup_member k).
Proof. intros H s. apply H. Qed.

Lemma errors_push_only msg : preserves only_errors_pushed (errors_push msg).
Proof.
  apply preserves_modify. intros s. repeat split. simpl. eauto.
Qed.

Ltac only_errors :=
  statement_cases;
  first [ apply errors_push_only
        | apply preserves_setup_member; apply only_errors_pushed_refl
        | apply only_errors_pushed_refl
        | apply only_errors_pushed_trans ].

Lemma check_package_only kind pkg idx :
  preserves only_errors_pushed (check_package kind pkg idx).
Proof. unfold check_package. only_errors. Qed.

Lemma check_system_only : preserves only_errors_pushed check_system.
Proof. unfold check_system. only_errors. Qed.

Lemma check_homebrew_only : preserves only_errors_pushed check_homebrew.
Proof.
  unfold check_homebrew. statement_cases;
    try apply check_package_only; only_errors.
Qed.

Lemma check_applications_only : preserves only_errors_pushed check_applications.
Proof. unfold check_applications. only_errors. Qed.

Lemma check_globalPackages_only :
  preserves only_errors_pushed check_globalPackages.
Proof. unfold check_globalPackages. only_errors. Qed.

Lemma check_shellConfigs_only : preserves only_errors_pushed check_shellConfigs.
Proof. unfold check_shellConfigs. only_errors. Qed.

Lemma check_gitConfig_only : preserves only_errors_pushed check_gitConfig.
Proof. unfold check_gitConfig. only_errors. Qed.

Lemma check_githubRepos_only : preserves only_errors_pushed check_githubRepos.
Proof. unfold check_githubRepos. only_errors. Qed.

Lemma checks_only : preserves only_errors_pushed checks.
Proof.
  unfold checks. statement_cases;
    first [ apply check_system_only | apply check_homebrew_only
          | apply check_applications_only | apply check_globalPackages_only
          | apply check_shellConfigs_only | apply check_gitConfig_only
          | apply check_githubRepos_only
          | apply only_errors_pushed_refl
          | apply only_errors_pushed_trans ].
Qed.

(** *** The version check *)

Lemma check_version_run s :
  check_version s =
  if nullish (v_setup s) then (Throw TypeError, s)
  else if truthy (field (v_setup s) "version") then (Ok (), s)
  else (Ok (), {| v_setup := backfill (v_setup s); v_errors := v_errors s;
                  v_console := v_console s ++ [legacy_warning] |}).
Proof.
  unfold check_version. rewrite run_bind, setup_member_pure.
  unfold member. destruct (nullish (v_setup s)) eqn:Hn; [reflexivity|].
  destruct (truthy (field (v_setup s) "version")); [reflexivity|].
  unfold when, negb. rewrite run_bind. unfold setup_assign, backfill.
  destruct (v_setup s); try discriminate; reflexivity.
Qed.

Lemma validateSetup_run setup :
  validateSetup setup =
  if nullish setup then (Throw TypeError, start setup)
  else if truthy (field setup "version") then checks (start setup)
  else checks {| v_setup := backfill setup; v_errors := [];
                 v_console := [legacy_warning] |}.
Proof.
  unfold validateSetup. rewrite validate_body_eq, run_bind, check_version_run. simpl.
  destruct (nullish setup); [reflexivity|].
  destruct (truthy (field setup "version")); reflexivity.
Qed.

Lemma field_backfill setup k :
  k ≠ "version" → field (backfill setup) k = field setup k.
Proof.
  intros Hk. unfold backfill, field.
  destruct setup; simpl; try reflexivity;
    rewrite lookup_insert_ne; auto.
Qed.

Lemma nullish_backfill setup : nullish (backfill setup) = nullish setup.
Proof. destruct setup; reflexivity. Qed.

Lemma setup_after_validateSetup setup :
  v_setup (validateSetup setup).2
  = if nullish setup || truthy (field setup "version") then setup
    else backfill setup.
Proof.
  rewrite validateSetup_run.
  destruct (nullish setup); [reflexivity|].
  destruct (truthy (field setup "version")); simpl;
    match goal with |- context [checks ?s] =>
      destruct (checks_only s) as (H & _); rewrite H end; reflexivity.
Qed.

Lemma field_after_validateSetup setup k :
  k ≠ "version" →
  field (v_setup (validateSetup setup).2) k = field setup k.
Proof.
  intros Hk. rewrite setup_after_validateSetup.
  destruct (nullish setup || truthy (field setup "version")); [reflexivity|].
  apply field_backfill. assumption.
Qed.

Lemma nullish_after_validateSetup setup :
  nullish (v_setup (validateSetup setup).2) = nullish setup.
Proof.
  rewrite setup_after_validateSetup.
  destruct (nullish setup || truthy (field setup "version")); [reflexivity|].
  apply nullish_backfill.
Qed.

Lemma validateSetup_returns_not_nullish setup r :
  (validateSetup setup).1 = Ok r → nullish setup = false.
Proof.
  rewrite validateSetup_run. destruct (nullish setup); [discriminate|reflexivity].
Qed.

(** *** The checks do not read [version] *)

Lemma setup_member_alike pre k :
  k ≠ "version" → respects (alike pre) (setup_member k).
Proof.
  intros Hk s s' (Hn & Hf & He). rewrite !setup_member_pure. simpl.
  split; [|repeat split; assumption].
  unfold member. rewrite Hn, (Hf k Hk). reflexivity.
Qed.

Lemma errors_push_alike pre msg : respects (alike pre) (errors_push msg).
Proof.
  apply respects_modify. intros s s' (Hn & Hf & He).
  repeat split; simpl; [assumption|assumption|].
  rewrite He, app_assoc. reflexivity.
Qed.

Ltac alike_cases :=
  statement_cases;
  first [ apply errors_push_alike
        | apply setup_member_alike; discriminate ].

Lemma check_package_alike pre kind pkg idx :
  respects (alike pre) (check_package kind pkg idx).
Proof. unfold check_package. alike_cases. Qed.

Lemma check_system_alike pre : respects (alike pre) check_system.
Proof. unfold check_system. alike_cases. Qed.

Lemma check_homebrew_alike pre : respects (alike pre) check_homebrew.
Proof.
  unfold check_homebrew. statement_cases;
    try apply check_package_alike; alike_cases.
Qed.

Lemma check_applications_alike pre : respects (alike pre) check_applications.
Proof. unfold check_applications. alike_cases. Qed.

Lemma check_globalPackages_alike pre :
  respects (alike pre) check_globalPackages.
Proof. unfold check_globalPackages. alike_cases. Qed.

Lemma check_shellConfigs_alike pre : respects (alike pre) check_shellConfigs.
Proof. unfold check_shellConfigs. alike_cases. Qed.

Lemma check_gitConfig_alike pre : respects (alike pre) check_gitConfig.
Proof. unfold check_gitConfig. alike_cases. Qed.

Lemma check_githubRepos_alike pre : respects (alike pre) check_githubRepos.
Proof. unfold check_githubRepos. alike_cases. Qed.

Lemma checks_alike : respects (alike []) checks.
Proof.
  unfold checks. statement_cases;
    first [ apply check_system_alike | apply check_homebrew_alike
          | apply check_applications_alike | apply check_globalPackages_alike
          | apply check_shellConfigs_alike | apply check_gitConfig_alike
          | apply check_githubRepos_alike | idtac ].
  apply respects_gets. intros s s' (_ & _ & He). exact He.
Qed.

Lemma validateSetup_ignores_version setup setup' :
  nullish setup' = nullish setup →
  (∀ k, k ≠ "version" → field setup' k = field setup k) →
  (validateSetup setup').1 = (validateSetup setup).1.
Proof.
  intros Hn Hf. rewrite !validateSetup_run, Hn.
  destruct (nullish setup) eqn:E; [reflexivity|].
  destruct (truthy (field setup' "version")), (truthy (field setup "version"));
    apply checks_alike;
    (split; [simpl; rewrite ?nullish_backfill; congruence|]);
    (split; [|reflexivity]);
    simpl; intros k Hk; rewrite ?field_backfill by assumption; auto.
Qed.

End ValidateFacts.

(** C3 (amended). The version check is [!setup.version]: for every input
    document whose [version] is lacking or falsy (the empty string, [0],
    [false], [null]), [validateSetup] sets [version = "1.0"] on that
    document in place.  The backfill contributes no entry to [errors]:
    the outcome of the call (verdict and messages) is the same whatever
    [version] the document is given, so such a document is reported valid
    if it conforms otherwise.  Nothing else is written: a document with a
    truthy [version] is left as it is, every field other than [version]
    is as before in every case, and the document after the call is
    either the document before it or that document with [version]
    assigned ["1.0"]. *)
Theorem validateSetup_version_backfill (setup : value) :
  let after := v_setup (validateSetup setup).2 in
  (∀ id props, setup = VObj id props →
     truthy (field setup "version") = false →
     after = VObj id (<["version" := VStr "1.0"]> props))
  ∧ (∀ id props, setup = VObj id props → props !! "version" = None →
       after = VObj id (<["version" := VStr "1.0"]> props))
  ∧ (∀ id props x, setup = VObj id props →
       (validateSetup (VObj id (<["version" := x]> props))).1
       = (validateSetup setup).1)
  ∧ (truthy (field setup "version") = true → after = setup)
  ∧ (∀ k, k ≠ "version" → field after k = field setup k)
  ∧ (after = setup ∨ assign setup "version" (VStr "1.0") = Ok after).
Proof.
  cbv zeta. rewrite ValidateFacts.setup_after_validateSetup.
  split; [|split; [|split; [|split; [|split]]]].
  - intros id props -> Hv. simpl. rewrite Hv. reflexivity.
  - intros id props -> Hv. simpl. unfold field. simpl. rewrite Hv. reflexivity.
  - intros id props x ->. apply ValidateFacts.validateSetup_ignores_version.
    + reflexivity.
    + intros k Hk. unfold field. simpl. rewrite lookup_insert_ne; auto.
  - intros ->. rewrite orb_true_r. reflexivity.
  - intros k Hk.
    destruct (nullish setup || truthy (field setup "version")); [reflexivity|].
    apply ValidateFacts.field_backfill. assumption.
  - destruct (nullish setup || truthy (field setup "version")) eqn:E.
    + left. reflexivity.
    + right. apply orb_false_iff in E as [Hn _].
      unfold Checks.backfill. destruct setup; try discriminate; reflexivity.
Qed.

Lemma validateSetup_version_backfill_witness :
  let props : gmap string value :=
    list_to_map [
      ("system", object_literal 1 [
         ("hostname", VStr "studio"); ("macosVersion", VStr "14.5");
         ("captureDate", VStr "2024-12-01T10:00:00.000Z") ]);
      ("homebrew", object_literal 2 [
         ("taps", array_literal 3 [VStr "homebrew/core"]);
         ("casks", array_literal 4 []);
         ("formulae", array_literal 5 [
            object_literal 6 [("name", VStr "git"); ("version", VStr "2.45.0")] ]) ])
    ] in
  props !! "version" = None
  ∧ v_setup (validateSetup (VObj 0 props)).2
    = VObj 0 (<["version" := VStr "1.0"]> props)
  ∧ (validateSetup (VObj 0 props)).1 = Ok {| valid := true; errors := [] |}.
Proof.
  cbv zeta. split; [reflexivity|]. split; [|vm_compute; reflexivity].
  eapply (proj1 (proj2 (validateSetup_version_backfill _))); reflexivity.
Defined.

(** C3 (counterexample).  A document that has a [version] field, the
    empty string, and conforms: it does not lack [version], and yet
    [validateSetup] writes to it, leaving [version = "1.0"] in the
    caller's object.  The same holds of [version: 0]. *)
Lemma validateSetup_overwrites_falsy_version :
  let setup := setup_with_version (VStr "") in
  let after := v_setup (validateSetup setup).2 in
  own_props setup !! "version" = Some (VStr "")
  ∧ (validateSetup setup).1 = Ok {| valid := true; errors := [] |}
  ∧ after = setup_with_version (VStr "1.0")
  ∧ after ≠ setup
  ∧ v_setup (validateSetup (setup_with_version (VNum 0))).2
    = setup_with_version (VStr "1.0").
Proof.
  cbv zeta. split; [reflexivity|]. split; [vm_compute; reflexivity|].
  split; [vm_compute; reflexivity|]. split; [|vm_compute; reflexivity].
  intros H. apply (f_equal (fun doc => field doc "version")) in H.
  vm_compute in H. discriminate H.
Qed.

(** ** The verdict and the accumulation of messages *)

Section ReturnsOnly.
Context {S A : Type} (Q : A → Prop).

Lemma returns_only_ret a : Q a → returns_only (S := S) Q (mret a).
Proof. intros H s a' s' [= <- _]. assumption. Qed.

Lemma returns_only_bind {B} (m : M S B) (f : B → M S A) :
  (∀ b, returns_only Q (f b)) → returns_only Q (m ≫= f).
Proof.
  intros Hf s a s'. rewrite run_bind.
  destruct (m s) as [[b|e] s1]; [apply Hf|discriminate].
Qed.
End ReturnsOnly.

Module Accumulation.
Import Validate Checks ValidateFacts.

Lemma checks_sequence : checks = sequence structural_checks.
Proof. reflexivity. Qed.

Lemma structural_checks_well_behaved :
  Forall well_behaved structural_checks.
Proof.
  unfold structural_checks.
  repeat (apply List.Forall_cons; [split; [|intros pre]|]);
    first [ apply List.Forall_nil
          | apply check_system_only | apply check_homebrew_only
          | apply check_applications_only | apply check_globalPackages_only
          | apply check_shellConfigs_only | apply check_gitConfig_only
          | apply check_githubRepos_only
          | apply check_system_alike | apply check_homebrew_alike
          | apply check_applications_alike
          | apply check_globalPackages_alike
          | apply check_shellConfigs_alike
          | apply check_gitConfig_alike
          | apply check_githubRepos_alike ].
Qed.

Lemma alike_start s : alike (v_errors s) s (start (v_setup s)).
Proof. repeat split. simpl. symmetry. apply app_nil_r. Qed.

Lemma well_behaved_run c s :
  well_behaved c →
  (c s).1 = (c (start (v_setup s))).1
  ∧ v_setup (c s).2 = v_setup s
  ∧ v_errors (c s).2 = v_errors s ++ own_errors (v_setup s) c.
Proof.
  intros [Hp Hr].
  destruct (Hr (v_errors s) s (start (v_setup s)) (alike_start s))
    as (Ho & _ & _ & He).
  destruct (Hp s) as (Hs & _). auto.
Qed.

(** All the checks run, each pushing its own messages, unless one of
    them throws. *)
Lemma sequence_run cs s :
  Forall well_behaved cs →
  (sequence cs s).1 =
  if forallb (fun c => returns (c (start (v_setup s))).1) cs then
    let errors := v_errors s ++ concat (own_errors (v_setup s) <$> cs) in
    Ok {| valid := Nat.eqb (length errors) 0; errors := errors |}
  else Throw TypeError.
Proof.
  intros H. revert s. induction H as [|c cs Hc _ IH]; intros s.
  - simpl. rewrite app_nil_r. reflexivity.
  - simpl. rewrite run_bind.
    destruct (well_behaved_run c s Hc) as (Ho & Hs & He).
    destruct (c s) as [[[]|e] s1]; simpl in *; rewrite <- Ho; simpl.
    + rewrite IH, Hs, He, app_assoc. reflexivity.
    + rewrite (exn_unique e). reflexivity.
Qed.

End Accumulation.

(** The verdict is [valid] exactly when no message was pushed. *)
Lemma validateSetup_valid_iff (setup : value) (r : validation) :
  (validateSetup setup).1 = Ok r → (valid r = true ↔ errors r = []).
Proof.
  unfold validateSetup.
  destruct (Validate.body _) as [o s'] eqn:E. simpl. intros ->.
  revert E. generalize (Checks.start setup). intros s E.
  assert (returns_only (S := vstore)
            (fun r => valid r = true ↔ errors r = []) Validate.body) as H.
  { unfold Validate.body. repeat (apply returns_only_bind; intros ?).
    apply returns_only_ret. simpl.
    rewrite Nat.eqb_eq. apply length_zero_iff_nil. }
  eapply H. exact E.
Qed.

(** Checking never stops at a failed rule: when the call returns, its
    messages are those of the seven structural checks, each run on its
    own, one after the other; and the call returns unless the document is
    [null] or [undefined] or one of the checks throws on its own. *)
Lemma validateSetup_accumulates (setup : value) :
  nullish setup = false →
  let after := v_setup (validateSetup setup).2 in
  (validateSetup setup).1 =
  if forallb (fun c => returns (c (Checks.start after)).1)
       Validate.structural_checks
  then
    let errors :=
      concat (Checks.own_errors after <$> Validate.structural_checks) in
    Ok {| valid := Nat.eqb (length errors) 0; errors := errors |}
  else Throw TypeError.
Proof.
  intros Hn. cbv zeta. rewrite ValidateFacts.setup_after_validateSetup.
  rewrite ValidateFacts.validateSetup_run, Hn. simpl.
  rewrite Accumulation.checks_sequence.
  destruct (truthy (field setup "version"));
    rewrite Accumulation.sequence_run
      by apply Accumulation.structural_checks_well_behaved;
    reflexivity.
Qed.

(** ** The entries of [homebrew.casks] and [homebrew.formulae] *)

Lemma string_length_app (a b : string) :
  String.length (a +:+ b) = String.length a + String.length b.
Proof.
  induction a as [|c a IH]; simpl; [reflexivity|]. rewrite IH. reflexivity.
Qed.

Lemma string_app_inj_r (a b t : string) : a +:+ t = b +:+ t → a = b.
Proof.
  revert b. induction a as [|c a IH]; intros [|c' b] H.
  - reflexivity.
  - apply (f_equal String.length) in H.
    rewrite !string_length_app in H. simpl in H. lia.
  - apply (f_equal String.length) in H.
    rewrite !string_length_app in H. simpl in H. lia.
  - simpl in H. injection H as -> H. f_equal. apply IH. assumption.
Qed.

Module PackageEntries.
Import Validate Checks ValidateFacts.

Lemma package_message_inj kind i j :
  package_message kind i = package_message kind j → i = j.
Proof.
  unfold package_message. intros H.
  apply (inj (String.app "Invalid ")) in H.
  apply (inj (String.app kind)) in H.
  apply (inj (String.app " at index ")) in H.
  apply string_app_inj_r in H.
  apply (inj pretty) in H. assumption.
Qed.

Lemma cask_message_not_formula i j :
  package_message "cask" i ≠ package_message "formula" j.
Proof. unfold package_message. simpl. discriminate. Qed.

Lemma push_all_nil s : push_all [] s = s.
Proof. destruct s. unfold push_all. simpl. rewrite app_nil_r. reflexivity. Qed.

Lemma push_all_app a b s : push_all b (push_all a s) = push_all (a ++ b) s.
Proof. unfold push_all. simpl. rewrite app_assoc. reflexivity. Qed.

Lemma check_package_run kind pkg idx s :
  check_package kind pkg idx s =
  if nullish pkg then (Throw TypeError, s)
  else (Ok (), push_all (if truthy (field pkg "name") then []
                         else [package_message kind idx]) s).
Proof.
  unfold check_package. rewrite run_eval_bind. unfold member.
  destruct (nullish pkg); [reflexivity|].
  destruct (truthy (field pkg "name")); simpl.
  - rewrite push_all_nil. reflexivity.
  - reflexivity.
Qed.

Lemma forEach_packages kind items idx s :
  forallb (fun pkg => negb (nullish pkg)) items = true →
  forEach_from idx items (check_package kind) s
  = (Ok (), push_all (package_errors kind idx items) s).
Proof.
  revert idx s. induction items as [|pkg rest IH]; intros idx s H; simpl.
  - rewrite push_all_nil. reflexivity.
  - simpl in H. apply andb_true_iff in H as [Hp Hr].
    rewrite run_bind, check_package_run.
    destruct (nullish pkg); [discriminate|].
    rewrite IH by assumption. rewrite push_all_app. reflexivity.
Qed.

Lemma forEach_packages_throws kind items idx s :
  forallb (fun pkg => negb (nullish pkg)) items = false →
  (forEach_from idx items (check_package kind) s).1 = Throw TypeError.
Proof.
  revert idx s. induction items as [|pkg rest IH]; intros idx s H; simpl.
  - discriminate.
  - simpl in H. rewrite run_bind, check_package_run.
    destruct (nullish pkg); [reflexivity|]. simpl in H.
    apply IH. assumption.
Qed.

Lemma in_package_errors kind items idx i :
  In (package_message kind i) (package_errors kind idx items)
  ↔ ∃ entry, idx ≤ i ∧ items !! (i - idx) = Some entry
             ∧ truthy (field entry "name") = false.
Proof.
  revert idx. induction items as [|pkg rest IH]; intros idx; simpl.
  - split; [tauto|]. intros (entry & _ & H & _). discriminate.
  - rewrite in_app_iff, IH. split.
    + intros [H|(entry & Hle & Hl & Ht)].
      * destruct (truthy (field pkg "name")) eqn:E; [destruct H|].
        destruct H as [H|[]]. apply package_message_inj in H. subst i.
        exists pkg. rewrite Nat.sub_diag. auto.
      * exists entry. split; [lia|]. split; [|assumption].
        replace (i - idx) with (S (i - S idx)) by lia. assumption.
    + intros (entry & Hle & Hl & Ht).
      destruct (decide (i = idx)) as [->|Hne].
      * left. rewrite Nat.sub_diag in Hl. injection Hl as ->.
        rewrite Ht. left. reflexivity.
      * right. exists entry. split; [lia|]. split; [|assumption].
        replace (i - idx) with (S (i - S idx)) in Hl by lia. assumption.
Qed.

Lemma not_in_other_package_errors items idx i :
  ¬ In (package_message "cask" i) (package_errors "formula" idx items)
  ∧ ¬ In (package_message "formula" i) (package_errors "cask" idx items).
Proof.
  revert idx. induction items as [|pkg rest IH]; intros idx; simpl.
  - tauto.
  - rewrite !in_app_iff. destruct (IH (S idx)) as [Ha Hb].
    destruct (truthy (field pkg "name")); simpl; split;
      intros [H|H]; try tauto; destruct H as [H|[]].
    + symmetry in H. revert H. apply cask_message_not_formula.
    + revert H. apply cask_message_not_formula.
Qed.

End PackageEntries.

Module FieldMessages.
Import Validate Checks ValidateFacts PackageEntries.

Lemma package_message_not_field kind i :
  kind = "cask" ∨ kind = "formula" →
  is_field_message (package_message kind i) = false.
Proof. intros [->| ->]; reflexivity. Qed.

Lemma field_messages_pushed_refl s : field_messages_pushed s s.
Proof. intros msg H. left. assumption. Qed.

Lemma field_messages_pushed_trans s1 s2 s3 :
  field_messages_pushed s1 s2 → field_messages_pushed s2 s3 →
  field_messages_pushed s1 s3.
Proof.
  intros H12 H23 msg H. destruct (H23 msg H) as [H2|H2]; [|right; assumption].
  apply H12. assumption.
Qed.

Lemma errors_push_field msg :
  is_field_message msg = true →
  preserves field_messages_pushed (errors_push msg).
Proof.
  intros Hm. apply preserves_modify. intros s e. simpl.
  rewrite in_app_iff. intros [H|[<-|[]]]; [left|right]; assumption.
Qed.

Ltac field_messages :=
  statement_cases;
  first [ apply errors_push_field; reflexivity
        | apply preserves_setup_member; apply field_messages_pushed_refl
        | apply field_messages_pushed_refl
        | apply field_messages_pushed_trans ].

Lemma check_system_field : preserves field_messages_pushed check_system.
Proof. unfold check_system. field_messages. Qed.

Lemma check_applications_field :
  preserves field_messages_pushed check_applications.
Proof. unfold check_applications. field_messages. Qed.

Lemma check_globalPackages_field :
  preserves field_messages_pushed check_globalPackages.
Proof. unfold check_globalPackages. field_messages. Qed.

Lemma check_shellConfigs_field :
  preserves field_messages_pushed check_shellConfigs.
Proof. unfold check_shellConfigs. field_messages. Qed.

Lemma check_gitConfig_field : preserves field_messages_pushed check_gitConfig.
Proof. unfold check_gitConfig. field_messages. Qed.

Lemma check_githubRepos_field :
  preserves field_messages_pushed check_githubRepos.
Proof. unfold check_githubRepos. field_messages. Qed.

Lemma own_errors_field c setup msg :
  preserves field_messages_pushed c →
  In msg (Checks.own_errors setup c) → is_field_message msg = true.
Proof.
  intros Hc H. destruct (Hc (start setup) msg H) as [[]|]. assumption.
Qed.

(** *** The homebrew check *)

Lemma truthy_not_nullish v : truthy v = true → nullish v = false.
Proof. destruct v; simpl; congruence. Qed.

Lemma array_errors_field homebrew msg :
  In msg (array_errors homebrew) → is_field_message msg = true.
Proof.
  unfold array_errors. rewrite !in_app_iff.
  destruct (isArray _), (isArray _), (isArray _); simpl;
    intuition (subst; reflexivity).
Qed.

Lemma packages_loop_run kind v s :
  forallb not_nullish (items_of v) = true →
  packages_loop kind v s
  = (Ok (), push_all (package_errors kind 0 (items_of v)) s).
Proof.
  intros H. unfold packages_loop.
  destruct v; simpl; rewrite ?push_all_nil; try reflexivity.
  rewrite run_eval_bind. apply forEach_packages. assumption.
Qed.

Lemma packages_loop_throws kind v s :
  forallb not_nullish (items_of v) = false →
  (packages_loop kind v s).1 = Throw TypeError.
Proof.
  intros H. unfold packages_loop.
  destruct v; simpl in *; try discriminate.
  rewrite run_eval_bind. apply forEach_packages_throws. assumption.
Qed.

Lemma run_when_push {B} (b : bool) msg (k : unit → M vstore B) s :
  (when b (errors_push msg) ≫= k) s
  = k () (push_all (if b then [msg] else []) s).
Proof.
  destruct b; [reflexivity|].
  rewrite push_all_nil. reflexivity.
Qed.

Lemma check_homebrew_run s :
  nullish (v_setup s) = false →
  truthy (field (v_setup s) "homebrew") = true →
  let homebrew := field (v_setup s) "homebrew" in
  check_homebrew s
  = (packages_loop "cask" (field homebrew "casks");;
     packages_loop "formula" (field homebrew "formulae"))
      (push_all (array_errors homebrew) s).
Proof.
  intros Hn Ht. cbv zeta. unfold check_homebrew.
  rewrite run_bind, setup_member_pure. unfold member at 1. rewrite Hn, Ht.
  cbn [negb]. unfold member. rewrite (truthy_not_nullish _ Ht).
  rewrite run_eval_bind, run_when_push.
  rewrite run_eval_bind, run_when_push.
  rewrite run_eval_bind, run_when_push.
  rewrite !push_all_app. unfold array_errors, packages_loop.
  destruct (isArray (field (field (v_setup s) "homebrew") "taps")),
    (isArray (field (field (v_setup s) "homebrew") "casks")),
    (isArray (field (field (v_setup s) "homebrew") "formulae"));
    reflexivity.
Qed.

(** When the homebrew check completes, no entry of the two package
    lists is [null], and the messages pushed are those of the array
    tests followed by those of the entries. *)
Lemma check_homebrew_returns s :
  nullish (v_setup s) = false →
  truthy (field (v_setup s) "homebrew") = true →
  returns (check_homebrew s).1 = true →
  let homebrew := field (v_setup s) "homebrew" in
  v_errors (check_homebrew s).2
  = v_errors s ++ array_errors homebrew
    ++ package_errors "cask" 0 (items_of (field homebrew "casks"))
    ++ package_errors "formula" 0 (items_of (field homebrew "formulae")).
Proof.
  intros Hn Ht. cbv zeta. rewrite check_homebrew_run by assumption.
  rewrite run_bind.
  destruct (forallb not_nullish
              (items_of (field (field (v_setup s) "homebrew") "casks"))) eqn:Ec.
  - rewrite packages_loop_run by assumption.
    destruct (forallb not_nullish
                (items_of (field (field (v_setup s) "homebrew") "formulae")))
      eqn:Ef.
    + rewrite packages_loop_run by assumption. intros _.
      simpl. rewrite <- !app_assoc. reflexivity.
    + match goal with |- context [packages_loop ?k ?v ?s0] =>
        pose proof (packages_loop_throws k v s0 Ef) as Hthrow;
        destruct (packages_loop k v s0) as [o s1] end.
      simpl in Hthrow. subst o. discriminate.
  - match goal with |- context [packages_loop ?k ?v ?s0] =>
      pose proof (packages_loop_throws k v s0 Ec) as Hthrow;
      destruct (packages_loop k v s0) as [o s1] end.
    simpl in Hthrow. subst o. discriminate.
Qed.

End FieldMessages.

(** The messages of a call that returns, one list per check. *)
Lemma validateSetup_errors (setup : value) (r : validation) :
  (validateSetup setup).1 = Ok r →
  let after := v_setup (validateSetup setup).2 in
  forallb (fun c => returns (c (Checks.start after)).1)
    Validate.structural_checks = true
  ∧ errors r
    = concat (Checks.own_errors after <$> Validate.structural_checks).
Proof.
  intros Hr. cbv zeta.
  pose proof (validateSetup_accumulates setup
                (ValidateFacts.validateSetup_returns_not_nullish _ _ Hr)) as Hacc.
  cbv zeta in Hacc. rewrite Hr in Hacc.
  destruct (forallb _ _); [|discriminate].
  injection Hacc as ->. split; reflexivity.
Qed.

(** C2 (as amended). In every document on which [validateSetup] returns
    and whose [homebrew] section is present, an entry of [homebrew.casks]
    (of [homebrew.formulae]) at index [i] gets the message
    [Invalid cask at index i: missing 'name' field] (resp. [formula])
    exactly when it exposes no truthy [name]; no message is appended for
    an entry that carries a non-empty [name], and an entry that is a bare
    name string always gets the message, so that the document is reported
    invalid. *)
Theorem validateSetup_package_entry
    (setup : value) (r : validation) (c : collection)
    (id : nat) (items : list value) (props : gmap string value)
    (i : nat) (entry : value) :
  (validateSetup setup).1 = Ok r →
  truthy (field setup "homebrew") = true →
  field (field setup "homebrew") (collection_field c) = VArr id items props →
  items !! i = Some entry →
  (In (Checks.package_message (collection_kind c) i) (errors r)
     ↔ truthy (field entry "name") = false)
  ∧ (∀ s, entry = VStr s →
       In (Checks.package_message (collection_kind c) i) (errors r)
       ∧ valid r = false).
Proof.
  intros Hr Ht Harr Hi.
  pose proof (ValidateFacts.validateSetup_returns_not_nullish _ _ Hr) as Hn.
  pose proof (validateSetup_valid_iff _ _ Hr) as Hvalid.
  destruct (validateSetup_errors _ _ Hr) as [Hret Herr].
  set (after := v_setup (validateSetup setup).2) in *.
  assert (field after "homebrew" = field setup "homebrew") as Hhb
    by (apply ValidateFacts.field_after_validateSetup; discriminate).
  assert (nullish after = false) as Hna
    by (unfold after; rewrite ValidateFacts.nullish_after_validateSetup;
        assumption).
  unfold Validate.structural_checks in Hret, Herr.
  cbn [forallb] in Hret. cbn [fmap list_fmap concat] in Herr.
  apply andb_true_iff in Hret as [_ Hret].
  apply andb_true_iff in Hret as [Hret _].
  pose proof (FieldMessages.check_homebrew_returns
                (Checks.start after)) as Hown.
  cbn [v_setup Checks.start v_errors] in Hown.
  rewrite Hhb in Hown. specialize (Hown Hna Ht Hret). cbn [app] in Hown.
  assert (In (Checks.package_message (collection_kind c) i) (errors r)
          ↔ truthy (field entry "name") = false) as Hiff.
  { rewrite Herr. unfold Checks.own_errors at 2. rewrite Hown.
    rewrite !in_app_iff.
    assert (Checks.is_field_message
              (Checks.package_message (collection_kind c) i) = false)
      as Hnf by (apply FieldMessages.package_message_not_field;
                 destruct c; auto).
    assert (∀ chk, preserves Checks.field_messages_pushed chk →
              ¬ In (Checks.package_message (collection_kind c) i)
                  (Checks.own_errors after chk)) as Hother.
    { intros chk Hchk Hin.
      apply (FieldMessages.own_errors_field _ _ _ Hchk) in Hin. congruence. }
    pose proof (Hother _ FieldMessages.check_system_field).
    pose proof (Hother _ FieldMessages.check_applications_field).
    pose proof (Hother _ FieldMessages.check_globalPackages_field).
    pose proof (Hother _ FieldMessages.check_shellConfigs_field).
    pose proof (Hother _ FieldMessages.check_gitConfig_field).
    pose proof (Hother _ FieldMessages.check_githubRepos_field).
    assert (¬ In (Checks.package_message (collection_kind c) i)
              (Checks.array_errors (field setup "homebrew"))) as Harrs.
    { intros Hin. apply FieldMessages.array_errors_field in Hin. congruence. }
    destruct (PackageEntries.not_in_other_package_errors
                (Checks.items_of (field (field setup "homebrew") "formulae"))
                0 i) as [Hcf _].
    destruct (PackageEntries.not_in_other_package_errors
                (Checks.items_of (field (field setup "homebrew") "casks"))
                0 i) as [_ Hfc].
    assert (In (Checks.package_message (collection_kind c) i)
              (Checks.package_errors (collection_kind c) 0 items)
            ↔ truthy (field entry "name") = false) as Hsame.
    { rewrite PackageEntries.in_package_errors. rewrite Nat.sub_0_r. split.
      - intros (entry' & _ & Hl & Hf). congruence.
      - intros Hf. exists entry. split; [lia|]. split; assumption. }
    destruct c; cbn [collection_kind collection_field] in *;
      rewrite Harr in *; cbn [Checks.items_of] in *;
      cbn [In]; tauto. }
  split; [exact Hiff|].
  intros s ->.
  assert (In (Checks.package_message (collection_kind c) i) (errors r))
    as Hin by (apply Hiff; reflexivity).
  split; [assumption|].
  destruct (valid r); [|reflexivity].
  destruct Hvalid as [Hv _]. rewrite (Hv eq_refl) in Hin. destruct Hin.
Qed.

Lemma validateSetup_package_entry_witness :
  let setup := setup_with_casks [VStr "firefox"] in
  let r := {| valid := false;
              errors := ["Invalid cask at index 0: missing 'name' field"] |} in
  (validateSetup setup).1 = Ok r
  ∧ truthy (field setup "homebrew") = true
  ∧ field (field setup "homebrew") (collection_field Casks)
    = VArr 4 [VStr "firefox"] ∅
  ∧ [VStr "firefox"] !! 0 = Some (VStr "firefox")
  ∧ (In (Checks.package_message (collection_kind Casks) 0) (errors r)
       ↔ truthy (field (VStr "firefox") "name") = false).
Proof.
  cbv zeta.
  split; [vm_compute; reflexivity|]. split; [reflexivity|].
  split; [reflexivity|]. split; [reflexivity|].
  apply (validateSetup_package_entry (setup_with_casks [VStr "firefox"])
           {| valid := false;
              errors := ["Invalid cask at index 0: missing 'name' field"] |}
           Casks 4 [VStr "firefox"] ∅ 0 (VStr "firefox"));
    [vm_compute; reflexivity|reflexivity|reflexivity|reflexivity].
Defined.

(** A cask given as a bare name string makes an otherwise conforming
    document invalid: the same document is valid with the cask given as
    an object with a [name], and with no cask at all. *)
Lemma validateSetup_rejects_bare_string_cask :
  (validateSetup (setup_with_casks [VStr "firefox"])).1
    = Ok {| valid := false;
            errors := ["Invalid cask at index 0: missing 'name' field"] |}
  ∧ (validateSetup
       (setup_with_casks [object_literal 7 [("name", VStr "firefox")]])).1
    = Ok {| valid := true; errors := [] |}
  ∧ (validateSetup (setup_with_casks [])).1
    = Ok {| valid := true; errors := [] |}.
Proof. repeat split; vm_compute; reflexivity. Qed.

(** ** [validateSetup] can throw *)

(** A [null] among the entries of a package list is read for its [name]
    like any other entry, which throws. *)
Lemma validateSetup_throws_on_nullish_entry
    (setup : value) (c : collection)
    (id : nat) (items : list value) (props : gmap string value) :
  nullish setup = false →
  truthy (field setup "homebrew") = true →
  field (field setup "homebrew") (collection_field c) = VArr id items props →
  forallb Checks.not_nullish items = false →
  (validateSetup setup).1 = Throw TypeError.
Proof.
  intros Hn Ht Harr Hnull.
  destruct (validateSetup setup).1 as [r|e] eqn:Hr;
    [|rewrite (exn_unique e); reflexivity].
  exfalso.
  destruct (validateSetup_errors _ _ Hr) as [Hret _].
  set (after := v_setup (validateSetup setup).2) in *.
  assert (field after "homebrew" = field setup "homebrew") as Hhb
    by (apply ValidateFacts.field_after_validateSetup; discriminate).
  assert (nullish after = false) as Hna
    by (unfold after; rewrite ValidateFacts.nullish_after_validateSetup;
        assumption).
  unfold Validate.structural_checks in Hret. cbn [forallb] in Hret.
  apply andb_true_iff in Hret as [_ Hret].
  apply andb_true_iff in Hret as [Hret _].
  rewrite FieldMessages.check_homebrew_run in Hret
    by (cbn [v_setup Checks.start]; rewrite ?Hhb; assumption).
  cbn [v_setup Checks.start] in Hret. rewrite Hhb in Hret.
  rewrite run_bind in Hret.
  destruct (forallb Checks.not_nullish
              (Checks.items_of (field (field setup "homebrew") "casks")))
    eqn:Ec.
  - rewrite FieldMessages.packages_loop_run in Hret by assumption.
    destruct c; cbn [collection_field] in Harr.
    + rewrite Harr in Ec. cbn [Checks.items_of] in Ec. congruence.
    + match type of Hret with context [Checks.packages_loop ?k ?v ?s0] =>
        pose proof (FieldMessages.packages_loop_throws k v s0) as Hthrow end.
      rewrite Harr in Hthrow. specialize (Hthrow Hnull).
      rewrite Harr, Hthrow in Hret. discriminate.
  - match type of Hret with context [Checks.packages_loop ?k ?v ?s0] =>
      pose proof (FieldMessages.packages_loop_throws k v s0 Ec) as Hthrow;
      destruct (Checks.packages_loop k v s0) as [o s1] end.
    simpl in Hthrow. subst o. discriminate.
Qed.

(** C5 (failing input). On the document
    [{"version": "2.0", "system": {...}, "homebrew": {"taps": [...],
    "casks": [null], "formulae": [...]}}], which [JSON.parse] yields for a
    well-formed file, [validateSetup] throws a [TypeError] and returns no
    result: no message is accumulated for the offending entry. *)
Theorem validateSetup_throws_on_null_cask :
  (validateSetup (setup_with_casks [VNull])).1 = Throw TypeError.
Proof. vm_compute. reflexivity. Qed.

(** * The Diff Engine *)

(** ** What [diffSetups] writes *)

Module DiffFrames.
Import Diff Passes.

Lemma inputs_kept_refl s : inputs_kept s s.
Proof. split; reflexivity. Qed.

Lemma inputs_kept_trans s1 s2 s3 :
  inputs_kept s1 s2 → inputs_kept s2 s3 → inputs_kept s1 s3.
Proof. intros [? ?] [? ?]. split; congruence. Qed.

Lemma only_homebrew_written_refl s : only_homebrew_written s s.
Proof. repeat split; reflexivity. Qed.

Lemma only_homebrew_written_trans s1 s2 s3 :
  only_homebrew_written s1 s2 → only_homebrew_written s2 s3 →
  only_homebrew_written s1 s3.
Proof.
  intros (Hi & ? & ?) (Hi' & ? & ?).
  split; [eapply inputs_kept_trans; eassumption|]. split; congruence.
Qed.

Lemma homebrew_added_push_frame category arg :
  preserves only_homebrew_written (homebrew_added_push category arg).
Proof.
  intros s. unfold homebrew_added_push.
  destruct (homebrew (diff s) !! category); [destruct arg|];
    apply only_homebrew_written_refl || (repeat split; reflexivity).
Qed.

Lemma homebrew_removed_push_frame category arg :
  preserves only_homebrew_written (homebrew_removed_push category arg).
Proof.
  intros s. unfold homebrew_removed_push.
  destruct (homebrew (diff s) !! category); [destruct arg|];
    apply only_homebrew_written_refl || (repeat split; reflexivity).
Qed.

Lemma empty_array_frame : preserves only_homebrew_written empty_array.
Proof. intros s. repeat split; reflexivity. Qed.

Ltac homebrew_frame :=
  statement_cases;
  first [ apply homebrew_added_push_frame
        | apply homebrew_removed_push_frame
        | apply empty_array_frame
        | apply only_homebrew_written_refl
        | apply only_homebrew_written_trans ].

Lemma comparePackages_frame oldPkgs newPkgs type category :
  preserves only_homebrew_written
    (comparePackages oldPkgs newPkgs type category).
Proof. unfold comparePackages. homebrew_frame. Qed.

Lemma compare_homebrew_frame category :
  preserves only_homebrew_written (compare_homebrew category).
Proof.
  unfold compare_homebrew. statement_cases;
    try apply comparePackages_frame; homebrew_frame.
Qed.

Lemma compare_globalPackages_frame :
  preserves only_homebrew_written compare_globalPackages.
Proof.
  unfold compare_globalPackages, or_empty_array. statement_cases;
    try apply comparePackages_frame; homebrew_frame.
Qed.

Lemma diff_body_eq :
  body = (declare_diff;; compare_applications;; packages_and_result).
Proof. reflexivity. Qed.

Lemma packages_and_result_frame :
  preserves only_homebrew_written packages_and_result.
Proof.
  unfold packages_and_result. statement_cases;
    first [ apply compare_homebrew_frame | apply compare_globalPackages_frame
          | apply only_homebrew_written_refl
          | apply only_homebrew_written_trans ].
Qed.

Lemma packages_and_result_returns s r s' :
  packages_and_result s = (Ok r, s') → r = diff s'.
Proof.
  unfold packages_and_result. intros H.
  repeat (apply run_bind_returns in H as (? & ? & _ & H)).
  injection H as <- <-. reflexivity.
Qed.

(** *** The applications pass writes [diff.applications] only *)

Lemma only_applications_written_refl s : only_applications_written s s.
Proof. repeat split; reflexivity. Qed.

Lemma only_applications_written_trans s1 s2 s3 :
  only_applications_written s1 s2 → only_applications_written s2 s3 →
  only_applications_written s1 s3.
Proof.
  intros (Hi & ? & ?) (Hi' & ? & ?).
  split; [eapply inputs_kept_trans; eassumption|]. split; congruence.
Qed.

Lemma compare_applications_frame :
  preserves only_applications_written compare_applications.
Proof.
  unfold compare_applications, applications_added_push,
    applications_updated_push, applications_removed_push.
  statement_cases;
    first [ apply preserves_modify; intros ?; repeat split; reflexivity
          | apply only_applications_written_refl
          | apply only_applications_written_trans ].
Qed.

(** *** No statement writes the arguments *)

Lemma body_keeps_inputs : preserves inputs_kept body.
Proof.
  rewrite diff_body_eq. statement_cases.
  - apply inputs_kept_trans.
  - apply preserves_modify. intros s. split; reflexivity.
  - apply inputs_kept_trans.
  - intros s. apply compare_applications_frame.
  - intros s. apply packages_and_result_frame.
Qed.

End DiffFrames.

(** C8. For every pair of input documents, [diffSetups] leaves both
    documents as they were, whether it returns or throws: the store the
    call leaves holds the very values it was given for its two arguments.
    The report is built from the literal the body starts with and does
    not depend on what [diff] held before. *)
Theorem diffSetups_keeps_inputs (old new : value) (next : nat) :
  oldSetup (diffSetups old new next).2 = old
  ∧ newSetup (diffSetups old new next).2 = new
  ∧ (∀ junk : report,
       (Diff.body (Diff.entry old new junk next)).1
       = (diffSetups old new next).1).
Proof.
  unfold diffSetups.
  destruct (DiffFrames.body_keeps_inputs
              (Diff.entry old new Diff.initial_diff next)) as [Ho Hn].
  split; [exact Ho|]. split; [exact Hn|].
  intros junk. reflexivity.
Qed.

(** ** Faults of [diffSetups] *)

Section ThrowsLater.
Context {S : Type} (P : S → S → Prop) (Q : S → Prop).
Hypothesis Q_kept : ∀ s s', Q s → P s s' → Q s'.

Lemma throws_on_bind_l {A B} (m : M S A) (f : A → M S B) :
  throws_on Q m → throws_on Q (m ≫= f).
Proof.
  intros Hm s Hs. rewrite run_bind. specialize (Hm s Hs).
  destruct (m s) as [[a|e] s']; [discriminate|reflexivity].
Qed.

Lemma throws_on_bind_r {A B} (m : M S A) (f : A → M S B) :
  preserves P m → (∀ a, throws_on Q (f a)) → throws_on Q (m ≫= f).
Proof using Q_kept.
  intros Hm Hf s Hs. rewrite run_bind. specialize (Hm s).
  destruct (m s) as [[a|e] s']; [|reflexivity].
  apply Hf. eapply Q_kept; eassumption.
Qed.
End ThrowsLater.

Lemma returns_false_throws {A} (o : outcome A) :
  returns o = false → o = Throw TypeError.
Proof. destruct o as [a|e]; [discriminate|]. rewrite (exn_unique e). reflexivity. Qed.

Lemma field_omitted doc k : omits doc k → field doc k = VUndef.
Proof. unfold omits, field. intros ->. reflexivity. Qed.

Module DiffFaults.
Import Diff Passes DiffFrames.

Lemma member_undefined_throws {A} (v : value) (k : string)
    (f : value → M dstore A) s :
  field v k = VUndef →
  (∀ s', returns (f VUndef s').1 = false) →
  returns ((eval (member v k) ≫= f) s).1 = false.
Proof.
  intros Hf Hthrow. rewrite run_eval_bind. unfold member.
  destruct (nullish v); [reflexivity|]. rewrite Hf. apply Hthrow.
Qed.

Lemma compare_applications_throws :
  throws_on lacks_applications compare_applications.
Proof.
  intros s [H|H]; unfold compare_applications; rewrite run_gets_bind.
  - apply member_undefined_throws; [assumption|]. intros s'. reflexivity.
  - rewrite run_eval_bind.
    destruct (member (oldSetup s) "applications"); [|reflexivity].
    rewrite run_eval_bind. destruct (array_map name_entry a); [|reflexivity].
    rewrite run_gets_bind.
    apply member_undefined_throws; [assumption|]. intros s'. reflexivity.
Qed.

Lemma or_empty_array_returns x s :
  ∃ v s', or_empty_array x s = (Ok v, s') ∧ newSetup s' = newSetup s.
Proof.
  unfold or_empty_array. destruct (truthy x); simpl; eauto.
Qed.

Lemma compare_globalPackages_throws :
  throws_on lacks_globalPackages compare_globalPackages.
Proof.
  intros s [H|H]; unfold compare_globalPackages; cbn [for_of];
    apply run_bind_throws; rewrite run_gets_bind.
  - apply member_undefined_throws; [assumption|]. intros s'. reflexivity.
  - rewrite run_eval_bind.
    destruct (member (oldSetup s) "globalPackages") as [g|]; [|reflexivity].
    rewrite run_eval_bind.
    destruct (member g "npm") as [x|]; [|reflexivity].
    rewrite run_bind.
    destruct (or_empty_array_returns x s) as (v & s' & -> & Hn).
    rewrite run_gets_bind.
    apply member_undefined_throws; [rewrite Hn; assumption|].
    intros s''. reflexivity.
Qed.

Lemma lacks_applications_kept s s' :
  lacks_applications s → inputs_kept s s' → lacks_applications s'.
Proof. unfold lacks_applications. intros H [-> ->]. assumption. Qed.

Lemma lacks_globalPackages_kept s s' :
  lacks_globalPackages s → inputs_kept s s' → lacks_globalPackages s'.
Proof. unfold lacks_globalPackages. intros H [-> ->]. assumption. Qed.

Lemma homebrew_written_inputs_kept m :
  preserves (A := unit) only_homebrew_written m → preserves inputs_kept m.
Proof. intros H s. apply H. Qed.

Lemma body_throws_without_applications : throws_on lacks_applications body.
Proof.
  rewrite diff_body_eq.
  apply (throws_on_bind_r inputs_kept _ lacks_applications_kept).
  - apply preserves_modify. intros s. split; reflexivity.
  - intros _. apply throws_on_bind_l. apply compare_applications_throws.
Qed.

Lemma body_throws_without_globalPackages :
  throws_on lacks_globalPackages body.
Proof.
  rewrite diff_body_eq. unfold packages_and_result.
  apply (throws_on_bind_r inputs_kept _ lacks_globalPackages_kept);
    [apply preserves_modify; intros s; split; reflexivity|intros _].
  apply (throws_on_bind_r inputs_kept _ lacks_globalPackages_kept);
    [intros s; apply compare_applications_frame|intros _].
  do 3 (apply (throws_on_bind_r inputs_kept _ lacks_globalPackages_kept);
        [apply homebrew_written_inputs_kept, compare_homebrew_frame
        |intros _]).
  apply throws_on_bind_l, compare_globalPackages_throws.
Qed.

End DiffFaults.

(** C10. [diffSetups] reads [applications] and [globalPackages] of both
    documents unconditionally: whenever one of the two documents omits
    [applications] or omits [globalPackages], the call throws a
    [TypeError] and yields no report.  [validateSetup] treats both fields
    as optional, so a document that omits them can pass validation
    ([setup_with_casks []] does, with no message): passing validation
    does not establish what [diffSetups] requires. *)
Theorem diffSetups_faults_without_optional_fields
    (old new : value) (next : nat) :
  omits old "applications" ∨ omits new "applications"
  ∨ omits old "globalPackages" ∨ omits new "globalPackages" →
  (diffSetups old new next).1 = Throw TypeError
  ∧ (omits (setup_with_casks []) "applications"
     ∧ omits (setup_with_casks []) "globalPackages"
     ∧ (validateSetup (setup_with_casks [])).1
       = Ok {| valid := true; errors := [] |}).
Proof.
  intros H. split; [|repeat split; vm_compute; reflexivity].
  apply returns_false_throws. unfold diffSetups.
  destruct H as [H|[H|[H|H]]]; apply field_omitted in H.
  - apply DiffFaults.body_throws_without_applications. left. exact H.
  - apply DiffFaults.body_throws_without_applications. right. exact H.
  - apply DiffFaults.body_throws_without_globalPackages. left. exact H.
  - apply DiffFaults.body_throws_without_globalPackages. right. exact H.
Qed.

Lemma diffSetups_faults_without_optional_fields_witness :
  let old := setup_with_casks [] in
  let new := createEmptySetup
               {| utc_year := 2024; utc_month := 12; utc_day := 1;
                  utc_hours := 10; utc_minutes := 0; utc_seconds := 0;
                  utc_milliseconds := 0 |} 100 in
  (omits old "applications" ∨ omits new "applications"
   ∨ omits old "globalPackages" ∨ omits new "globalPackages")
  ∧ (validateSetup old).1 = Ok {| valid := true; errors := [] |}
  ∧ (validateSetup new).1 = Ok {| valid := true; errors := [] |}
  ∧ (diffSetups old new 200).1 = Throw TypeError.
Proof.
  cbv zeta.
  split; [left; reflexivity|].
  split; [vm_compute; reflexivity|].
  split; [vm_compute; reflexivity|].
  apply (diffSetups_faults_without_optional_fields (setup_with_casks [])).
  left. reflexivity.
Defined.

(** ** The comparison of the applications *)

Module DiffApplications.
Import Diff Passes DiffFrames.

Lemma compare_applications_entries s :
  compare_applications s =
  match entries_of (oldSetup s) with
  | Throw e => (Throw e, s)
  | Ok oldEntries =>
      match entries_of (newSetup s) with
      | Throw e => (Throw e, s)
      | Ok newEntries =>
          (for_of (new_Map newEntries) (added_or_updated (new_Map oldEntries));;
           for_of (new_Map oldEntries) (removed_if_absent (new_Map newEntries)))
            s
      end
  end.
Proof.
  unfold compare_applications, entries_of.
  rewrite run_gets_bind, run_eval_bind.
  destruct (member (oldSetup s) "applications") as [oldList|]; [|reflexivity].
  cbn [mbind outcome_bind]. rewrite run_eval_bind.
  destruct (array_map name_entry oldList) as [oldEntries|]; [|reflexivity].
  rewrite run_gets_bind, run_eval_bind.
  destruct (member (newSetup s) "applications") as [newList|]; [|reflexivity].
  cbn [mbind outcome_bind]. rewrite run_eval_bind.
  destruct (array_map name_entry newList) as [newEntries|]; reflexivity.
Qed.

(** *** What the two loops push *)

Lemma push_applications_nil s : push_applications [] [] [] s = s.
Proof.
  destruct s as [o n [[a r u] h g] k]. unfold push_applications. simpl.
  rewrite !app_nil_r. reflexivity.
Qed.

Lemma push_applications_app a1 u1 r1 a2 u2 r2 s :
  push_applications a2 u2 r2 (push_applications a1 u1 r1 s)
  = push_applications (a1 ++ a2) (u1 ++ u2) (r1 ++ r2) s.
Proof. unfold push_applications. simpl. rewrite !app_assoc. reflexivity. Qed.

Lemma Map_get_not_nullish m k :
  values_not_nullish m → Map_has m k = true → nullish (Map_get m k) = false.
Proof.
  unfold Map_has, Map_get. induction 1 as [|e m He _ IH]; simpl.
  - discriminate.
  - destruct (strict_equal e.1 k); simpl; auto.
Qed.

Lemma member_not_nullish v k : nullish v = false → member v k = Ok (field v k).
Proof. unfold member. intros ->. reflexivity. Qed.

Lemma added_or_updated_run oldApps e s :
  values_not_nullish oldApps → nullish e.2 = false →
  added_or_updated oldApps e s
  = (Ok (), push_applications
              (if Map_has oldApps e.1 then [] else [e.2])
              (option_list (update_of oldApps e)) [] s).
Proof.
  intros Hold He. destruct e as [name app]. simpl in He.
  unfold added_or_updated, update_of. cbn [fst snd].
  destruct (Map_has oldApps name) eqn:Hhas; cbn [negb andb].
  - rewrite !run_eval_bind.
    rewrite (member_not_nullish _ _ (Map_get_not_nullish _ _ Hold Hhas)).
    rewrite run_eval_bind, (member_not_nullish _ _ He).
    destruct (strict_equal _ _); cbn [negb when option_list].
    + rewrite push_applications_nil. reflexivity.
    + rewrite !run_eval_bind.
      destruct s as [o n [[a r u] h g] k].
      unfold push_applications, applications_updated_push, modify.
      simpl. rewrite !app_nil_r. reflexivity.
  - destruct s as [o n [[a r u] h g] k].
    unfold push_applications, applications_added_push, modify.
    simpl. rewrite !app_nil_r. reflexivity.
Qed.

Lemma added_loop_run oldApps l s :
  values_not_nullish oldApps → values_not_nullish l →
  for_of l (added_or_updated oldApps) s
  = (Ok (), push_applications (absent_from oldApps l)
              (omap (update_of oldApps) l) [] s).
Proof.
  intros Hold Hl. revert s. induction Hl as [|e l He _ IH]; intros s.
  - simpl. rewrite push_applications_nil. reflexivity.
  - cbn [for_of]. rewrite run_bind, added_or_updated_run by assumption.
    rewrite IH, push_applications_app. unfold absent_from.
    cbn [List.filter omap list_omap]. f_equal. f_equal.
    + destruct (Map_has oldApps e.1); reflexivity.
    + destruct (update_of oldApps e); reflexivity.
Qed.

Lemma removed_loop_run newApps l s :
  for_of l (removed_if_absent newApps) s
  = (Ok (), push_applications [] [] (absent_from newApps l) s).
Proof.
  revert s. induction l as [|[name app] l IH]; intros s.
  - simpl. rewrite push_applications_nil. reflexivity.
  - cbn [for_of]. rewrite run_bind. unfold removed_if_absent at 1.
    unfold absent_from. cbn [List.filter fst].
    destruct (Map_has newApps name); cbn [negb when].
    + rewrite run_ret. apply IH.
    + unfold applications_removed_push, modify.
      rewrite IH. f_equal.
      destruct s as [o n [[a r u] h g] k]. unfold push_applications.
      simpl. rewrite !app_nil_r, <- !app_assoc. reflexivity.
Qed.

(** *** The two maps *)

Lemma mapM_name_entry items :
  mapM name_entry items
  = if forallb Checks.not_nullish items
    then Ok (name_entries items) else Throw TypeError.
Proof.
  induction items as [|a items IH]; [reflexivity|].
  cbn [mapM forallb]. rewrite IH. unfold name_entry, member.
  unfold Checks.not_nullish.
  destruct (nullish a); [reflexivity|].
  cbn [negb andb mbind outcome_bind mret outcome_ret].
  destruct (forallb _ items); reflexivity.
Qed.

Lemma entries_of_run setup :
  entries_of setup =
  if nullish setup then Throw TypeError
  else match field setup "applications" with
       | VArr _ items _ =>
           if forallb Checks.not_nullish items
           then Ok (name_entries items) else Throw TypeError
       | _ => Throw TypeError
       end.
Proof.
  unfold entries_of, member. destruct (nullish setup); [reflexivity|].
  cbn [mbind outcome_bind]. unfold array_map.
  destruct (field setup "applications"); try reflexivity.
  cbn [elements_of mbind outcome_bind]. apply mapM_name_entry.
Qed.

Lemma name_entries_not_nullish items :
  forallb Checks.not_nullish items = true →
  values_not_nullish (name_entries items).
Proof.
  unfold values_not_nullish, name_entries. rewrite Forall_fmap.
  intros H. apply Forall_forall. intros a Ha. simpl.
  rewrite forallb_forall in H. apply list_elem_of_In in Ha.
  specialize (H a Ha). unfold Checks.not_nullish in H.
  destruct (nullish a); [discriminate|reflexivity].
Qed.

Lemma entries_of_not_nullish setup entries :
  entries_of setup = Ok entries → values_not_nullish entries.
Proof.
  rewrite entries_of_run. destruct (nullish setup); [discriminate|].
  destruct (field setup "applications"); try discriminate.
  destruct (forallb _ items) eqn:E; [|discriminate].
  intros [= <-]. apply name_entries_not_nullish. assumption.
Qed.

Lemma Map_set_not_nullish k v m :
  nullish v = false → values_not_nullish m →
  values_not_nullish (Map_set k v m).
Proof.
  intros Hv. induction 1 as [|[k' v'] m He Hm IH]; simpl.
  - repeat constructor. assumption.
  - destruct (strict_equal k' k); constructor; assumption.
Qed.

Lemma new_Map_not_nullish entries :
  values_not_nullish entries → values_not_nullish (new_Map entries).
Proof.
  unfold new_Map. intros H.
  assert (values_not_nullish []) as Hacc by constructor.
  revert Hacc. generalize (@nil (value * value)) as acc.
  induction H as [|e entries He _ IH]; intros acc Hacc; simpl.
  - assumption.
  - apply IH, Map_set_not_nullish; assumption.
Qed.

Lemma compare_applications_run s oldEntries newEntries :
  entries_of (oldSetup s) = Ok oldEntries →
  entries_of (newSetup s) = Ok newEntries →
  let oldApps := new_Map oldEntries in
  let newApps := new_Map newEntries in
  compare_applications s
  = (Ok (), push_applications (absent_from oldApps newApps)
              (updates oldApps newApps) (absent_from newApps oldApps) s).
Proof.
  intros Ho Hn. cbv zeta. rewrite compare_applications_entries, Ho, Hn.
  rewrite run_bind.
  rewrite added_loop_run
    by (apply new_Map_not_nullish; eapply entries_of_not_nullish; eassumption).
  rewrite removed_loop_run, push_applications_app.
  rewrite !app_nil_r. reflexivity.
Qed.

(** The applications of a report that [diffSetups] returns. *)
Lemma diffSetups_applications old new next r :
  (diffSetups old new next).1 = Ok r →
  ∃ oldEntries newEntries,
    entries_of old = Ok oldEntries ∧ entries_of new = Ok newEntries
    ∧ let oldApps := new_Map oldEntries in
      let newApps := new_Map newEntries in
      applications r
      = {| app_added := absent_from oldApps newApps;
           app_removed := absent_from newApps oldApps;
           app_updated := updates oldApps newApps |}.
Proof.
  intros H. unfold diffSetups in H. rewrite diff_body_eq in H.
  match type of H with (?x).1 = _ => destruct x as [o s3] eqn:E end.
  simpl in H. subst o.
  apply run_bind_returns in E as ([] & s1 & Hd & E).
  apply run_bind_returns in E as ([] & s2 & Ha & E).
  injection Hd as <-.
  pose proof (compare_applications_entries
                (set_diff initial_diff (entry old new initial_diff next)))
    as Hce.
  rewrite Ha in Hce. cbn [oldSetup newSetup entry set_diff] in Hce.
  destruct (entries_of old) as [oldEntries|] eqn:Ho; [|discriminate].
  destruct (entries_of new) as [newEntries|] eqn:Hn; [|discriminate].
  clear Hce.
  exists oldEntries, newEntries. split; [reflexivity|]. split; [reflexivity|].
  cbv zeta.
  rewrite (compare_applications_run _ oldEntries newEntries) in Ha
    by assumption.
  injection Ha as <-.
  rewrite (packages_and_result_returns _ _ _ E).
  destruct (packages_and_result_frame
              (push_applications
                 (absent_from (new_Map oldEntries) (new_Map newEntries))
                 (updates (new_Map oldEntries) (new_Map newEntries))
                 (absent_from (new_Map newEntries) (new_Map oldEntries))
                 (set_diff initial_diff
                    (entry old new initial_diff next))))
    as (_ & Happs & _).
  rewrite E in Happs. simpl in Happs. rewrite Happs. reflexivity.
Qed.

End DiffApplications.

(** C7. For every two documents [A] and [B] on which [diffSetups] is
    defined in both directions, the applications [diffSetups(A, B)]
    reports as added are those [diffSetups(B, A)] reports as removed, and
    the applications it reports as removed are those [diffSetups(B, A)]
    reports as added: the lists are equal, and so are the sets of names
    occurring in them. *)
Theorem diffSetups_applications_symmetry
    (A B : value) (next next' : nat) (r r' : report) :
  (diffSetups A B next).1 = Ok r →
  (diffSetups B A next').1 = Ok r' →
  let names := fmap (M := list) (fun e => field e "name") in
  app_added (applications r) = app_removed (applications r')
  ∧ app_removed (applications r) = app_added (applications r')
  ∧ (∀ n, In n (names (app_added (applications r)))
          ↔ In n (names (app_removed (applications r'))))
  ∧ (∀ n, In n (names (app_removed (applications r)))
          ↔ In n (names (app_added (applications r')))).
Proof.
  intros H H'. cbv zeta.
  destruct (DiffApplications.diffSetups_applications _ _ _ _ H)
    as (a & b & Ha & Hb & Hr).
  destruct (DiffApplications.diffSetups_applications _ _ _ _ H')
    as (b' & a' & Hb' & Ha' & Hr').
  rewrite Ha in Ha'. rewrite Hb in Hb'.
  injection Ha' as <-. injection Hb' as <-.
  cbv zeta in Hr, Hr'. rewrite Hr, Hr'. simpl.
  repeat split; auto.
Qed.

Lemma diffSetups_applications_symmetry_witness :
  let A := setup_with_applications 0 studio_applications in
  let B := setup_with_applications 40 laptop_applications in
  let r := {|
    applications := {|
      app_added := [application 61 "Zoom.app" "6.0"];
      app_removed := [application 21 "Slack.app" "4.38"];
      app_updated := [{| upd_name := VStr "Xcode.app";
                         oldVersion := VStr "14.0";
                         newVersion := VStr "15.0" |}] |};
    homebrew := homebrew Diff.initial_diff;
    globalPackages := globalPackages Diff.initial_diff |} in
  let r' := {|
    applications := {|
      app_added := [application 21 "Slack.app" "4.38"];
      app_removed := [application 61 "Zoom.app" "6.0"];
      app_updated := [{| upd_name := VStr "Xcode.app";
                         oldVersion := VStr "15.0";
                         newVersion := VStr "14.0" |}] |};
    homebrew := homebrew Diff.initial_diff;
    globalPackages := globalPackages Diff.initial_diff |} in
  (diffSetups A B 100).1 = Ok r
  ∧ (diffSetups B A 100).1 = Ok r'
  ∧ app_added (applications r) = app_removed (applications r')
  ∧ app_removed (applications r) = app_added (applications r').
Proof.
  cbv zeta.
  assert ((diffSetups (setup_with_applications 0 studio_applications)
             (setup_with_applications 40 laptop_applications) 100).1 = Ok _)
    as H by (vm_compute; reflexivity).
  assert ((diffSetups (setup_with_applications 40 laptop_applications)
             (setup_with_applications 0 studio_applications) 100).1 = Ok _)
    as H' by (vm_compute; reflexivity).
  split; [exact H|]. split; [exact H'|].
  destruct (diffSetups_applications_symmetry _ _ _ _ _ _ H H')
    as (Ha & Hr & _).
  split; [exact Ha|exact Hr].
Defined.

(** ** Applications keyed by name *)

Module KeyedByName.
Import Diff Passes Keyed DiffApplications.










(** *** Lookups in a map of entries keyed by name *)






End KeyedByName.

(** ** Global packages *)

(** No statement of [diffSetups] writes [diff.globalPackages]: a report
    that is returned has the four empty [{ added, removed }] objects the
    literal starts with. *)
Lemma diffSetups_globalPackages_never_written
    (old new : value) (next : nat) (r : report) :
  (diffSetups old new next).1 = Ok r →
  globalPackages r = globalPackages Diff.initial_diff.
Proof.
  intros H. unfold diffSetups in H. rewrite DiffFrames.diff_body_eq in H.
  match type of H with (?x).1 = _ => destruct x as [o s3] eqn:E end.
  simpl in H. subst o.
  apply run_bind_returns in E as ([] & s1 & Hd & E).
  apply run_bind_returns in E as ([] & s2 & Ha & E).
  injection Hd as <-.
  rewrite (DiffFrames.packages_and_result_returns _ _ _ E).
  destruct (DiffFrames.packages_and_result_frame s2) as (_ & _ & Hg).
  rewrite E in Hg. simpl in Hg. rewrite Hg.
  match type of Ha with Diff.compare_applications ?s = _ =>
    destruct (DiffFrames.compare_applications_frame s) as (_ & _ & Hg') end.
  rewrite Ha in Hg'. simpl in Hg'. rewrite Hg'. reflexivity.
Qed.

(** ** The comparison of the global packages *)

Module GlobalFacts.
Import Diff Passes Globals DiffFrames.

Lemma no_bucket_added_refl s : no_bucket_added s s.
Proof. intros c H. exact H. Qed.

Lemma no_bucket_added_trans s1 s2 s3 :
  no_bucket_added s1 s2 → no_bucket_added s2 s3 → no_bucket_added s1 s3.
Proof. intros H12 H23 c H. apply H23, H12, H. Qed.

Lemma homebrew_added_push_no_bucket category arg :
  preserves no_bucket_added (homebrew_added_push category arg).
Proof.
  intros s c Hc. unfold homebrew_added_push, no_bucket in *.
  destruct (homebrew (diff s) !! category) eqn:E; [|exact Hc].
  destruct arg; [|exact Hc]. simpl.
  rewrite lookup_insert_ne; [exact Hc|congruence].
Qed.

Lemma homebrew_removed_push_no_bucket category arg :
  preserves no_bucket_added (homebrew_removed_push category arg).
Proof.
  intros s c Hc. unfold homebrew_removed_push, no_bucket in *.
  destruct (homebrew (diff s) !! category) eqn:E; [|exact Hc].
  destruct arg; [|exact Hc]. simpl.
  rewrite lookup_insert_ne; [exact Hc|congruence].
Qed.

Ltac no_bucket_frame :=
  statement_cases;
  first [ apply homebrew_added_push_no_bucket
        | apply homebrew_removed_push_no_bucket
        | apply no_bucket_added_refl
        | apply no_bucket_added_trans
        | apply preserves_modify; intros ? ? H; exact H ].

Lemma comparePackages_no_bucket oldPkgs newPkgs type category :
  preserves no_bucket_added (comparePackages oldPkgs newPkgs type category).
Proof. unfold comparePackages. no_bucket_frame. Qed.

Lemma compare_homebrew_no_bucket category :
  preserves no_bucket_added (compare_homebrew category).
Proof.
  unfold compare_homebrew. statement_cases;
    try apply comparePackages_no_bucket; no_bucket_frame.
Qed.

Lemma compare_applications_no_bucket :
  preserves no_bucket_added compare_applications.
Proof.
  unfold compare_applications, applications_added_push,
    applications_updated_push, applications_removed_push.
  no_bucket_frame.
Qed.

(** *** A loop of [comparePackages] on a category without bucket *)

Lemma push_loop_returns push others pkgs category s s' :
  (∀ arg s0, no_bucket category s0 → returns (push arg s0).1 = false) →
  no_bucket category s →
  for_of pkgs (push_if_absent push others) s = (Ok (), s') →
  s' = s ∧ all_present others pkgs.
Proof.
  intros Hpush Hs. revert s Hs. induction pkgs as [|pkg pkgs IH]; intros s Hs.
  - simpl. intros [= <-]. split; [reflexivity|constructor].
  - cbn [for_of]. intros H.
    apply run_bind_returns in H as ([] & s1 & Hpkg & Hrest).
    unfold push_if_absent in Hpkg. rewrite run_eval_bind in Hpkg.
    destruct (name_or_self pkg) as [name|] eqn:Hname; [|discriminate].
    destruct (Set_has others name) eqn:Hhas; cbn [negb when] in Hpkg.
    + injection Hpkg as <-. destruct (IH s Hs Hrest) as [-> Hall].
      split; [reflexivity|]. constructor; eauto.
    + specialize (Hpush (bare_name pkg) s Hs). rewrite Hpkg in Hpush.
      discriminate.
Qed.

Lemma homebrew_added_push_throws category arg s :
  no_bucket category s → returns (homebrew_added_push category arg s).1 = false.
Proof. unfold no_bucket, homebrew_added_push. intros ->. reflexivity. Qed.

Lemma homebrew_removed_push_throws category arg s :
  no_bucket category s →
  returns (homebrew_removed_push category arg s).1 = false.
Proof. unfold no_bucket, homebrew_removed_push. intros ->. reflexivity. Qed.

Lemma name_or_self_run p :
  name_or_self p
  = if nullish p then Throw TypeError
    else Ok (if truthy (field p "name") then field p "name" else p).
Proof. unfold name_or_self, member. destruct (nullish p); reflexivity. Qed.

Lemma mapM_name_or_self items names :
  mapM name_or_self items = Ok names →
  names = (fun p => if truthy (field p "name") then field p "name" else p)
          <$> items.
Proof.
  revert names. induction items as [|p items IH]; intros names.
  - intros [= <-]. reflexivity.
  - cbn [mapM]. rewrite name_or_self_run.
    destruct (nullish p); cbn [mbind outcome_bind mret outcome_ret];
      [intros H; discriminate H|].
    destruct (mapM name_or_self items) as [rest|];
      cbn [mbind outcome_bind mret outcome_ret]; [|intros H; discriminate H].
    intros [= <-]. cbn [fmap list_fmap]. f_equal. apply IH. reflexivity.
Qed.

Lemma array_map_name_or_self v names :
  array_map name_or_self v = Ok names →
  names = (fun p => if truthy (field p "name") then field p "name" else p)
          <$> Checks.items_of v.
Proof.
  unfold array_map. intros H. destruct v; try discriminate.
  apply mapM_name_or_self. exact H.
Qed.

(** [comparePackages] completes on a category without bucket only when
    there is nothing to push, and then changes nothing. *)
Lemma comparePackages_returns oldPkgs newPkgs type category s s' :
  no_bucket category s →
  comparePackages oldPkgs newPkgs type category s = (Ok (), s') →
  s' = s
  ∧ all_present (name_set (Checks.items_of oldPkgs)) (Checks.items_of newPkgs)
  ∧ all_present (name_set (Checks.items_of newPkgs)) (Checks.items_of oldPkgs).
Proof.
  intros Hs H. unfold comparePackages in H.
  rewrite run_eval_bind in H.
  destruct (array_map name_or_self oldPkgs) as [oldNames|] eqn:Ho;
    [|discriminate].
  rewrite run_eval_bind in H.
  destruct (array_map name_or_self newPkgs) as [newNames|] eqn:Hn;
    [|discriminate].
  destruct newPkgs; try discriminate Hn. destruct oldPkgs; try discriminate Ho.
  apply array_map_name_or_self in Ho, Hn. subst oldNames newNames.
  rewrite run_eval_bind in H.
  cbn [elements_of Checks.items_of] in *.
  apply run_bind_returns in H as ([] & s1 & Hadd & H).
  apply (push_loop_returns (homebrew_added_push category) _ _ category)
    in Hadd as [-> Hnew];
    [|intros; apply homebrew_added_push_throws; assumption|assumption].
  rewrite run_eval_bind in H.
  apply (push_loop_returns (homebrew_removed_push category) _ _ category)
    in H as [-> Hold];
    [|intros; apply homebrew_removed_push_throws; assumption|assumption].
  auto.
Qed.

Lemma compare_globalPackages_turns :
  compare_globalPackages = for_of ["npm"; "bun"; "dart"; "ruby"] compare_manager.
Proof. reflexivity. Qed.

Lemma or_empty_array_run x s :
  ∃ v s', or_empty_array x s = (Ok v, s') ∧ only_ids_taken s s'
          ∧ Checks.items_of v = Checks.items_of x.
Proof.
  unfold or_empty_array. destruct (truthy x) eqn:Hx.
  - exists x, s. repeat split; reflexivity.
  - eexists _, _. split; [reflexivity|]. split; [repeat split; reflexivity|].
    destruct x; try reflexivity. discriminate.
Qed.

Lemma member_returns v k x : member v k = Ok x → x = field v k.
Proof. unfold member. destruct (nullish v); [discriminate|]. congruence. Qed.

Lemma compare_manager_returns manager s s' :
  no_bucket manager s →
  compare_manager manager s = (Ok (), s') →
  only_ids_taken s s'
  ∧ same_global_packages (oldSetup s) (newSetup s) manager.
Proof.
  intros Hs H. unfold compare_manager in H.
  rewrite run_gets_bind, run_eval_bind in H.
  destruct (member (oldSetup s) "globalPackages") as [og|] eqn:Hog;
    [|discriminate].
  rewrite run_eval_bind in H.
  destruct (member og manager) as [ov|] eqn:Hov; [|discriminate].
  apply member_returns in Hog, Hov. subst og ov.
  apply run_bind_returns in H as (oldPkgs & s1 & Ho & H).
  destruct (or_empty_array_run (field (field (oldSetup s) "globalPackages") manager) s)
    as (v & s1' & Ho' & (Ho1 & Hn1 & Hd1) & Hitems).
  rewrite Ho in Ho'. injection Ho' as <- <-.
  rewrite run_gets_bind, run_eval_bind in H.
  destruct (member (newSetup s1) "globalPackages") as [ng|] eqn:Hng;
    [|discriminate].
  rewrite run_eval_bind in H.
  destruct (member ng manager) as [nv|] eqn:Hnv; [|discriminate].
  apply member_returns in Hng, Hnv. subst ng nv.
  apply run_bind_returns in H as (newPkgs & s2 & Hn & H).
  destruct (or_empty_array_run (field (field (newSetup s1) "globalPackages") manager) s1)
    as (v & s2' & Hn' & (Ho2 & Hn2 & Hd2) & Hitems').
  rewrite Hn in Hn'. injection Hn' as <- <-.
  apply comparePackages_returns in H as (-> & Hnew & Hold);
    [|unfold no_bucket in *; congruence].
  split; [repeat split; congruence|].
  unfold same_global_packages, global_packages.
  rewrite Hitems, Hitems', Hn1 in *. split; assumption.
Qed.

Lemma managers_loop_returns managers s s' :
  (∀ manager, In manager managers → no_bucket manager s) →
  for_of managers compare_manager s = (Ok (), s') →
  ∀ manager, In manager managers →
    same_global_packages (oldSetup s) (newSetup s) manager.
Proof.
  revert s. induction managers as [|m managers IH]; intros s Hs H manager Hin.
  - destruct Hin.
  - cbn [for_of] in H. apply run_bind_returns in H as ([] & s1 & Hm & H).
    apply compare_manager_returns in Hm as [(Ho & Hn & Hd) Hsame];
      [|apply Hs; left; reflexivity].
    destruct Hin as [<-|Hin]; [exact Hsame|].
    rewrite <- Ho, <- Hn. apply (IH s1); [|exact H|exact Hin].
    intros m' Hm'. unfold no_bucket. rewrite Hd. apply Hs. right. exact Hm'.
Qed.

(** [diffSetups] returns a report only for documents whose global
    packages do not differ: for each of the four managers, every package
    of either document has its name among the names of the other.  As soon
    as a name is to be reported, the push on [diff.homebrew[manager]]
    throws. *)
Lemma diffSetups_returns_without_global_changes
    (old new : value) (next : nat) (r : report) (manager : string) :
  (diffSetups old new next).1 = Ok r →
  In manager ["npm"; "bun"; "dart"; "ruby"] →
  same_global_packages old new manager.
Proof.
  intros H Hin. unfold diffSetups in H. rewrite DiffFrames.diff_body_eq in H.
  match type of H with (?x).1 = _ => destruct x as [o s6] eqn:E end.
  simpl in H. subst o.
  apply run_bind_returns in E as ([] & s1 & Hd & E).
  apply run_bind_returns in E as ([] & s2 & Ha & E).
  unfold packages_and_result in E.
  apply run_bind_returns in E as ([] & s3 & H1 & E).
  apply run_bind_returns in E as ([] & s4 & H2 & E).
  apply run_bind_returns in E as ([] & s5 & H3 & E).
  apply run_bind_returns in E as ([] & s6' & Hg & _).
  injection Hd as <-.
  destruct (DiffFrames.compare_applications_frame
                (set_diff initial_diff (entry old new initial_diff next)))
    as ([Ho2 Hn2] & _).
  pose proof (compare_applications_no_bucket
                (set_diff initial_diff (entry old new initial_diff next)))
    as Hb2.
  rewrite Ha in Ho2, Hn2, Hb2. cbn [fst snd] in Ho2, Hn2, Hb2.
  destruct (DiffFrames.compare_homebrew_frame "formulae" s2) as ([Ho3 Hn3] & _).
  pose proof (compare_homebrew_no_bucket "formulae" s2) as Hb3.
  rewrite H1 in Ho3, Hn3, Hb3. cbn [fst snd] in Ho3, Hn3, Hb3.
  destruct (DiffFrames.compare_homebrew_frame "casks" s3) as ([Ho4 Hn4] & _).
  pose proof (compare_homebrew_no_bucket "casks" s3) as Hb4.
  rewrite H2 in Ho4, Hn4, Hb4. cbn [fst snd] in Ho4, Hn4, Hb4.
  destruct (DiffFrames.compare_homebrew_frame "taps" s4) as ([Ho5 Hn5] & _).
  pose proof (compare_homebrew_no_bucket "taps" s4) as Hb5.
  rewrite H3 in Ho5, Hn5, Hb5. cbn [fst snd] in Ho5, Hn5, Hb5.
  rewrite compare_globalPackages_turns in Hg.
  assert (∀ m, In m ["npm"; "bun"; "dart"; "ruby"] → no_bucket m s5) as Hno.
  { intros m Hm. apply Hb5, Hb4, Hb3, Hb2.
    repeat (destruct Hm as [<-|Hm]; [reflexivity|]). simpl in Hm. contradiction. }
  pose proof (managers_loop_returns _ _ _ Hno Hg manager Hin) as Hsame.
  rewrite Ho5, Ho4, Ho3, Ho2, Hn5, Hn4, Hn3, Hn2 in Hsame. exact Hsame.
Qed.

End GlobalFacts.

(** ** What [diffSetups] returns *)

Module EngineFacts.
Import Diff Passes Globals DiffFrames DiffApplications GlobalFacts Engine.

Lemma push_homebrew_nil category s : push_homebrew category [] [] s = s.
Proof.
  unfold push_homebrew. destruct (homebrew (diff s) !! category) as [c|] eqn:E;
    [|reflexivity].
  rewrite !app_nil_r. destruct c as [a r]. rewrite insert_id by assumption.
  destruct s as [o n [ap h g] k]. reflexivity.
Qed.

Lemma push_homebrew_app category a1 r1 a2 r2 s :
  push_homebrew category a2 r2 (push_homebrew category a1 r1 s)
  = push_homebrew category (a1 ++ a2) (r1 ++ r2) s.
Proof.
  unfold push_homebrew.
  destruct (homebrew (diff s) !! category) as [c|] eqn:E; [|rewrite E; reflexivity].
  cbn [diff set_diff homebrew set_homebrew]. rewrite lookup_insert_eq.
  cbn [added removed]. rewrite insert_insert_eq, !app_assoc. reflexivity.
Qed.

Lemma forallb_not_nullish_cons p pkgs :
  forallb Checks.not_nullish (p :: pkgs) = true →
  nullish p = false ∧ forallb Checks.not_nullish pkgs = true.
Proof.
  cbn [forallb]. rewrite andb_true_iff. unfold Checks.not_nullish at 1.
  rewrite negb_true_iff. auto.
Qed.

Lemma bare_name_run p : nullish p = false → bare_name p = Ok (reported p).
Proof.
  intros Hp. unfold bare_name, reported, member. rewrite Hp.
  destruct (String.eqb (typeof p) "string"); reflexivity.
Qed.

Lemma name_or_self_key p : nullish p = false → name_or_self p = Ok (key p).
Proof. intros Hp. rewrite name_or_self_run, Hp. reflexivity. Qed.

Lemma homebrew_added_push_run category x s :
  is_Some (homebrew (diff s) !! category) →
  homebrew_added_push category (Ok x) s
  = (Ok (), push_homebrew category [x] [] s).
Proof.
  intros [c Hc]. unfold homebrew_added_push, push_homebrew. rewrite Hc.
  rewrite app_nil_r. reflexivity.
Qed.

Lemma homebrew_removed_push_run category x s :
  is_Some (homebrew (diff s) !! category) →
  homebrew_removed_push category (Ok x) s
  = (Ok (), push_homebrew category [] [x] s).
Proof.
  intros [c Hc]. unfold homebrew_removed_push, push_homebrew. rewrite Hc.
  rewrite app_nil_r. reflexivity.
Qed.

Lemma push_homebrew_bucket category a r s :
  is_Some (homebrew (diff s) !! category) →
  is_Some (homebrew (diff (push_homebrew category a r s)) !! category).
Proof.
  intros [c Hc]. unfold push_homebrew. rewrite Hc.
  cbn [diff set_diff homebrew set_homebrew]. rewrite lookup_insert_eq. eauto.
Qed.

Lemma added_loop others pkgs category s :
  is_Some (homebrew (diff s) !! category) →
  forallb Checks.not_nullish pkgs = true →
  for_of pkgs (push_if_absent (homebrew_added_push category) (key_set others)) s
  = (Ok (), push_homebrew category (pushed others pkgs) [] s).
Proof.
  revert s. induction pkgs as [|p pkgs IH]; intros s Hs Hp.
  - simpl. rewrite push_homebrew_nil. reflexivity.
  - apply forallb_not_nullish_cons in Hp as [Hp Hrest].
    cbn [for_of]. rewrite run_bind. unfold push_if_absent at 1.
    rewrite run_eval_bind, name_or_self_key by assumption.
    unfold pushed. cbn [List.filter].
    destruct (Set_has (key_set others) (key p)); cbn [negb when].
    + rewrite run_ret. apply IH; assumption.
    + rewrite bare_name_run, homebrew_added_push_run by assumption.
      rewrite IH by (try apply push_homebrew_bucket; assumption).
      rewrite push_homebrew_app. reflexivity.
Qed.

Lemma removed_loop others pkgs category s :
  is_Some (homebrew (diff s) !! category) →
  forallb Checks.not_nullish pkgs = true →
  for_of pkgs (push_if_absent (homebrew_removed_push category) (key_set others)) s
  = (Ok (), push_homebrew category [] (pushed others pkgs) s).
Proof.
  revert s. induction pkgs as [|p pkgs IH]; intros s Hs Hp.
  - simpl. rewrite push_homebrew_nil. reflexivity.
  - apply forallb_not_nullish_cons in Hp as [Hp Hrest].
    cbn [for_of]. rewrite run_bind. unfold push_if_absent at 1.
    rewrite run_eval_bind, name_or_self_key by assumption.
    unfold pushed. cbn [List.filter].
    destruct (Set_has (key_set others) (key p)); cbn [negb when].
    + rewrite run_ret. apply IH; assumption.
    + rewrite bare_name_run, homebrew_removed_push_run by assumption.
      rewrite IH by (try apply push_homebrew_bucket; assumption).
      rewrite push_homebrew_app. reflexivity.
Qed.

Lemma mapM_name_or_self_run items :
  mapM name_or_self items
  = if forallb Checks.not_nullish items then Ok (key <$> items)
    else Throw TypeError.
Proof.
  induction items as [|p items IH]; [reflexivity|].
  cbn [mapM forallb]. rewrite IH, name_or_self_run.
  unfold Checks.not_nullish. destruct (nullish p); [reflexivity|].
  cbn [negb andb mbind outcome_bind mret outcome_ret].
  destruct (forallb _ items); reflexivity.
Qed.

Lemma array_map_name_or_self_run v :
  array_map name_or_self v
  = if entries_ok v then Ok (key <$> Checks.items_of v) else Throw TypeError.
Proof.
  unfold array_map, entries_ok. destruct v; try reflexivity.
  cbn [elements_of isArray andb Checks.items_of mbind outcome_bind].
  apply mapM_name_or_self_run.
Qed.

Lemma entries_ok_elements v :
  entries_ok v = true →
  elements_of v = Ok (Checks.items_of v)
  ∧ forallb Checks.not_nullish (Checks.items_of v) = true.
Proof.
  unfold entries_ok. destruct v; try discriminate. simpl. auto.
Qed.

(** [comparePackages] throws unless both arguments are arrays without
    [null] entries. *)
Lemma comparePackages_throws oldPkgs newPkgs type category s :
  entries_ok oldPkgs && entries_ok newPkgs = false →
  (comparePackages oldPkgs newPkgs type category s).1 = Throw TypeError.
Proof.
  intros H. unfold comparePackages.
  rewrite run_eval_bind, array_map_name_or_self_run.
  destruct (entries_ok oldPkgs); [|reflexivity].
  rewrite run_eval_bind, array_map_name_or_self_run.
  destruct (entries_ok newPkgs); [discriminate|reflexivity].
Qed.

(** On a category that [diff.homebrew] has, [comparePackages] pushes the
    names of both loops. *)
Lemma comparePackages_run oldPkgs newPkgs type category s :
  is_Some (homebrew (diff s) !! category) →
  entries_ok oldPkgs = true → entries_ok newPkgs = true →
  comparePackages oldPkgs newPkgs type category s
  = (Ok (), push_homebrew category
              (pushed (Checks.items_of oldPkgs) (Checks.items_of newPkgs))
              (pushed (Checks.items_of newPkgs) (Checks.items_of oldPkgs)) s).
Proof.
  intros Hs Ho Hn. unfold comparePackages.
  rewrite run_eval_bind, array_map_name_or_self_run, Ho.
  rewrite run_eval_bind, array_map_name_or_self_run, Hn.
  destruct (entries_ok_elements _ Ho) as [-> Ho'].
  destruct (entries_ok_elements _ Hn) as [-> Hn'].
  rewrite run_eval_bind, run_bind.
  change (fun pkg : value =>
     name ← eval (name_or_self pkg);
     when (negb (Set_has (new_Set (key <$> Checks.items_of oldPkgs)) name))
       (homebrew_added_push category (bare_name pkg)))
    with (push_if_absent (homebrew_added_push category)
            (key_set (Checks.items_of oldPkgs))).
  rewrite added_loop by assumption.
  rewrite run_eval_bind.
  change (fun pkg : value =>
     name ← eval (name_or_self pkg);
     when (negb (Set_has (new_Set (key <$> Checks.items_of newPkgs)) name))
       (homebrew_removed_push category (bare_name pkg)))
    with (push_if_absent (homebrew_removed_push category)
            (key_set (Checks.items_of newPkgs))).
  rewrite removed_loop by (try apply push_homebrew_bucket; assumption).
  rewrite push_homebrew_app, app_nil_r. reflexivity.
Qed.

Lemma run_throws {S A B} (m : M S A) (f : A → M S B) s :
  (m s).1 = Throw TypeError → ((m ≫= f) s).1 = Throw TypeError.
Proof. rewrite run_bind. destruct (m s) as [[a|e] s']; simpl; congruence. Qed.

Lemma compare_homebrew_run category s :
  nullish (oldSetup s) = false → nullish (newSetup s) = false →
  is_Some (homebrew (diff s) !! category) →
  category_ok (oldSetup s) (newSetup s) category = true →
  compare_homebrew category s
  = (Ok (), push_homebrew category
              (pushed (homebrew_packages (oldSetup s) category)
                 (homebrew_packages (newSetup s) category))
              (pushed (homebrew_packages (newSetup s) category)
                 (homebrew_packages (oldSetup s) category)) s).
Proof.
  intros Ho Hn Hs. unfold category_ok. rewrite !andb_true_iff, !negb_true_iff.
  intros [[[Hho Hhn] Heo] Hen]. unfold compare_homebrew.
  rewrite run_gets_bind, run_eval_bind, (member_not_nullish _ _ Ho).
  rewrite run_eval_bind, (member_not_nullish _ _ Hho).
  rewrite run_gets_bind, run_eval_bind, (member_not_nullish _ _ Hn).
  rewrite run_eval_bind, (member_not_nullish _ _ Hhn).
  apply comparePackages_run; assumption.
Qed.

Lemma compare_homebrew_throws category s :
  nullish (oldSetup s) = false → nullish (newSetup s) = false →
  category_ok (oldSetup s) (newSetup s) category = false →
  (compare_homebrew category s).1 = Throw TypeError.
Proof.
  intros Ho Hn. unfold category_ok, compare_homebrew.
  rewrite run_gets_bind, run_eval_bind, (member_not_nullish _ _ Ho).
  rewrite run_eval_bind. unfold member at 1.
  destruct (nullish (field (oldSetup s) "homebrew")); [reflexivity|].
  rewrite run_gets_bind, run_eval_bind, (member_not_nullish _ _ Hn).
  rewrite run_eval_bind. unfold member at 1.
  destruct (nullish (field (newSetup s) "homebrew")); [reflexivity|].
  cbn [negb andb]. apply comparePackages_throws.
Qed.

(** *** Categories without bucket *)

Lemma present_loop push others pkgs s :
  forallb Checks.not_nullish pkgs = true →
  forallb (fun p => Set_has (key_set others) (key p)) pkgs = true →
  for_of pkgs (push_if_absent push (key_set others)) s = (Ok (), s).
Proof.
  induction pkgs as [|p pkgs IH]; intros Hp Hall; [reflexivity|].
  apply forallb_not_nullish_cons in Hp as [Hp Hrest].
  cbn [forallb] in Hall. apply andb_true_iff in Hall as [Hhas Hall].
  cbn [for_of]. rewrite run_bind. unfold push_if_absent at 1.
  rewrite run_eval_bind, name_or_self_key by assumption.
  rewrite Hhas. cbn [negb when]. rewrite run_ret. auto.
Qed.

Lemma all_present_forallb others pkgs :
  all_present (key_set others) pkgs →
  forallb (fun p => Set_has (key_set others) (key p)) pkgs = true.
Proof.
  induction 1 as [|p pkgs (name & Hname & Hhas) _ IH]; [reflexivity|].
  cbn [forallb]. rewrite IH, andb_true_r.
  rewrite name_or_self_run in Hname. destruct (nullish p); [discriminate|].
  injection Hname as <-. exact Hhas.
Qed.

Lemma comparePackages_no_bucket_outcome oldPkgs newPkgs type category s :
  no_bucket category s →
  (comparePackages oldPkgs newPkgs type category s).1
  = if entries_ok oldPkgs && entries_ok newPkgs
       && nothing_pushed (Checks.items_of oldPkgs) (Checks.items_of newPkgs)
    then Ok () else Throw TypeError.
Proof.
  intros Hs.
  destruct (entries_ok oldPkgs && entries_ok newPkgs) eqn:Hok;
    [|apply comparePackages_throws; assumption].
  cbn [andb]. apply andb_true_iff in Hok as [Ho Hn].
  destruct (nothing_pushed _ _) eqn:Hnone.
  - unfold nothing_pushed in Hnone. apply andb_true_iff in Hnone as [Hnew Hold].
    unfold comparePackages.
    rewrite run_eval_bind, array_map_name_or_self_run, Ho.
    rewrite run_eval_bind, array_map_name_or_self_run, Hn.
    destruct (entries_ok_elements _ Ho) as [-> Ho'].
    destruct (entries_ok_elements _ Hn) as [-> Hn'].
    rewrite run_eval_bind.
    erewrite run_bind_ok
      by (apply (present_loop _ (Checks.items_of oldPkgs)); assumption).
    rewrite run_eval_bind.
    exact (f_equal fst
             (present_loop (homebrew_removed_push category)
                (Checks.items_of newPkgs) (Checks.items_of oldPkgs) s Ho' Hold)).
  - destruct (comparePackages oldPkgs newPkgs type category s) as [[[]|e] s']
      eqn:E; [|destruct e; reflexivity].
    apply comparePackages_returns in E as (_ & Hnew & Hold); [|assumption].
    apply all_present_forallb in Hnew, Hold.
    unfold nothing_pushed in Hnone. rewrite Hnew, Hold in Hnone. discriminate.
Qed.

Lemma or_empty_array_spec x s :
  ∃ v s', or_empty_array x s = (Ok v, s') ∧ only_ids_taken s s'
          ∧ Checks.items_of v = Checks.items_of x
          ∧ entries_ok v = negb (truthy x) || entries_ok x.
Proof.
  unfold or_empty_array. destruct (truthy x) eqn:Hx.
  - exists x, s. repeat split; reflexivity.
  - eexists _, _. split; [reflexivity|]. split; [repeat split; reflexivity|].
    split; [|reflexivity]. destruct x; try reflexivity. discriminate.
Qed.

Lemma compare_manager_outcome manager s :
  nullish (oldSetup s) = false → nullish (newSetup s) = false →
  no_bucket manager s →
  (compare_manager manager s).1
  = if manager_turn_ok (oldSetup s) (newSetup s) manager
    then Ok () else Throw TypeError.
Proof.
  intros Ho Hn Hs. unfold compare_manager, manager_turn_ok, manager_ok,
    global_packages.
  rewrite run_gets_bind, run_eval_bind, (member_not_nullish _ _ Ho).
  rewrite run_eval_bind. unfold member at 1.
  destruct (nullish (field (oldSetup s) "globalPackages")); [reflexivity|].
  rewrite run_bind.
  destruct (or_empty_array_spec
              (field (field (oldSetup s) "globalPackages") manager) s)
    as (v & s1 & -> & (Ho1 & Hn1 & Hd1) & Hv & Hvok).
  rewrite run_gets_bind, run_eval_bind, Hn1, (member_not_nullish _ _ Hn).
  rewrite run_eval_bind. unfold member at 1.
  destruct (nullish (field (newSetup s) "globalPackages")); [reflexivity|].
  rewrite run_bind.
  destruct (or_empty_array_spec
              (field (field (newSetup s) "globalPackages") manager) s1)
    as (w & s2 & -> & (Ho2 & Hn2 & Hd2) & Hw & Hwok).
  rewrite comparePackages_no_bucket_outcome
    by (unfold no_bucket in *; congruence).
  rewrite Hv, Hw, Hvok, Hwok. reflexivity.
Qed.

Lemma managers_loop_outcome managers s :
  nullish (oldSetup s) = false → nullish (newSetup s) = false →
  (∀ manager, In manager managers → no_bucket manager s) →
  ∃ s', for_of managers compare_manager s
        = (if forallb (manager_turn_ok (oldSetup s) (newSetup s)) managers
           then Ok () else Throw TypeError, s')
        ∧ (forallb (manager_turn_ok (oldSetup s) (newSetup s)) managers = true →
           diff s' = diff s).
Proof.
  revert s. induction managers as [|m managers IH]; intros s Ho Hn Hs.
  - exists s. split; reflexivity.
  - cbn [for_of forallb]. rewrite run_bind.
    pose proof (compare_manager_outcome m s Ho Hn (Hs m (or_introl eq_refl)))
      as Hm.
    destruct (compare_manager m s) as [o s1] eqn:E. simpl in Hm. subst o.
    destruct (manager_turn_ok (oldSetup s) (newSetup s) m);
      [|exists s1; split; [reflexivity|discriminate]].
    apply compare_manager_returns in E as [(Ho1 & Hn1 & Hd1) _];
      [|apply Hs; left; reflexivity].
    destruct (IH s1) as (s' & Hloop & Hdiff);
      [congruence|congruence|
       intros m' Hm'; unfold no_bucket; rewrite Hd1; apply Hs; right; exact Hm'|].
    rewrite Ho1, Hn1 in Hloop, Hdiff.
    exists s'. split; [exact Hloop|]. cbn [andb]. intros H.
    rewrite Hdiff by assumption. assumption.
Qed.

End EngineFacts.

Module OutcomeOfDiff.
Import Diff Passes Globals DiffFrames DiffApplications GlobalFacts Engine EngineFacts.

Lemma entries_of_ok doc :
  entries_of doc
  = if applications_ok doc
    then Ok (name_entries (Checks.items_of (field doc "applications")))
    else Throw TypeError.
Proof.
  rewrite entries_of_run. unfold applications_ok, entries_ok.
  destruct (nullish doc); [reflexivity|].
  destruct (field doc "applications"); try reflexivity.
Qed.

Lemma compare_applications_outcome s :
  compare_applications s
  = if applications_ok (oldSetup s) && applications_ok (newSetup s)
    then (Ok (), push_applications
                   (absent_from (applications_map (oldSetup s))
                      (applications_map (newSetup s)))
                   (updates (applications_map (oldSetup s))
                      (applications_map (newSetup s)))
                   (absent_from (applications_map (newSetup s))
                      (applications_map (oldSetup s))) s)
    else (Throw TypeError, s).
Proof.
  destruct (applications_ok (oldSetup s)) eqn:Ho.
  - destruct (applications_ok (newSetup s)) eqn:Hn; cbn [andb].
    + apply compare_applications_run; rewrite entries_of_ok; 
        [rewrite Ho|rewrite Hn]; reflexivity.
    + rewrite compare_applications_entries, !entries_of_ok, Ho, Hn. reflexivity.
  - rewrite compare_applications_entries, !entries_of_ok, Ho. reflexivity.
Qed.

Lemma push_homebrew_inputs category a r s :
  oldSetup (push_homebrew category a r s) = oldSetup s
  ∧ newSetup (push_homebrew category a r s) = newSetup s
  ∧ applications (diff (push_homebrew category a r s)) = applications (diff s)
  ∧ globalPackages (diff (push_homebrew category a r s))
    = globalPackages (diff s)
  ∧ dom (homebrew (diff (push_homebrew category a r s)))
    = dom (homebrew (diff s)).
Proof.
  unfold push_homebrew.
  destruct (homebrew (diff s) !! category) as [c|] eqn:E; [|auto].
  cbn. repeat split. apply set_eq. intros k.
  rewrite dom_insert, elem_of_union, elem_of_singleton, !elem_of_dom.
  split; [intros [->|H]; eauto|auto].
Qed.

Lemma categories_loop {A} (k : M dstore A) old new categories s :
  oldSetup s = old → newSetup s = new →
  nullish old = false → nullish new = false →
  (∀ c, In c categories → is_Some (homebrew (diff s) !! c)) →
  ∃ s', foldr (fun c rest => compare_homebrew c;; rest) k categories s
        = if forallb (category_ok old new) categories
          then k (homebrew_pushed old new categories s)
          else (Throw TypeError, s').
Proof.
  intros Ho Hn Hno Hnn. revert s Ho Hn.
  induction categories as [|c categories IH]; intros s Ho Hn Hs.
  - exists s. reflexivity.
  - cbn [foldr forallb]. rewrite run_bind.
    destruct (category_ok old new c) eqn:Hc.
    + rewrite compare_homebrew_run;
        [|rewrite ?Ho, ?Hn; auto using in_eq ..].
      rewrite Ho, Hn.
      match goal with |- context [push_homebrew c ?a ?r s] =>
        destruct (push_homebrew_inputs c a r s) as (Ho' & Hn' & _ & _ & Hdom);
        destruct (IH (push_homebrew c a r s)) as (s' & Hrun)
      end; [congruence|congruence| |].
      { intros c' Hc'. apply elem_of_dom. rewrite Hdom. apply elem_of_dom.
        apply Hs. right. exact Hc'. }
      exists s'. cbn [andb]. exact Hrun.
    + pose proof (compare_homebrew_throws c s) as Ht.
      rewrite Ho, Hn in Ht. specialize (Ht Hno Hnn Hc).
      destruct (compare_homebrew c s) as [o s1]. simpl in Ht. subst o.
      exists s1. reflexivity.
Qed.

Lemma homebrew_pushed_frame old new categories s :
  oldSetup (homebrew_pushed old new categories s) = oldSetup s
  ∧ newSetup (homebrew_pushed old new categories s) = newSetup s
  ∧ dom (homebrew (diff (homebrew_pushed old new categories s)))
    = dom (homebrew (diff s)).
Proof.
  revert s. induction categories as [|c categories IH]; intros s; [auto|].
  cbn [homebrew_pushed foldl].
  match goal with |- context [push_homebrew c ?a ?r s] =>
    destruct (push_homebrew_inputs c a r s) as (Ho & Hn & _ & _ & Hdom);
    destruct (IH (push_homebrew c a r s)) as (Ho' & Hn' & Hdom')
  end.
  unfold homebrew_pushed in *. repeat split; congruence.
Qed.

Lemma applications_ok_not_nullish doc :
  applications_ok doc = true → nullish doc = false.
Proof.
  unfold applications_ok. destruct (nullish doc); [discriminate|reflexivity].
Qed.

(** What a call returns, and when it throws. *)
Lemma diffSetups_outcome old new next :
  (diffSetups old new next).1
  = if diffable old new then Ok (report_of old new) else Throw TypeError.
Proof.
  unfold diffSetups, diffable. rewrite diff_body_eq.
  rewrite run_bind. unfold declare_diff at 1, modify at 1.
  rewrite run_bind, compare_applications_outcome.
  cbn [oldSetup newSetup set_diff entry].
  destruct (applications_ok old) eqn:Hao; [|reflexivity].
  destruct (applications_ok new) eqn:Han; [|reflexivity].
  cbn [andb].
  pose proof (applications_ok_not_nullish _ Hao) as Hno.
  pose proof (applications_ok_not_nullish _ Han) as Hnn.
  set (s1 := push_applications _ _ _ _).
  destruct (categories_loop (compare_globalPackages;; gets diff) old new
              ["formulae"; "casks"; "taps"] s1) as (s' & Hcat);
    [reflexivity|reflexivity|assumption|assumption| |].
  { intros c Hc. subst s1. cbn.
    repeat (destruct Hc as [<-|Hc]; [eexists; vm_compute; reflexivity|]).
    destruct Hc. }
  change packages_and_result
    with (foldr (fun c rest => compare_homebrew c;; rest)
            (compare_globalPackages;; gets diff) ["formulae"; "casks"; "taps"]).
  rewrite Hcat. clear Hcat.
  destruct (forallb (category_ok old new) _) eqn:Hcats; [|reflexivity].
  cbn [andb].
  set (s4 := homebrew_pushed old new _ s1).
  destruct (homebrew_pushed_frame old new ["formulae"; "casks"; "taps"] s1)
    as (Ho4 & Hn4 & Hdom4).
  fold s4 in Ho4, Hn4, Hdom4.
  destruct (managers_loop_outcome ["npm"; "bun"; "dart"; "ruby"] s4)
    as (s5 & Hloop & Hdiff).
  { rewrite Ho4. exact Hno. }
  { rewrite Hn4. exact Hnn. }
  { intros m Hm. unfold no_bucket. apply not_elem_of_dom. rewrite Hdom4.
    apply not_elem_of_dom. subst s1. cbn.
    repeat (destruct Hm as [<-|Hm]; [vm_compute; reflexivity|]). destruct Hm. }
  rewrite run_bind, compare_globalPackages_turns, Hloop.
  rewrite Ho4, Hn4 in *. cbn [oldSetup newSetup] in *.
  subst s1. cbn [oldSetup newSetup push_applications set_diff entry] in *.
  destruct (forallb (manager_turn_ok old new) _); [|reflexivity].
  cbn [fst gets]. rewrite Hdiff by reflexivity.
  reflexivity.
Qed.

End OutcomeOfDiff.

Module ReportedApplications.
Import Diff Passes Keyed DiffApplications KeyedByName Engine.


End ReportedApplications.




(** C1 (failing input). [old] has no global npm package, [new] has
    [typescript]; both documents pass validation.  The specification has
    [diff(old, new).globalPackages.npm.added = ["typescript"]]; the call
    throws a [TypeError] instead, in either direction:
    [comparePackages] pushes on [diff.homebrew[category]], and
    [diff.homebrew] has no property [npm]. *)
Theorem diffSetups_faults_on_global_package_change :
  let typescript :=
    object_literal 50 [("name", VStr "typescript"); ("version", VStr "5.4.5")] in
  let old := setup_with_npm 0 [] in
  let new := setup_with_npm 20 [typescript] in
  (validateSetup old).1 = Ok {| valid := true; errors := [] |}
  ∧ (validateSetup new).1 = Ok {| valid := true; errors := [] |}
  ∧ names_absent_from [] [typescript] = [VStr "typescript"]
  ∧ homebrew Diff.initial_diff !! "npm" = None
  ∧ (diffSetups old new 100).1 = Throw TypeError
  ∧ (diffSetups new old 100).1 = Throw TypeError.
Proof. cbv zeta. repeat split; vm_compute; reflexivity. Qed.

(** * Further properties of the schema module *)

(** ** The rules of [validateSetup] *)

Module RulesFacts.
Import Validate Checks Rules ValidateFacts PackageEntries FieldMessages.

Lemma run_when_push_last (b : bool) msg s :
  when b (errors_push msg) s = (Ok (), push_all (unless (negb b) msg) s).
Proof.
  destruct b; [reflexivity|]. simpl. rewrite push_all_nil. reflexivity.
Qed.

Lemma run_setup_member_bind {B} k (f : value → M vstore B) s :
  nullish (v_setup s) = false →
  (setup_member k ≫= f) s = f (field (v_setup s) k) s.
Proof.
  intros Hn. rewrite run_bind, setup_member_pure. unfold member.
  rewrite Hn. reflexivity.
Qed.

Lemma run_member_bind {B} v k (f : value → M vstore B) s :
  truthy v = true → (eval (member v k) ≫= f) s = f (field v k) s.
Proof.
  intros Ht. rewrite run_eval_bind. unfold member.
  rewrite (truthy_not_nullish _ Ht). reflexivity.
Qed.

Lemma check_system_run s :
  nullish (v_setup s) = false →
  check_system s = (Ok (), push_all (system_errors (v_setup s)) s).
Proof.
  intros Hn. unfold check_system, system_errors.
  rewrite run_setup_member_bind by assumption.
  destruct (truthy (field (v_setup s) "system")) eqn:Ht; cbn [negb].
  - rewrite run_member_bind, run_when_push by assumption.
    rewrite run_member_bind, run_when_push by assumption.
    rewrite run_member_bind, run_when_push_last by assumption.
    rewrite !push_all_app. unfold unless.
    repeat match goal with |- context [truthy ?v] => destruct (truthy v) end;
      reflexivity.
  - reflexivity.
Qed.

Lemma optional_array_run k msg s :
  nullish (v_setup s) = false →
  (applications ← setup_member k;
   when (truthy applications && negb (isArray applications))
     (errors_push msg)) s
  = (Ok (), push_all (unless (array_if_present (field (v_setup s) k)) msg) s).
Proof.
  intros Hn. rewrite run_setup_member_bind by assumption.
  rewrite run_when_push_last. unfold array_if_present.
  rewrite negb_andb, negb_involutive. reflexivity.
Qed.

Lemma check_applications_run s :
  nullish (v_setup s) = false →
  check_applications s = (Ok (), push_all (applications_errors (v_setup s)) s).
Proof. apply optional_array_run. Qed.

Lemma check_shellConfigs_run s :
  nullish (v_setup s) = false →
  check_shellConfigs s = (Ok (), push_all (shellConfigs_errors (v_setup s)) s).
Proof. apply optional_array_run. Qed.

Lemma check_githubRepos_run s :
  nullish (v_setup s) = false →
  check_githubRepos s = (Ok (), push_all (githubRepos_errors (v_setup s)) s).
Proof. apply optional_array_run. Qed.

Lemma check_globalPackages_run s :
  nullish (v_setup s) = false →
  check_globalPackages s
  = (Ok (), push_all (globalPackages_errors (v_setup s)) s).
Proof.
  intros Hn. unfold check_globalPackages, globalPackages_errors.
  rewrite run_setup_member_bind by assumption.
  destruct (truthy (field (v_setup s) "globalPackages")) eqn:Ht;
    [|simpl; rewrite push_all_nil; reflexivity].
  unfold when at 1. unfold managers. cbn [for_of fmap list_fmap mjoin list_join].
  repeat (rewrite run_bind, run_member_bind, run_when_push_last by assumption;
          cbn iota beta).
  rewrite run_ret, !push_all_app. unfold array_if_present.
  rewrite !negb_andb, !negb_involutive, app_nil_r. reflexivity.
Qed.

Lemma check_gitConfig_run s :
  nullish (v_setup s) = false →
  check_gitConfig s = (Ok (), push_all (gitConfig_errors (v_setup s)) s).
Proof.
  intros Hn. unfold check_gitConfig, gitConfig_errors.
  rewrite run_setup_member_bind by assumption.
  destruct (truthy (field (v_setup s) "gitConfig")) eqn:Ht;
    [|simpl; rewrite push_all_nil; reflexivity].
  unfold when at 1.
  rewrite run_member_bind, run_when_push by assumption.
  rewrite run_member_bind, run_when_push_last by assumption.
  rewrite push_all_app. unfold array_if_present, unless.
  destruct (truthy (field (field (v_setup s) "gitConfig") "user")),
    (String.eqb (typeof (field (field (v_setup s) "gitConfig") "user")) "object"),
    (truthy (field (field (v_setup s) "gitConfig") "settings")),
    (isArray (field (field (v_setup s) "gitConfig") "settings"));
    reflexivity.
Qed.

Lemma check_homebrew_total s :
  nullish (v_setup s) = false →
  check_homebrew s
  = if entries_readable (v_setup s)
    then (Ok (), push_all (homebrew_errors (v_setup s)) s)
    else (Throw TypeError, (check_homebrew s).2).
Proof.
  intros Hn. unfold entries_readable, homebrew_errors.
  destruct (truthy (field (v_setup s) "homebrew")) eqn:Ht; cbn [negb orb].
  - rewrite check_homebrew_run by assumption.
    rewrite run_bind.
    destruct (forallb not_nullish
                (items_of (field (field (v_setup s) "homebrew") "casks"))) eqn:Ec.
    + rewrite packages_loop_run by assumption.
      destruct (forallb not_nullish
                  (items_of (field (field (v_setup s) "homebrew") "formulae")))
        eqn:Ef; cbn [andb].
      * rewrite packages_loop_run by assumption.
        rewrite !push_all_app. reflexivity.
      * match goal with |- context [packages_loop ?k ?v ?s0] =>
          pose proof (packages_loop_throws k v s0 Ef) as Hthrow;
          destruct (packages_loop k v s0) as [o s1] end.
        simpl in Hthrow. subst o. reflexivity.
    + cbn [andb].
      match goal with |- context [packages_loop ?k ?v ?s0] =>
        pose proof (packages_loop_throws k v s0 Ec) as Hthrow;
        destruct (packages_loop k v s0) as [o s1] end.
      simpl in Hthrow. subst o. reflexivity.
  - unfold check_homebrew. rewrite run_setup_member_bind by assumption.
    rewrite Ht. reflexivity.
Qed.

Lemma v_setup_push_all msgs s : v_setup (push_all msgs s) = v_setup s.
Proof. reflexivity. Qed.

(** The checks run on a document that is not [null] or [undefined]. *)
Lemma checks_run s :
  nullish (v_setup s) = false →
  (checks s).1
  = if entries_readable (v_setup s) then
      let errors := v_errors s ++ all_errors (v_setup s) in
      Ok {| valid := Nat.eqb (length errors) 0; errors := errors |}
    else Throw TypeError.
Proof.
  intros Hn. unfold checks.
  rewrite (run_bind_ok _ _ _ _ _ (check_system_run s Hn)).
  rewrite run_bind, check_homebrew_total by assumption.
  rewrite v_setup_push_all.
  destruct (entries_readable (v_setup s)); [|reflexivity].
  rewrite push_all_app.
  erewrite run_bind_ok by (apply check_applications_run; exact Hn).
  rewrite v_setup_push_all, push_all_app.
  erewrite run_bind_ok by (apply check_globalPackages_run; exact Hn).
  rewrite v_setup_push_all, push_all_app.
  erewrite run_bind_ok by (apply check_shellConfigs_run; exact Hn).
  rewrite v_setup_push_all, push_all_app.
  erewrite run_bind_ok by (apply check_gitConfig_run; exact Hn).
  rewrite v_setup_push_all, push_all_app.
  erewrite run_bind_ok by (apply check_githubRepos_run; exact Hn).
  rewrite v_setup_push_all, push_all_app.
  rewrite run_gets_bind, run_ret. unfold all_errors.
  cbn [fst push_all v_errors]. rewrite <- !app_assoc. reflexivity.
Qed.

(** The rules do not read [version]. *)
Lemma all_errors_ignore_version setup setup' :
  (∀ k, k ≠ "version" → field setup' k = field setup k) →
  all_errors setup' = all_errors setup
  ∧ entries_readable setup' = entries_readable setup.
Proof.
  intros H.
  unfold all_errors, system_errors, homebrew_errors, applications_errors,
    globalPackages_errors, shellConfigs_errors, gitConfig_errors,
    githubRepos_errors, entries_readable.
  rewrite !H by discriminate. split; reflexivity.
Qed.

(** What a call returns, and when it throws. *)
Lemma validateSetup_outcome setup :
  (validateSetup setup).1
  = if checkable setup then
      Ok {| valid := Nat.eqb (length (all_errors setup)) 0;
            errors := all_errors setup |}
    else Throw TypeError.
Proof.
  unfold checkable. rewrite validateSetup_run.
  destruct (nullish setup) eqn:Hn; [reflexivity|]. cbn [negb andb].
  destruct (truthy (field setup "version")).
  - rewrite checks_run by assumption. reflexivity.
  - rewrite checks_run by (simpl; rewrite nullish_backfill; assumption).
    cbn [v_setup v_errors].
    destruct (all_errors_ignore_version setup (backfill setup)) as [-> ->];
      [intros k Hk; apply field_backfill; assumption|].
    reflexivity.
Qed.

End RulesFacts.

Module MessageFacts.
Import Validate Checks Rules ValidateFacts PackageEntries FieldMessages RulesFacts.

Lemma validateSetup_returns setup r :
  (validateSetup setup).1 = Ok r →
  checkable setup = true ∧ errors r = all_errors setup
  ∧ valid r = Nat.eqb (length (all_errors setup)) 0.
Proof.
  rewrite validateSetup_outcome. destruct (checkable setup); [|discriminate].
  intros [= <-]. auto.
Qed.

Lemma validateSetup_checkable setup :
  checkable setup = true → ∃ r, (validateSetup setup).1 = Ok r.
Proof. intros H. rewrite validateSetup_outcome, H. eauto. Qed.

(** Membership of a message, as a test. *)
Lemma In_mem msg (l : list string) :
  In msg l ↔ existsb (String.eqb msg) l = true.
Proof.
  rewrite existsb_exists. split.
  - intros H. exists msg. split; [assumption|apply String.eqb_refl].
  - intros (m & H & E). apply String.eqb_eq in E. subst. assumption.
Qed.

Lemma mem_package_errors kind idx items msg :
  kind = "cask" ∨ kind = "formula" →
  is_field_message msg = true →
  existsb (String.eqb msg) (package_errors kind idx items) = false.
Proof.
  intros Hk Hf. apply not_true_iff_false. rewrite <- In_mem. intros Hin.
  revert idx Hin. induction items as [|pkg rest IH]; intros idx; [intros []|].
  simpl. rewrite in_app_iff. intros [H|H]; [|eauto].
  destruct (truthy (field pkg "name")); [destruct H|].
  destruct H as [<-|[]].
  rewrite package_message_not_field in Hf by assumption. discriminate.
Qed.

Lemma mem_failed msg rules :
  existsb (String.eqb msg) (failed rules) = fails msg rules.
Proof.
  unfold failed, fails. induction rules as [|[m holds] rules IH]; [reflexivity|].
  cbn [mbind list_bind existsb fst snd]. rewrite existsb_app, IH.
  destruct holds; cbn [unless existsb negb];
    rewrite ?andb_false_r, ?andb_true_r, ?orb_false_r; reflexivity.
Qed.

(** The messages of a call, those about entries left out. *)
Lemma failed_field_rules setup :
  failed (field_rules setup)
  = system_errors setup
    ++ (if truthy (field setup "homebrew")
        then array_errors (field setup "homebrew")
        else ["Missing required field: homebrew"])
    ++ applications_errors setup ++ globalPackages_errors setup
    ++ shellConfigs_errors setup ++ gitConfig_errors setup
    ++ githubRepos_errors setup.
Proof.
  unfold field_rules, failed, system_errors, array_errors, applications_errors,
    globalPackages_errors, shellConfigs_errors, gitConfig_errors,
    githubRepos_errors, manager_message, managers.
  cbv zeta.
  destruct (truthy (field setup "system")),
    (truthy (field setup "homebrew")),
    (truthy (field setup "globalPackages")),
    (truthy (field setup "gitConfig"));
    cbn [mbind list_bind fmap list_fmap mjoin list_join fst snd negb orb
         unless app];
    rewrite ?app_nil_r, <- ?app_assoc; reflexivity.
Qed.

(** A message about a field is among the messages of a call exactly
    when its rule fails. *)
Lemma in_all_errors setup msg :
  is_field_message msg = true →
  In msg (all_errors setup) ↔ fails msg (field_rules setup) = true.
Proof.
  intros Hf. rewrite In_mem, <- mem_failed, failed_field_rules.
  unfold all_errors, homebrew_errors. rewrite !existsb_app.
  destruct (truthy (field setup "homebrew")); [|reflexivity].
  rewrite !existsb_app, !mem_package_errors by auto.
  rewrite !orb_false_r. reflexivity.
Qed.

Lemma manager_message_inj m m' :
  manager_message m = manager_message m' → m = m'.
Proof.
  unfold manager_message. intros H.
  apply (inj (String.app "Invalid field: globalPackages.")) in H.
  apply string_app_inj_r in H. assumption.
Qed.

End MessageFacts.

(** Decides whether a given message about a field is among the messages
    of a call. *)
Ltac field_message_cases :=
  rewrite MessageFacts.in_all_errors by reflexivity;
  unfold Rules.field_rules; cbv zeta;
  try match goal with
  | |- context [String.eqb (typeof ?v) ?s] =>
      generalize (String.eqb (typeof v) s); intro
  end;
  cbv -[truthy field isArray typeof];
  repeat match goal with
  | |- context [truthy ?v] => destruct (truthy v)
  | |- context [isArray ?v] => destruct (isArray v)
  | b : bool |- _ => destruct b
  end;
  intuition discriminate.

(** On a document it returns on, [validateSetup] reports a missing
    required field exactly when the field is falsy; the three fields of
    [system] are looked at only when [system] is there. *)
Theorem validateSetup_required_fields (setup : value) :
  Rules.checkable setup = true →
  ∃ r, (validateSetup setup).1 = Ok r ∧
  (let system := field setup "system" in
    (In "Missing required field: system" (errors r) ↔ truthy system = false)
    ∧ (In "Missing required field: system.hostname" (errors r)
       ↔ truthy system = true ∧ truthy (field system "hostname") = false)
    ∧ (In "Missing required field: system.macosVersion" (errors r)
       ↔ truthy system = true ∧ truthy (field system "macosVersion") = false)
    ∧ (In "Missing required field: system.captureDate" (errors r)
       ↔ truthy system = true ∧ truthy (field system "captureDate") = false)
    ∧ (In "Missing required field: homebrew" (errors r)
       ↔ truthy (field setup "homebrew") = false)).
Proof.
  intros Hc. destruct (MessageFacts.validateSetup_checkable _ Hc) as [r Hr].
  exists r. split; [exact Hr|].
  destruct (MessageFacts.validateSetup_returns _ _ Hr) as (_ & -> & _).
  cbv zeta. repeat match goal with |- _ ∧ _ => split end.
  all: field_message_cases.
Qed.

(** On a document it returns on, [validateSetup] reports a field that
    must be an array exactly when the field is not one: always for the
    three collections of a [homebrew] that is there, and only when the
    field is truthy for [applications], [shellConfigs], [githubRepos]
    and [gitConfig.settings]; [gitConfig.user] must be of type
    object when it is truthy. *)
Theorem validateSetup_array_fields (setup : value) :
  Rules.checkable setup = true →
  ∃ r, (validateSetup setup).1 = Ok r ∧
  (let homebrew := field setup "homebrew" in
    let gitConfig := field setup "gitConfig" in
    let present_not_array v := truthy v = true ∧ isArray v = false in
    (In "Invalid field: homebrew.taps must be an array" (errors r)
       ↔ truthy homebrew = true ∧ isArray (field homebrew "taps") = false)
    ∧ (In "Invalid field: homebrew.casks must be an array" (errors r)
       ↔ truthy homebrew = true ∧ isArray (field homebrew "casks") = false)
    ∧ (In "Invalid field: homebrew.formulae must be an array" (errors r)
       ↔ truthy homebrew = true ∧ isArray (field homebrew "formulae") = false)
    ∧ (In "Invalid field: applications must be an array" (errors r)
       ↔ present_not_array (field setup "applications"))
    ∧ (In "Invalid field: shellConfigs must be an array" (errors r)
       ↔ present_not_array (field setup "shellConfigs"))
    ∧ (In "Invalid field: githubRepos must be an array" (errors r)
       ↔ present_not_array (field setup "githubRepos"))
    ∧ (In "Invalid field: gitConfig.settings must be an array" (errors r)
       ↔ truthy gitConfig = true
         ∧ present_not_array (field gitConfig "settings"))
    ∧ (In "Invalid field: gitConfig.user must be an object" (errors r)
       ↔ truthy gitConfig = true ∧ truthy (field gitConfig "user") = true
         ∧ String.eqb (typeof (field gitConfig "user")) "object" = false)).
Proof.
  intros Hc. destruct (MessageFacts.validateSetup_checkable _ Hc) as [r Hr].
  exists r. split; [exact Hr|].
  destruct (MessageFacts.validateSetup_returns _ _ Hr) as (_ & -> & _).
  cbv zeta. repeat match goal with |- _ ∧ _ => split end.
  all: field_message_cases.
Qed.

(** On a document it returns on, [validateSetup] checks the package
    lists of the four managers [npm], [bun], [dart] and [ruby], each
    only when it is truthy, and of no other manager. *)
Theorem validateSetup_global_package_managers
    (setup : value) (manager : string) :
  Rules.checkable setup = true →
  ∃ r, (validateSetup setup).1 = Ok r ∧
  (let globalPackages := field setup "globalPackages" in
    let message :=
      "Invalid field: globalPackages." +:+ manager +:+ " must be an array" in
    (In manager ["npm"; "bun"; "dart"; "ruby"] →
     (In message (errors r)
      ↔ truthy globalPackages = true
        ∧ truthy (field globalPackages manager) = true
        ∧ isArray (field globalPackages manager) = false))
    ∧ (¬ In manager ["npm"; "bun"; "dart"; "ruby"] → ¬ In message (errors r))).
Proof.
  intros Hc. destruct (MessageFacts.validateSetup_checkable _ Hc) as [r Hr].
  exists r. split; [exact Hr|].
  destruct (MessageFacts.validateSetup_returns _ _ Hr) as (_ & -> & _).
  cbv zeta. split.
  - intros [<-|[<-|[<-|[<-|[]]]]]; field_message_cases.
  - intros Hm. rewrite MessageFacts.in_all_errors by reflexivity.
    unfold Rules.fails. rewrite existsb_exists.
    intros ([msg holds] & Hin & Heq). cbn [fst snd] in Heq.
    apply andb_true_iff in Heq as [Heq _]. apply String.eqb_eq in Heq.
    unfold Rules.field_rules in Hin. cbv zeta in Hin. cbn [In] in Hin.
    repeat (destruct Hin as [[= <- _]|Hin];
            [first [ discriminate Heq
                   | apply Hm;
                     first
                       [ apply (MessageFacts.manager_message_inj _ "npm") in Heq
                       | apply (MessageFacts.manager_message_inj _ "bun") in Heq
                       | apply (MessageFacts.manager_message_inj _ "dart") in Heq
                       | apply (MessageFacts.manager_message_inj _ "ruby") in Heq ];
                     rewrite Heq; cbn [In]; auto ]|]).
    destruct Hin.
Qed.

Module OutcomeFacts.
Import Validate Checks Rules ValidateFacts RulesFacts.

Lemma forallb_not_nullish_false items :
  forallb not_nullish items = false
  ↔ ∃ i entry, items !! i = Some entry ∧ nullish entry = true.
Proof.
  induction items as [|x items IH]; simpl.
  - split; [discriminate|]. intros (i & e & H & _). destruct i; discriminate.
  - rewrite andb_false_iff, IH. unfold not_nullish. rewrite negb_false_iff.
    split.
    + intros [H|(i & e & H & He)]; [exists 0, x; auto|exists (S i), e; auto].
    + intros ([|i] & e & H & He); [left; simpl in H; congruence|].
      right. exists i, e. auto.
Qed.

(** The store a call leaves, but for the messages. *)
Lemma console_after_validateSetup setup :
  v_console (validateSetup setup).2
  = if nullish setup || truthy (field setup "version") then []
    else [legacy_warning].
Proof.
  rewrite validateSetup_run.
  destruct (nullish setup); [reflexivity|].
  destruct (truthy (field setup "version")); cbn [orb];
    match goal with |- context [checks ?s] =>
      destruct (checks_only s) as (_ & -> & _) end; reflexivity.
Qed.

End OutcomeFacts.

(** [validateSetup] throws exactly on a document that is [null] or
    [undefined], and on one whose [homebrew.casks] or
    [homebrew.formulae] holds a [null] or [undefined] entry. *)
Theorem validateSetup_throws_exactly (setup : value) :
  (validateSetup setup).1 = Throw TypeError
  ↔ nullish setup = true
    ∨ (truthy (field setup "homebrew") = true
       ∧ ∃ c i entry,
           Checks.items_of (field (field setup "homebrew") (collection_field c))
             !! i = Some entry
           ∧ nullish entry = true).
Proof.
  rewrite RulesFacts.validateSetup_outcome.
  unfold Rules.checkable, Rules.entries_readable.
  destruct (nullish setup); cbn [negb andb]; [intuition|].
  destruct (truthy (field setup "homebrew")); cbn [negb orb].
  - destruct (forallb _ _) eqn:Ec; cbn [andb];
      [destruct (forallb _ (Checks.items_of (field _ "formulae"))) eqn:Ef|].
    + split; [discriminate|]. intros [?|[_ (c & i & e & H & He)]]; [discriminate|].
      assert (forallb Checks.not_nullish
                (Checks.items_of
                   (field (field setup "homebrew") (collection_field c)))
              = false) as Hf
        by (apply OutcomeFacts.forallb_not_nullish_false; eauto).
      destruct c; simpl in Hf; congruence.
    + split; [intros _|reflexivity]. right. split; [reflexivity|].
      apply OutcomeFacts.forallb_not_nullish_false in Ef as (i & e & H).
      exists Formulae, i, e. exact H.
    + split; [intros _|reflexivity]. right. split; [reflexivity|].
      apply OutcomeFacts.forallb_not_nullish_false in Ec as (i & e & H).
      exists Casks, i, e. exact H.
  - split; [discriminate|]. intros [?|[? _]]; discriminate.
Qed.

(** The messages of [validateSetup] come in the order of the checks:
    [system], [homebrew], [applications], [globalPackages],
    [shellConfigs], [gitConfig], [githubRepos]. *)
Theorem validateSetup_messages_in_order (setup : value) :
  Rules.checkable setup = true →
  ∃ r, (validateSetup setup).1 = Ok r ∧
  (errors r
    = Rules.system_errors setup ++ Rules.homebrew_errors setup
      ++ Rules.applications_errors setup ++ Rules.globalPackages_errors setup
      ++ Rules.shellConfigs_errors setup ++ Rules.gitConfig_errors setup
      ++ Rules.githubRepos_errors setup).
Proof.
  intros Hc. destruct (MessageFacts.validateSetup_checkable _ Hc) as [r Hr].
  exists r. split; [exact Hr|].
  destruct (MessageFacts.validateSetup_returns _ _ Hr) as (_ & -> & _).
  reflexivity.
Qed.

(** Validating the document again after [validateSetup] has returned
    gives the same result and leaves the document as it is; for an object
    the second call writes no warning. *)
Theorem validateSetup_twice (setup : value) :
  Rules.checkable setup = true →
  ∃ r, (validateSetup setup).1 = Ok r ∧
  (let after := v_setup (validateSetup setup).2 in
    (validateSetup after).1 = Ok r
    ∧ v_setup (validateSetup after).2 = after
    ∧ (typeof setup = "object" → v_console (validateSetup after).2 = [])).
Proof.
  intros Hc. destruct (MessageFacts.validateSetup_checkable _ Hc) as [r Hr].
  exists r. split; [exact Hr|].
  cbv zeta.
  pose proof (ValidateFacts.validateSetup_returns_not_nullish _ _ Hr) as Hn.
  split; [|split].
  - rewrite <- Hr. apply ValidateFacts.validateSetup_ignores_version.
    + apply ValidateFacts.nullish_after_validateSetup.
    + intros k Hk. apply ValidateFacts.field_after_validateSetup. assumption.
  - rewrite !ValidateFacts.setup_after_validateSetup. rewrite Hn. cbn [orb].
    destruct (truthy (field setup "version")) eqn:Hv.
    + rewrite Hn, Hv. reflexivity.
    + rewrite ValidateFacts.nullish_backfill, Hn. cbn [orb].
      destruct setup; try discriminate; simpl; rewrite ?Hv; try reflexivity.
      all: unfold field; simpl; rewrite lookup_insert_eq; reflexivity.
  - intros Ho. rewrite OutcomeFacts.console_after_validateSetup.
    rewrite ValidateFacts.setup_after_validateSetup, Hn. cbn [orb].
    destruct (truthy (field setup "version")) eqn:Hv.
    + rewrite Hn, Hv. reflexivity.
    + rewrite ValidateFacts.nullish_backfill, Hn. cbn [orb].
      destruct setup; try discriminate; unfold field; simpl;
        rewrite lookup_insert_eq; reflexivity.
Qed.

(** [validateSetup] writes the warning about the legacy format, once,
    when the document has no truthy [version], and writes nothing
    else. *)
Theorem validateSetup_warns_once (setup : value) :
  v_console (validateSetup setup).2
  = if nullish setup || truthy (field setup "version") then []
    else [Validate.legacy_warning].
Proof. apply OutcomeFacts.console_after_validateSetup. Qed.

(** The result of [validateSetup] depends on seven properties of the
    document only: no other section of a document is validated. *)
Theorem validateSetup_reads_seven_sections (setup setup' : value) :
  nullish setup' = nullish setup →
  (∀ k, In k validated_sections → field setup' k = field setup k) →
  (validateSetup setup').1 = (validateSetup setup).1.
Proof.
  intros Hn H. rewrite !RulesFacts.validateSetup_outcome.
  unfold Rules.checkable, Rules.entries_readable, Rules.all_errors,
    Rules.system_errors, Rules.homebrew_errors, Rules.applications_errors,
    Rules.globalPackages_errors, Rules.shellConfigs_errors,
    Rules.gitConfig_errors, Rules.githubRepos_errors.
  rewrite Hn. rewrite !H by (unfold validated_sections; cbn [In]; tauto).
  reflexivity.
Qed.

(** ** Reports of [diffSetups] *)

Module SetFacts.
Import Diff Passes Engine.

Lemma strict_equal_refl a : strict_equal a a = true.
Proof.
  destruct a; simpl; auto using Z.eqb_refl, String.eqb_refl, Nat.eqb_refl.
  destruct b; reflexivity.
Qed.

Lemma strict_equal_sym a b : strict_equal a b = strict_equal b a.
Proof.
  destruct a, b; simpl; auto using Z.eqb_sym, String.eqb_sym, Nat.eqb_sym.
  destruct b, b0; reflexivity.
Qed.

Lemma strict_equal_trans a b c :
  strict_equal a b = true → strict_equal b c = true → strict_equal a c = true.
Proof.
  destruct a, b; simpl; try discriminate; destruct c; simpl; try discriminate;
    auto.
  - rewrite !Bool.eqb_true_iff. congruence.
  - rewrite !Z.eqb_eq. congruence.
  - rewrite !String.eqb_eq. congruence.
  - rewrite !Nat.eqb_eq. congruence.
  - rewrite !Nat.eqb_eq. congruence.
Qed.

Lemma strict_equal_congr a b c :
  strict_equal a b = true → strict_equal a c = strict_equal b c.
Proof.
  intros H. destruct (strict_equal b c) eqn:E.
  - eapply strict_equal_trans; eassumption.
  - destruct (strict_equal a c) eqn:E'; [|reflexivity].
    rewrite strict_equal_sym in H.
    rewrite (strict_equal_trans _ _ _ H E') in E. discriminate.
Qed.

Lemma Set_has_add x s k :
  Set_has (Set_add x s) k = Set_has s k || strict_equal x k.
Proof.
  unfold Set_add. destruct (Set_has s x) eqn:Hx.
  - destruct (strict_equal x k) eqn:Hk; [|rewrite orb_false_r; reflexivity].
    rewrite orb_true_r. unfold Set_has in *.
    apply existsb_exists in Hx as (y & Hy & Hyx).
    apply existsb_exists. exists y. split; [assumption|].
    eapply strict_equal_trans; eassumption.
  - unfold Set_has. rewrite existsb_app. simpl. rewrite orb_false_r.
    reflexivity.
Qed.

Lemma Set_has_fold keys acc k :
  Set_has (fold_left (fun s x => Set_add x s) keys acc) k
  = Set_has acc k || existsb (fun x => strict_equal x k) keys.
Proof.
  revert acc. induction keys as [|x keys IH]; intros acc; simpl.
  - rewrite orb_false_r. reflexivity.
  - rewrite IH, Set_has_add, orb_assoc. reflexivity.
Qed.

(** A set built from a list has the keys of the list. *)
Lemma Set_has_new_Set keys k :
  Set_has (new_Set keys) k = existsb (fun x => strict_equal x k) keys.
Proof. unfold new_Set. rewrite Set_has_fold. reflexivity. Qed.

Lemma Set_has_own_key (f : value → value) pkgs p :
  In p pkgs → Set_has (new_Set (f <$> pkgs)) (f p) = true.
Proof.
  intros Hp. rewrite Set_has_new_Set. apply existsb_exists.
  exists (f p). split; [|apply strict_equal_refl].
  apply list_elem_of_In, list_elem_of_fmap. exists p.
  split; [reflexivity|apply list_elem_of_In; assumption].
Qed.

Lemma pushed_self pkgs : pushed pkgs pkgs = [].
Proof.
  unfold pushed, key_set.
  assert (∀ l, (∀ p, In p l → In p pkgs) →
            List.filter
              (fun p => negb (Set_has (new_Set (key <$> pkgs)) (key p))) l = [])
    as H.
  { induction l as [|p l IH]; intros Hl; [reflexivity|].
    cbn [List.filter]. rewrite Set_has_own_key by (apply Hl; left; reflexivity).
    cbn [negb]. apply IH. intros q Hq. apply Hl. right. exact Hq. }
  rewrite H by auto. reflexivity.
Qed.

Lemma package_reference_names p :
  package_reference p = true →
  key p = package_name p ∧ reported p = package_name p.
Proof.
  unfold package_reference, key, reported, package_name.
  destruct p; simpl; try discriminate; auto;
    unfold field; simpl; intros ->; auto.
Qed.

Lemma pushed_names others pkgs :
  forallb package_reference others = true →
  forallb package_reference pkgs = true →
  pushed others pkgs = names_absent_from others pkgs.
Proof.
  intros Ho Hp. unfold pushed, names_absent_from, key_set.
  assert (key <$> others = package_name <$> others) as ->.
  { clear Hp. induction others as [|o others IH]; [reflexivity|].
    cbn [forallb] in Ho. apply andb_true_iff in Ho as [Ho Hrest].
    cbn [fmap list_fmap]. f_equal.
    - apply package_reference_names. assumption.
    - apply IH. assumption. }
  induction pkgs as [|p pkgs IH]; [reflexivity|].
  cbn [forallb] in Hp. apply andb_true_iff in Hp as [Hp Hrest].
  destruct (package_reference_names p Hp) as [Hk Hr].
  cbn [List.filter fmap list_fmap]. rewrite Set_has_new_Set, Hk.
  assert (existsb (fun x => strict_equal x (package_name p))
            (package_name <$> others)
          = existsb (strict_equal (package_name p)) (package_name <$> others))
    as ->.
  { generalize (package_name <$> others). intros l.
    induction l as [|x l IHl]; [reflexivity|].
    simpl. rewrite IHl, strict_equal_sym. reflexivity. }
  destruct (existsb _ _); cbn [negb fmap list_fmap]; rewrite <- IH by assumption;
    [reflexivity|].
  rewrite Hr. reflexivity.
Qed.

End SetFacts.

Module MapFacts.
Import Diff Passes Engine SetFacts.

Lemma Map_set_keys k v m :
  (Map_set k v m).*1
  = if existsb (fun e => strict_equal e.1 k) m then m.*1 else m.*1 ++ [k].
Proof.
  induction m as [|[k' v'] m IH]; [reflexivity|].
  cbn [Map_set existsb fst]. destruct (strict_equal k' k); [reflexivity|].
  cbn [orb fmap list_fmap fst]. rewrite IH.
  destruct (existsb _ m); reflexivity.
Qed.

Lemma distinct_snoc l k :
  Keyed.distinct l = true → existsb (fun x => strict_equal x k) l = false →
  Keyed.distinct (l ++ [k]) = true.
Proof.
  induction l as [|x l IH]; [reflexivity|].
  cbn [Keyed.distinct existsb app].
  rewrite andb_true_iff, orb_false_iff, negb_true_iff.
  intros [Hx Hl] [Hxk Hk]. rewrite IH by assumption.
  rewrite existsb_app, Hx. simpl. rewrite Hxk. reflexivity.
Qed.

Lemma Map_set_distinct k v m :
  Keyed.distinct m.*1 = true → Keyed.distinct (Map_set k v m).*1 = true.
Proof.
  intros H. rewrite Map_set_keys.
  destruct (existsb _ m) eqn:E; [assumption|].
  apply distinct_snoc; [assumption|].
  rewrite <- E. clear. induction m as [|e m IH]; [reflexivity|].
  cbn [existsb fmap list_fmap]. rewrite IH. reflexivity.
Qed.

(** The keys of a [Map] are pairwise different. *)
Lemma new_Map_distinct_keys entries : Keyed.distinct (new_Map entries).*1 = true.
Proof.
  unfold new_Map.
  assert (Keyed.distinct (@nil (value * value)).*1 = true) as Hacc
    by reflexivity.
  revert Hacc. generalize (@nil (value * value)) as acc.
  induction entries as [|e entries IH]; intros acc Hacc; simpl; [assumption|].
  apply IH, Map_set_distinct, Hacc.
Qed.

Lemma Map_lookup_own_entry m e :
  Keyed.distinct m.*1 = true → In e m →
  Map_has m e.1 = true ∧ Map_get m e.1 = e.2.
Proof.
  unfold Map_has, Map_get. induction m as [|e0 m IH]; [intros _ []|].
  cbn [fmap list_fmap Keyed.distinct existsb find].
  rewrite andb_true_iff, negb_true_iff. intros [H0 Hm] [->|He].
  - rewrite strict_equal_refl. auto.
  - assert (strict_equal e0.1 e.1 = false) as ->.
    { destruct (strict_equal e0.1 e.1) eqn:E; [|reflexivity].
      rewrite <- H0. symmetry. apply existsb_exists. exists e.1.
      split; [|assumption].
      apply list_elem_of_In, list_elem_of_fmap. exists e.
      split; [reflexivity|apply list_elem_of_In; assumption]. }
    cbn [orb]. auto.
Qed.

Lemma absent_from_self m : Keyed.distinct m.*1 = true → absent_from m m = [].
Proof.
  intros Hm. unfold absent_from.
  assert (∀ l, (∀ e, In e l → In e m) →
            List.filter (fun e => negb (Map_has m e.1)) l = []) as H.
  { induction l as [|e l IH]; intros Hl; [reflexivity|].
    cbn [List.filter].
    destruct (Map_lookup_own_entry m e Hm (Hl e (or_introl eq_refl))) as [-> _].
    cbn [negb]. apply IH. intros e' He'. apply Hl. right. exact He'. }
  rewrite H by auto. reflexivity.
Qed.

Lemma updates_self m : Keyed.distinct m.*1 = true → updates m m = [].
Proof.
  intros Hm. unfold updates.
  assert (∀ l, (∀ e, In e l → In e m) → omap (update_of m) l = []) as H.
  { induction l as [|e l IH]; intros Hl; [reflexivity|].
    cbn [omap list_omap]. unfold update_of at 1.
    destruct (Map_lookup_own_entry m e Hm (Hl e (or_introl eq_refl)))
      as [-> ->].
    rewrite strict_equal_refl. cbn [negb andb]. apply IH.
    intros e' He'. apply Hl. right. exact He'. }
  apply H. auto.
Qed.

Lemma report_of_self doc : report_of doc doc = initial_diff.
Proof.
  unfold report_of, package_changes. cbv zeta.
  rewrite !pushed_self.
  rewrite absent_from_self, updates_self by apply new_Map_distinct_keys.
  reflexivity.
Qed.

End MapFacts.

Module Returned.
Import Engine.

Lemma diffSetups_returned old new next r :
  (diffSetups old new next).1 = Ok r →
  diffable old new = true ∧ r = report_of old new.
Proof.
  rewrite OutcomeOfDiff.diffSetups_outcome.
  destruct (diffable old new); [|discriminate]. intros [= <-]. auto.
Qed.

Lemma lookup_report_of old new category :
  In category ["formulae"; "casks"; "taps"] →
  homebrew (report_of old new) !! category
  = Some (package_changes (homebrew_packages old category)
            (homebrew_packages new category)).
Proof.
  intros H. unfold report_of. cbn [homebrew].
  repeat (destruct H as [<-|H]; [reflexivity|]). destruct H.
Qed.

Lemma diffable_packages old new category :
  diffable old new = true → In category ["formulae"; "casks"; "taps"] →
  forallb Checks.not_nullish (homebrew_packages old category) = true
  ∧ forallb Checks.not_nullish (homebrew_packages new category) = true.
Proof.
  unfold diffable. rewrite !andb_true_iff. intros [[_ Hc] _] Hin.
  rewrite forallb_forall in Hc. specialize (Hc _ Hin).
  unfold category_ok, entries_ok in Hc. rewrite !andb_true_iff in Hc.
  unfold homebrew_packages. tauto.
Qed.

Lemma category_ok_sym old new category :
  category_ok old new category = category_ok new old category.
Proof.
  unfold category_ok.
  destruct (negb (nullish (field old "homebrew"))),
    (negb (nullish (field new "homebrew"))),
    (entries_ok (field (field old "homebrew") category)),
    (entries_ok (field (field new "homebrew") category)); reflexivity.
Qed.

Lemma manager_turn_ok_sym old new manager :
  manager_turn_ok old new manager = manager_turn_ok new old manager.
Proof.
  unfold manager_turn_ok, nothing_pushed.
  destruct (negb (nullish (field old "globalPackages"))),
    (negb (nullish (field new "globalPackages"))),
    (manager_ok old manager), (manager_ok new manager); cbn [andb];
    try reflexivity.
  apply andb_comm.
Qed.

Lemma diffable_sym old new :
  diffable old new = diffable new old.
Proof.
  unfold diffable. cbn [forallb].
  rewrite !(category_ok_sym old new), !(manager_turn_ok_sym old new).
  rewrite (andb_comm (applications_ok old)). reflexivity.
Qed.

End Returned.

(** [diffSetups] returns exactly when both documents have an array of
    applications without [null] entries, every Homebrew collection of
    both is such an array, and every manager's turn has two arrays to
    work on and no name to report; what it returns is then
    [Engine.report_of], and it throws a [TypeError] otherwise. *)
Theorem diffSetups_returns_exactly (old new : value) (next : nat) :
  ((∃ r, (diffSetups old new next).1 = Ok r)
   ↔ Engine.applications_ok old = true ∧ Engine.applications_ok new = true
     ∧ (∀ category, In category ["formulae"; "casks"; "taps"] →
          Engine.category_ok old new category = true)
     ∧ (∀ manager, In manager ["npm"; "bun"; "dart"; "ruby"] →
          Engine.manager_turn_ok old new manager = true))
  ∧ ((diffSetups old new next).1 = Throw TypeError
     ∨ (diffSetups old new next).1 = Ok (Engine.report_of old new)).
Proof.
  rewrite OutcomeOfDiff.diffSetups_outcome.
  assert (Engine.diffable old new = true
          ↔ Engine.applications_ok old = true
            ∧ Engine.applications_ok new = true
            ∧ (∀ category, In category ["formulae"; "casks"; "taps"] →
                 Engine.category_ok old new category = true)
            ∧ (∀ manager, In manager ["npm"; "bun"; "dart"; "ruby"] →
                 Engine.manager_turn_ok old new manager = true)) as <-.
  { unfold Engine.diffable. rewrite !andb_true_iff, !forallb_forall. tauto. }
  destruct (Engine.diffable old new); split; auto.
  - split; [reflexivity|eauto].
  - split; [intros [r H]; discriminate H|discriminate].
Qed.

(** For each Homebrew collection, when every entry is a name or
    carries one, the report lists as added the names of the new
    document that the old one lacks, and as removed the names of the old
    one that the new one lacks. *)
Theorem diffSetups_homebrew_report
    (old new : value) (next : nat) (category : string) :
  Engine.diffable old new = true →
  In category ["formulae"; "casks"; "taps"] →
  let oldPkgs := Engine.homebrew_packages old category in
  let newPkgs := Engine.homebrew_packages new category in
  forallb package_reference oldPkgs = true →
  forallb package_reference newPkgs = true →
  ∃ r, (diffSetups old new next).1 = Ok r
    ∧ homebrew r !! category
      = Some {| added := names_absent_from oldPkgs newPkgs;
                removed := names_absent_from newPkgs oldPkgs |}.
Proof.
  intros Hd Hin oldPkgs newPkgs Ho Hn.
  exists (Engine.report_of old new).
  rewrite OutcomeOfDiff.diffSetups_outcome, Hd. split; [reflexivity|].
  rewrite Returned.lookup_report_of by assumption.
  unfold Engine.package_changes. fold oldPkgs newPkgs.
  rewrite !SetFacts.pushed_names by assumption. reflexivity.
Qed.

(** Swapping the two documents swaps what is added and what is removed
    in each Homebrew collection, and [diffSetups] returns on the
    swapped pair as well. *)
Theorem diffSetups_homebrew_symmetry
    (A B : value) (next next' : nat) (category : string) :
  Engine.diffable A B = true →
  In category ["formulae"; "casks"; "taps"] →
  ∃ r r' c c',
    (diffSetups A B next).1 = Ok r
    ∧ (diffSetups B A next').1 = Ok r'
    ∧ homebrew r !! category = Some c
    ∧ homebrew r' !! category = Some c'
    ∧ added c = removed c' ∧ removed c = added c'.
Proof.
  intros Hd Hin.
  rewrite !OutcomeOfDiff.diffSetups_outcome, Hd.
  rewrite Returned.diffable_sym, Hd.
  eexists _, _, _, _. split; [reflexivity|]. split; [reflexivity|].
  rewrite !Returned.lookup_report_of by assumption.
  repeat split; reflexivity.
Qed.

(** Comparing a document with itself reports no change at all. *)
Theorem diffSetups_same_document (A : value) (next : nat) :
  Engine.diffable A A = true →
  (diffSetups A A next).1 = Ok Diff.initial_diff.
Proof.
  intros Hd. rewrite OutcomeOfDiff.diffSetups_outcome, Hd.
  rewrite MapFacts.report_of_self. reflexivity.
Qed.

(** The report depends on three sections of the two documents only:
    [applications], [homebrew] and [globalPackages]. *)
Theorem diffSetups_reads_three_sections
    (old new old' new' : value) (next next' : nat) :
  nullish old' = nullish old → nullish new' = nullish new →
  (∀ k, In k compared_sections →
     field old' k = field old k ∧ field new' k = field new k) →
  (diffSetups old' new' next').1 = (diffSetups old new next).1.
Proof.
  intros Ho Hn H. rewrite !OutcomeOfDiff.diffSetups_outcome.
  assert (field old' "applications" = field old "applications"
          ∧ field new' "applications" = field new "applications")
    as [Hao Han] by (apply H; cbn; tauto).
  assert (field old' "homebrew" = field old "homebrew"
          ∧ field new' "homebrew" = field new "homebrew")
    as [Hho Hhn] by (apply H; cbn; tauto).
  assert (field old' "globalPackages" = field old "globalPackages"
          ∧ field new' "globalPackages" = field new "globalPackages")
    as [Hgo Hgn] by (apply H; cbn; tauto).
  unfold Engine.diffable, Engine.report_of, Engine.applications_ok,
    Engine.category_ok, Engine.manager_turn_ok, Engine.manager_ok,
    Engine.applications_map, Engine.homebrew_packages,
    Globals.global_packages.
  rewrite Ho, Hn, Hao, Han. cbn [forallb].
  rewrite Hho, Hhn, Hgo, Hgn. reflexivity.
Qed.

(** Two documents of [createEmptySetup] compare without any change,
    whenever they were created. *)
Theorem diffSetups_of_factory_documents
    (now now' : Date) (fresh fresh' next : nat) :
  (diffSetups (createEmptySetup now fresh) (createEmptySetup now' fresh') next).1
  = Ok Diff.initial_diff.
Proof.
  rewrite OutcomeOfDiff.diffSetups_outcome.
  generalize (toISOString now), (toISOString now'). intros t t'.
  vm_compute. reflexivity.
Qed.

(** * Properties of the command-line tools *)

Module ToolFacts.
Import Tool ToolNotions.

Lemma run_then {A B} (m : P A) (f : A → P B) c :
  (m ≫= f) c =
  match m c with
  | (Returned a, c') => f a c'
  | (Uncaught e, c') => (Uncaught e, c')
  | (Exited code, c') => (Exited code, c')
  end.
Proof. reflexivity. Qed.

Lemma run_try_bind {A B} (o : outcome A) (f : A → P B) c :
  (try o ≫= f) c =
  match o with
  | Ok a => f a c
  | Throw e => (Uncaught e, c)
  end.
Proof. destruct o; reflexivity. Qed.

Lemma run_log_bind {B} line (f : unit → P B) c :
  (console_log line ≫= f) c
  = f () {| stdout := stdout c ++ [line]; stderr := stderr c;
            executed := executed c |}.
Proof. reflexivity. Qed.

Lemma run_bind_returned {A B} (m : P A) (f : A → P B) c b c' :
  (m ≫= f) c = (Returned b, c') →
  ∃ a c1, m c = (Returned a, c1) ∧ f a c1 = (Returned b, c').
Proof.
  rewrite run_then. destruct (m c) as [[a|e|code] c1]; [eauto|discriminate..].
Qed.

Section Logs.
Context (Q : string → Prop).

Lemma logs_ret {A} (a : A) : logs Q (mret a).
Proof. intros c. exists []. rewrite app_nil_r. auto. Qed.

Lemma logs_try {A} (o : outcome A) : logs Q (try o).
Proof. intros c. exists []. rewrite app_nil_r. auto. Qed.

Lemma logs_exit {A} code : logs Q (process_exit (A := A) code).
Proof. intros c. exists []. rewrite app_nil_r. auto. Qed.

Lemma logs_console_log line : Q line → logs Q (console_log line).
Proof. intros H c. exists [line]. auto. Qed.

Lemma logs_console_error line : logs Q (console_error line).
Proof. intros c. exists []. rewrite app_nil_r. auto. Qed.

Lemma logs_bind_returned {A B} (R : A → Prop) (m : P A) (f : A → P B) :
  logs Q m → (∀ c a c', m c = (Returned a, c') → R a) →
  (∀ a, R a → logs Q (f a)) → logs Q (m ≫= f).
Proof.
  intros Hm HR Hf c. rewrite run_then.
  destruct (Hm c) as (l1 & H1 & Hq1).
  destruct (m c) as [[a|e|code] c1] eqn:E; simpl in *.
  - destruct (Hf a (HR _ _ _ E) c1) as (l2 & H2 & Hq2).
    exists (l1 ++ l2). rewrite H2, H1, app_assoc.
    auto using Forall_app_2.
  - exists l1. auto.
  - exists l1. auto.
Qed.

Lemma logs_bind {A B} (m : P A) (f : A → P B) :
  logs Q m → (∀ a, logs Q (f a)) → logs Q (m ≫= f).
Proof.
  intros Hm Hf. apply (logs_bind_returned (fun _ => True)); auto.
Qed.

Lemma logs_when b (m : P unit) : logs Q m → logs Q (when b m).
Proof. destruct b; [auto|intros _; apply logs_ret]. Qed.

Lemma logs_for_of {A} (l : list A) (body : A → P unit) :
  (∀ x, logs Q (body x)) → logs Q (for_of l body).
Proof.
  intros H. induction l as [|x l IH]; [apply logs_ret|].
  apply logs_bind; auto.
Qed.

End Logs.

Lemma no_exit_ret {A} (a : A) : no_exit (mret a).
Proof. intros c code. discriminate. Qed.

Lemma no_exit_try {A} (o : outcome A) : no_exit (try o).
Proof. intros c code. unfold try. destruct o; discriminate. Qed.

Lemma no_exit_console_log line : no_exit (console_log line).
Proof. intros c code. discriminate. Qed.

Lemma no_exit_bind {A B} (m : P A) (f : A → P B) :
  no_exit m → (∀ a, no_exit (f a)) → no_exit (m ≫= f).
Proof.
  intros Hm Hf c code. rewrite run_then. specialize (Hm c).
  destruct (m c) as [[a|e|code'] c1]; simpl in *.
  - apply Hf.
  - discriminate.
  - destruct (Hm code' eq_refl).
Qed.

Lemma crashes_now {A B} (m : P A) (f : A → P B) :
  crashes m → crashes (m ≫= f).
Proof. intros Hm c. rewrite run_then. specialize (Hm c).
  destruct (m c) as [[a|e|code] c1]; simpl in *; congruence.
Qed.

Lemma crashes_later {A B} (m : P A) (f : A → P B) :
  no_exit m → (∀ a, crashes (f a)) → crashes (m ≫= f).
Proof.
  intros Hm Hf c. rewrite run_then. specialize (Hm c).
  destruct (m c) as [[a|e|code] c1]; simpl in *.
  - apply Hf.
  - destruct e. reflexivity.
  - destruct (Hm code eq_refl).
Qed.

End ToolFacts.

(** ** The diff tool *)

Module DiffToolFacts.
Import Tool ToolNotions ToolFacts DiffTool DiffToolNotions.

Section Facts.
Context (existsSync : string → bool) (read_json : string → parsed)
  (number : Z → string) (next : nat).

Ltac logs_cases :=
  repeat lazymatch goal with
  | |- logs _ (mret _) => apply logs_ret
  | |- logs _ (try _) => apply logs_try
  | |- logs _ (process_exit _) => apply logs_exit
  | |- logs _ (console_log _) => apply logs_console_log; reflexivity
  | |- logs _ (_ ≫= _) => apply logs_bind
  | |- logs _ (when _ _) => apply logs_when
  | |- logs _ (for_of _ _) => apply logs_for_of
  | |- forall _, _ => intro
  end.

Lemma log_names_quiet prefix names :
  (∀ s, opens_global_section (prefix +:+ s) = false) →
  logs quiet (log_names number prefix names).
Proof.
  intros H. unfold log_names, text. logs_cases.
  apply logs_console_log. apply H.
Qed.

Lemma origin_quiet label setup :
  (∀ s, opens_global_section (label +:+ s) = false) →
  logs quiet (origin number label setup).
Proof.
  intros H. unfold origin, text. logs_cases.
  apply logs_console_log. apply H.
Qed.

Lemma print_applications_quiet apps :
  logs quiet (print_applications number apps).
Proof. unfold print_applications, text. logs_cases. Qed.

Lemma bucket_quiet buckets k : logs quiet (bucket buckets k).
Proof. unfold bucket. destruct (buckets !! k); logs_cases. Qed.

Lemma some_not_empty_quiet arrays :
  Forall (logs quiet) arrays → logs quiet (some_not_empty arrays).
Proof.
  induction 1 as [|a arrays Ha _ IH]; [apply logs_ret|].
  cbn [some_not_empty]. apply logs_bind; [assumption|]. intros items.
  destruct (0 <? length items); [apply logs_ret|assumption].
Qed.

Lemma print_category_quiet title c :
  logs quiet c → logs quiet (print_category number title c).
Proof.
  intros Hc. unfold print_category. apply logs_bind; [assumption|].
  intros ch. logs_cases; apply log_names_quiet; reflexivity.
Qed.

Lemma print_homebrew_quiet buckets :
  logs quiet (print_homebrew number buckets).
Proof.
  unfold print_homebrew. apply logs_bind.
  - apply some_not_empty_quiet. unfold added_of, removed_of.
    repeat constructor; logs_cases; apply bucket_quiet.
  - intros b. logs_cases; apply print_category_quiet; apply bucket_quiet.
Qed.

Lemma total_length_quiet arrays :
  Forall (logs quiet) arrays → logs quiet (total_length arrays).
Proof.
  induction 1 as [|a arrays Ha _ IH]; [apply logs_ret|].
  cbn [total_length]. logs_cases; assumption.
Qed.

Lemma print_summary_quiet diff : logs quiet (print_summary diff).
Proof.
  unfold print_summary.
  apply logs_bind; [|intros a; apply logs_bind; [|intros r]].
  1,2: apply total_length_quiet; unfold added_of, removed_of;
    repeat constructor; logs_cases; apply bucket_quiet.
  logs_cases.
Qed.

(** No change of the global packages is ever reported: the section is
    skipped for a report of [diffSetups]. *)
Lemma print_globalPackages_skipped c :
  print_globalPackages number (globalPackages Diff.initial_diff) c
  = (Returned (), c).
Proof. reflexivity. Qed.

Lemma compare_quiet oldSetup newSetup :
  logs quiet (compare number next oldSetup newSetup).
Proof.
  unfold compare.
  do 2 (apply logs_bind; [apply logs_console_log; reflexivity|intros _]).
  do 2 (apply logs_bind; [apply origin_quiet; reflexivity|intros _]).
  apply logs_bind; [apply logs_console_log; reflexivity|intros _].
  apply (logs_bind_returned _
           (fun r => globalPackages r = globalPackages Diff.initial_diff));
    [apply logs_try| |].
  - intros c r c'. unfold try.
    destruct (diffSetups oldSetup newSetup next).1 as [r0|] eqn:E;
      intros H; [|discriminate H].
    injection H as <- _.
    eapply diffSetups_globalPackages_never_written. exact E.
  - intros r Hr.
    apply logs_bind; [apply print_applications_quiet|intros _].
    apply logs_bind; [apply print_homebrew_quiet|intros _].
    apply logs_bind; [|intros _; apply print_summary_quiet].
    rewrite Hr. intros c. rewrite print_globalPackages_skipped.
    exists []. rewrite app_nil_r. auto.
Qed.

Lemma main_quiet args :
  logs quiet (main existsSync read_json number next args).
Proof.
  unfold main, print_usage, load. cbv zeta.
  logs_cases; try apply logs_console_error.
  all: try (destruct (read_json _); logs_cases; apply logs_console_error).
  apply compare_quiet.
Qed.

Lemma origin_no_exit label setup : no_exit (origin number label setup).
Proof.
  unfold origin, text.
  repeat first [ apply no_exit_bind; [|intro] | apply no_exit_try
               | apply no_exit_console_log ].
Qed.

Lemma origin_crashes label setup :
  nullish (field setup "system") = true → crashes (origin number label setup).
Proof.
  intros H c. unfold origin. rewrite run_try_bind. unfold member at 1.
  destruct (nullish setup); [reflexivity|].
  rewrite run_try_bind. unfold member. rewrite H. reflexivity.
Qed.

Lemma compare_crashes oldSetup newSetup :
  nullish (field oldSetup "system") = true
  ∨ nullish (field newSetup "system") = true
  ∨ Engine.diffable oldSetup newSetup = false →
  crashes (compare number next oldSetup newSetup).
Proof.
  intros H. unfold compare.
  do 2 (apply crashes_later; [apply no_exit_console_log|intros _]).
  destruct H as [H|H]; [apply crashes_now, origin_crashes, H|].
  apply crashes_later; [apply origin_no_exit|intros _].
  destruct H as [H|H]; [apply crashes_now, origin_crashes, H|].
  apply crashes_later; [apply origin_no_exit|intros _].
  apply crashes_later; [apply no_exit_console_log|intros _].
  apply crashes_now. intros c.
  rewrite OutcomeOfDiff.diffSetups_outcome, H. reflexivity.
Qed.

Lemma print_summary_run diff f c0 t c :
  homebrew diff !! "formulae" = Some f →
  homebrew diff !! "casks" = Some c0 →
  homebrew diff !! "taps" = Some t →
  globalPackages diff = globalPackages Diff.initial_diff →
  print_summary diff c
  = (Returned (),
     {| stdout :=
          stdout c
          ++ summary_lines
               (length (app_added (applications diff)) + length (added f)
                + length (added c0) + length (added t))
               (length (app_removed (applications diff)) + length (removed f)
                + length (removed c0) + length (removed t))
               (length (app_updated (applications diff)));
        stderr := stderr c; executed := executed c |}).
Proof.
  intros Hf Hc Ht Hg. unfold print_summary, total_length, added_of, removed_of,
    bucket. rewrite Hf, Hc, Ht, Hg.
  assert (∀ a b c d,
            a + b + c + d = a + (b + (c + (d + (0 + (0 + (0 + (0 + 0))))))))
    as Hsum by (intros; lia).
  rewrite !Hsum.
  change (globalPackages Diff.initial_diff !! "npm") with (Some Diff.no_changes).
  change (globalPackages Diff.initial_diff !! "bun") with (Some Diff.no_changes).
  change (globalPackages Diff.initial_diff !! "dart") with (Some Diff.no_changes).
  change (globalPackages Diff.initial_diff !! "ruby") with (Some Diff.no_changes).
  cbv [mbind P_bind mret P_ret console_log].
  cbn [added removed Diff.no_changes length stdout stderr executed].
  rewrite <- !app_assoc. reflexivity.
Qed.

End Facts.
End DiffToolFacts.

Module MainFacts.
Import Tool ToolNotions ToolFacts DiffTool DiffToolNotions DiffToolFacts.

Lemma includes_In (x : string) (l : list string) :
  existsb (String.eqb x) l = true ↔ In x l.
Proof.
  rewrite existsb_exists. split.
  - intros (y & Hy & E). apply String.eqb_eq in E. subst. assumption.
  - intros H. exists x. split; [assumption|apply String.eqb_refl].
Qed.

Lemma not_includes (x : string) (l : list string) :
  ¬ In x l → existsb (String.eqb x) l = false.
Proof.
  intros H. apply not_true_iff_false. rewrite includes_In. assumption.
Qed.

End MainFacts.

(** With [--help], [-h] or fewer than two arguments, [diff.js] prints
    the usage and exits with status 0, before it looks at any file. *)
Theorem diff_main_usage
    (existsSync : string → bool) (read_json : string → DiffTool.parsed)
    (number : Z → string) (next : nat) (args : list string) :
  In "--help" args ∨ In "-h" args ∨ length args < 2 →
  DiffTool.main existsSync read_json number next args ToolNotions.silent
  = (Tool.Exited 0,
     {| Tool.stdout := DiffToolNotions.usage_lines; Tool.stderr := [];
        Tool.executed := [] |}).
Proof.
  intros H. unfold DiffTool.main.
  assert (existsb (String.eqb "--help") args || existsb (String.eqb "-h") args
          || (length args <? 2) = true) as ->.
  { rewrite !orb_true_iff, !MainFacts.includes_In, Nat.ltb_lt. tauto. }
  reflexivity.
Qed.

(** [diff.js] exits with status 1 and one line on the error output
    when a file is missing or cannot be parsed; the old file is
    reported first, and a missing file before a file that cannot be
    parsed. *)
Theorem diff_main_unreadable_input
    (existsSync : string → bool) (read_json : string → DiffTool.parsed)
    (number : Z → string) (next : nat)
    (oldFile newFile : string) (rest : list string) :
  let args := oldFile :: newFile :: rest in
  let run := DiffTool.main existsSync read_json number next args
               ToolNotions.silent in
  let fails line :=
    run = (Tool.Exited 1, {| Tool.stdout := []; Tool.stderr := [line];
                             Tool.executed := [] |}) in
  ¬ In "--help" args → ¬ In "-h" args →
  (existsSync oldFile = false → fails ("File not found: " +:+ oldFile))
  ∧ (existsSync oldFile = true → existsSync newFile = false →
     fails ("File not found: " +:+ newFile))
  ∧ (existsSync oldFile = true → existsSync newFile = true →
     ∀ message, read_json oldFile = DiffTool.Failed message →
       fails ("Error parsing " +:+ oldFile +:+ ": " +:+ message))
  ∧ (existsSync oldFile = true → existsSync newFile = true →
     ∀ v message, read_json oldFile = DiffTool.Parsed v →
       read_json newFile = DiffTool.Failed message →
       fails ("Error parsing " +:+ newFile +:+ ": " +:+ message)).
Proof.
  intros args run fails Hhelp Hh. subst run fails. unfold DiffTool.main.
  rewrite (MainFacts.not_includes _ _ Hhelp), (MainFacts.not_includes _ _ Hh).
  cbn [length Nat.ltb Nat.leb orb Tool.when nth args].
  unfold DiffTool.load.
  repeat split.
  - intros ->. reflexivity.
  - intros -> ->. reflexivity.
  - intros -> -> message ->. reflexivity.
  - intros -> -> v message -> ->. reflexivity.
Qed.

(** Whatever the two files hold, [diff.js] never prints the section on
    the global packages. *)
Theorem diff_main_never_shows_global_packages
    (existsSync : string → bool) (read_json : string → DiffTool.parsed)
    (number : Z → string) (next : nat) (args : list string) :
  let output :=
    Tool.stdout
      (DiffTool.main existsSync read_json number next args
         ToolNotions.silent).2 in
  ¬ In "Global Packages:" output ∧ ¬ In "----------------" output.
Proof.
  cbv zeta.
  destruct (DiffToolFacts.main_quiet existsSync read_json number next args
              ToolNotions.silent) as (lines & -> & Hq).
  cbn [Tool.stdout ToolNotions.silent app].
  rewrite Forall_forall in Hq.
  split; intros H; apply list_elem_of_In, Hq in H; discriminate H.
Qed.

(** [diff.js] validates nothing: a parsed document without [system],
    or a pair that [diffSetups] throws on, ends the tool with an
    uncaught [TypeError]. *)
Theorem diff_compare_crashes
    (number : Z → string) (next : nat) (oldSetup newSetup : value)
    (c : Tool.effects) :
  nullish (field oldSetup "system") = true
  ∨ nullish (field newSetup "system") = true
  ∨ Engine.diffable oldSetup newSetup = false →
  (DiffTool.compare number next oldSetup newSetup c).1
  = Tool.Uncaught TypeError.
Proof. intros H. apply DiffToolFacts.compare_crashes. exact H. Qed.

Module CompletesFacts.
Import Tool ToolNotions ToolFacts DiffTool DiffToolNotions DiffToolFacts.

Lemma same_effects c :
  c = {| stdout := stdout c ++ []; stderr := stderr c;
         executed := executed c |}.
Proof. rewrite app_nil_r. destruct c; reflexivity. Qed.

Lemma completes_ret {A} (R : A → Prop) (a : A) : R a → completes R (mret a).
Proof.
  intros H c. exists a, []. split; [|exact H].
  rewrite <- same_effects. reflexivity.
Qed.

Lemma completes_try {A} (R : A → Prop) (o : outcome A) a :
  o = Ok a → R a → completes R (try o).
Proof.
  intros -> H c. exists a, []. split; [|exact H].
  unfold try. rewrite <- same_effects. reflexivity.
Qed.

Lemma completes_console_log line : completes (fun _ => True) (console_log line).
Proof. intros c. exists (), [line]. split; [reflexivity|exact I]. Qed.

Lemma completes_bind {A B} (R : A → Prop) (S : B → Prop)
    (m : P A) (f : A → P B) :
  completes R m → (∀ a, R a → completes S (f a)) → completes S (m ≫= f).
Proof.
  intros Hm Hf c. rewrite run_then.
  destruct (Hm c) as (a & l1 & -> & Ha).
  destruct (Hf a Ha {| stdout := stdout c ++ l1; stderr := stderr c;
                       executed := executed c |}) as (b & l2 & -> & Hb).
  exists b, (l1 ++ l2). cbn [stdout stderr executed].
  rewrite app_assoc. auto.
Qed.

Lemma completes_weaken {A} (R S : A → Prop) (m : P A) :
  completes R m → (∀ a, R a → S a) → completes S m.
Proof.
  intros Hm H c. destruct (Hm c) as (a & l & E & Ha). exists a, l. auto.
Qed.

Lemma completes_when b (m : P unit) :
  (b = true → completes (fun _ => True) m) →
  completes (fun _ => True) (when b m).
Proof. destruct b; [auto|intros _; apply completes_ret; exact I]. Qed.

Lemma completes_for_of {A} (l : list A) (body : A → P unit) :
  Forall (fun x => completes (fun _ => True) (body x)) l →
  completes (fun _ => True) (for_of l body).
Proof.
  induction 1 as [|x l Hx _ IH]; [apply completes_ret; exact I|].
  cbn [for_of]. eapply completes_bind; [exact Hx|]. intros _ _. exact IH.
Qed.

Lemma ends_with_bind {A} (R : A → Prop) last (m : P A) (f : A → P unit) :
  completes R m → (∀ a, R a → ends_with last (f a)) →
  ends_with last (m ≫= f).
Proof.
  intros Hm Hf c. rewrite run_then.
  destruct (Hm c) as (a & l1 & -> & Ha).
  destruct (Hf a Ha {| stdout := stdout c ++ l1; stderr := stderr c;
                       executed := executed c |}) as (l2 & ->).
  exists (l1 ++ l2). cbn [stdout stderr executed].
  rewrite <- !app_assoc. reflexivity.
Qed.

Section Facts.
Context (number : Z → string) (next : nat).

Lemma completes_text v :
  renders number v = true → completes (fun _ => True) (text number v).
Proof.
  unfold renders, text. destruct (to_string number v) as [s|] eqn:E;
    [intros _|discriminate].
  eapply completes_try; [reflexivity|exact I].
Qed.

Lemma completes_member v k :
  nullish v = false → completes (fun x => x = field v k) (try (member v k)).
Proof.
  intros H. eapply completes_try; [|reflexivity]. unfold member.
  rewrite H. reflexivity.
Qed.

Lemma completes_log_names prefix names :
  forallb (renders number) names = true →
  completes (fun _ => True) (log_names number prefix names).
Proof.
  intros H. unfold log_names. apply completes_for_of, Forall_forall.
  intros x Hx. rewrite forallb_forall in H.
  eapply completes_bind;
    [apply completes_text, H, list_elem_of_In, Hx|].
  intros s _. apply completes_console_log.
Qed.

Lemma completes_origin label setup :
  origin_renders number setup = true →
  completes (fun _ => True) (origin number label setup).
Proof.
  unfold origin_renders, origin. cbv zeta.
  rewrite !andb_true_iff, negb_true_iff. intros [[Hs Hh] Hd].
  assert (nullish setup = false) as Hn
    by (destruct setup; try reflexivity; discriminate Hs).
  eapply completes_bind; [apply completes_member, Hn|]. intros ? ->.
  eapply completes_bind; [apply completes_member, Hs|]. intros ? ->.
  eapply completes_bind; [apply completes_text, Hh|]. intros host _.
  eapply completes_bind; [apply completes_member, Hn|]. intros ? ->.
  eapply completes_bind; [apply completes_member, Hs|]. intros ? ->.
  eapply completes_bind; [apply completes_text, Hd|]. intros date _.
  apply completes_console_log.
Qed.

Lemma completes_application prefix app :
  application_renders number app = true →
  completes (fun _ => True)
    (name ← try (member app "name"); name ← text number name;
     version ← try (member app "version"); version ← text number version;
     console_log (prefix +:+ name +:+ " (" +:+ version +:+ ")")).
Proof.
  unfold application_renders.
  rewrite !andb_true_iff, negb_true_iff. intros [[Hn Hname] Hversion].
  eapply completes_bind; [apply completes_member, Hn|]. intros ? ->.
  eapply completes_bind; [apply completes_text, Hname|]. intros name _.
  eapply completes_bind; [apply completes_member, Hn|]. intros ? ->.
  eapply completes_bind; [apply completes_text, Hversion|]. intros version _.
  apply completes_console_log.
Qed.

Ltac then_log :=
  eapply completes_bind; [apply completes_console_log|intros _ _].

Lemma completes_print_applications apps :
  forallb (application_renders number) (app_added apps) = true →
  forallb (application_renders number) (app_removed apps) = true →
  forallb (update_renders number) (app_updated apps) = true →
  completes (fun _ => True) (print_applications number apps).
Proof.
  intros Ha Hr Hu. rewrite forallb_forall in Ha, Hr, Hu.
  unfold print_applications. apply completes_when. intros _.
  do 2 then_log.
  eapply completes_bind; [|intros _ _].
  { apply completes_when. intros _. then_log.
    apply completes_for_of, Forall_forall. intros app Happ.
    apply completes_application, Ha, list_elem_of_In, Happ. }
  eapply completes_bind; [|intros _ _].
  { apply completes_when. intros _. then_log.
    apply completes_for_of, Forall_forall. intros app Happ.
    apply completes_application, Hr, list_elem_of_In, Happ. }
  eapply completes_bind; [|intros _ _; apply completes_console_log].
  apply completes_when. intros _. then_log.
  apply completes_for_of, Forall_forall. intros u Hin.
  apply list_elem_of_In, Hu in Hin. unfold update_renders in Hin.
  rewrite !andb_true_iff in Hin. destruct Hin as [[Hn Ho] Hv].
  eapply completes_bind; [apply completes_text, Hn|]. intros ? _.
  eapply completes_bind; [apply completes_text, Ho|]. intros ? _.
  eapply completes_bind; [apply completes_text, Hv|]. intros ? _.
  apply completes_console_log.
Qed.

Lemma completes_bucket buckets k c :
  buckets !! k = Some c → completes (fun x => x = c) (bucket buckets k).
Proof.
  intros H. unfold bucket. rewrite H. apply completes_ret. reflexivity.
Qed.

Lemma completes_some_not_empty arrays :
  Forall (completes (fun _ => True)) arrays →
  completes (fun _ => True) (some_not_empty arrays).
Proof.
  induction 1 as [|a arrays Ha _ IH]; [apply completes_ret; exact I|].
  cbn [some_not_empty]. eapply completes_bind; [exact Ha|]. intros items _.
  destruct (0 <? length items); [apply completes_ret; exact I|exact IH].
Qed.

Lemma completes_print_category title buckets k c :
  buckets !! k = Some c → changes_render number c = true →
  completes (fun _ => True) (print_category number title (bucket buckets k)).
Proof.
  intros Hk Hc. unfold changes_render in Hc. rewrite andb_true_iff in Hc.
  unfold print_category.
  eapply completes_bind; [apply completes_bucket, Hk|]. intros ? ->.
  eapply completes_bind; [|intros _ _].
  - apply completes_when. intros _. then_log.
    apply completes_log_names, Hc.
  - apply completes_when. intros _. then_log.
    apply completes_log_names, Hc.
Qed.

Lemma completes_print_homebrew buckets f c t :
  buckets !! "formulae" = Some f → buckets !! "casks" = Some c →
  buckets !! "taps" = Some t →
  changes_render number f = true → changes_render number c = true →
  changes_render number t = true →
  completes (fun _ => True) (print_homebrew number buckets).
Proof.
  intros Hf Hc Ht Rf Rc Rt. unfold print_homebrew.
  eapply completes_bind.
  - apply completes_some_not_empty. unfold added_of, removed_of.
    repeat constructor;
      (eapply completes_bind;
        [apply completes_bucket; eassumption
        |intros ? _; apply completes_ret; exact I]).
  - intros b _. apply completes_when. intros _. do 2 then_log.
    eapply completes_bind; [exact (completes_print_category _ _ _ _ Ht Rt)|].
    intros _ _.
    eapply completes_bind; [exact (completes_print_category _ _ _ _ Hf Rf)|].
    intros _ _.
    eapply completes_bind; [exact (completes_print_category _ _ _ _ Hc Rc)|].
    intros _ _. apply completes_console_log.
Qed.

Lemma print_summary_ends diff f c t :
  homebrew diff !! "formulae" = Some f →
  homebrew diff !! "casks" = Some c →
  homebrew diff !! "taps" = Some t →
  globalPackages diff = globalPackages Diff.initial_diff →
  ends_with
    (summary_lines
       (length (app_added (applications diff)) + length (added f)
        + length (added c) + length (added t))
       (length (app_removed (applications diff)) + length (removed f)
        + length (removed c) + length (removed t))
       (length (app_updated (applications diff))))
    (print_summary diff).
Proof.
  intros Hf Hc Ht Hg c0. exists [].
  rewrite (print_summary_run diff f c t) by assumption. reflexivity.
Qed.

End Facts.
End CompletesFacts.

(** When the two header lines and every name and version of the report
    can be written, the comparison of [diff.js] returns on a pair of
    documents that [diffSetups] returns on; it has then written lines to
    the standard output only, the summary last, and the totals of the
    summary count the applications and the three Homebrew collections
    and nothing of the global packages. *)
Theorem diff_compare_summary
    (number : Z → string) (next : nat) (oldSetup newSetup : value)
    (c : Tool.effects) :
  DiffToolNotions.origin_renders number oldSetup = true →
  DiffToolNotions.origin_renders number newSetup = true →
  Engine.diffable oldSetup newSetup = true →
  DiffToolNotions.report_renders number (Engine.report_of oldSetup newSetup)
  = true →
  ∃ r formulae casks taps lines,
    (diffSetups oldSetup newSetup next).1 = Ok r
    ∧ homebrew r !! "formulae" = Some formulae
    ∧ homebrew r !! "casks" = Some casks
    ∧ homebrew r !! "taps" = Some taps
    ∧ DiffTool.compare number next oldSetup newSetup c
      = (Tool.Returned (),
         {| Tool.stdout :=
              Tool.stdout c ++ lines
              ++ DiffToolNotions.summary_lines
                   (length (app_added (applications r))
                    + length (added formulae) + length (added casks)
                    + length (added taps))
                   (length (app_removed (applications r))
                    + length (removed formulae) + length (removed casks)
                    + length (removed taps))
                   (length (app_updated (applications r)));
            Tool.stderr := Tool.stderr c;
            Tool.executed := Tool.executed c |}).
Proof.
  intros Hold Hnew Hd Hr.
  pose proof (OutcomeOfDiff.diffSetups_outcome oldSetup newSetup next) as Hrun.
  rewrite Hd in Hrun.
  set (r := Engine.report_of oldSetup newSetup) in *.
  pose proof (Returned.lookup_report_of oldSetup newSetup "formulae") as Hf.
  pose proof (Returned.lookup_report_of oldSetup newSetup "casks") as Hc.
  pose proof (Returned.lookup_report_of oldSetup newSetup "taps") as Ht.
  fold r in Hf, Hc, Ht.
  specialize (Hf ltac:(cbn [In]; tauto)).
  specialize (Hc ltac:(cbn [In]; tauto)).
  specialize (Ht ltac:(cbn [In]; tauto)).
  unfold DiffToolNotions.report_renders in Hr. cbn [forallb] in Hr.
  rewrite Hf, Hc, Ht, !andb_true_iff in Hr.
  destruct Hr as [[[Ha Hrm] Hu] (Rt & Rf & Rc & _)].
  set (formulae := Engine.package_changes _ _) in Hf, Rf.
  set (casks := Engine.package_changes _ _) in Hc, Rc.
  set (taps := Engine.package_changes _ _) in Ht, Rt.
  assert (DiffToolNotions.ends_with
            (DiffToolNotions.summary_lines
               (length (app_added (applications r))
                + length (added formulae) + length (added casks)
                + length (added taps))
               (length (app_removed (applications r))
                + length (removed formulae) + length (removed casks)
                + length (removed taps))
               (length (app_updated (applications r))))
            (DiffTool.compare number next oldSetup newSetup)) as Hends.
  { unfold DiffTool.compare.
    do 2 (eapply CompletesFacts.ends_with_bind;
            [apply CompletesFacts.completes_console_log|intros _ _]).
    eapply CompletesFacts.ends_with_bind;
      [apply CompletesFacts.completes_origin, Hold|intros _ _].
    eapply CompletesFacts.ends_with_bind;
      [apply CompletesFacts.completes_origin, Hnew|intros _ _].
    eapply CompletesFacts.ends_with_bind;
      [apply CompletesFacts.completes_console_log|intros _ _].
    eapply (CompletesFacts.ends_with_bind (fun diff => diff = r));
      [eapply CompletesFacts.completes_try; [exact Hrun|reflexivity]|].
    intros ? ->.
    eapply CompletesFacts.ends_with_bind;
      [apply CompletesFacts.completes_print_applications; assumption
      |intros _ _].
    eapply CompletesFacts.ends_with_bind;
      [eapply CompletesFacts.completes_print_homebrew; eassumption
      |intros _ _].
    eapply (CompletesFacts.ends_with_bind (fun _ => True)).
    { intros c0.
      change (globalPackages r) with (globalPackages Diff.initial_diff).
      rewrite DiffToolFacts.print_globalPackages_skipped.
      exists (), []. split; [|exact I].
      rewrite <- CompletesFacts.same_effects. reflexivity. }
    intros _ _.
    apply (CompletesFacts.print_summary_ends r _ _ _ Hf Hc Ht). reflexivity. }
  destruct (Hends c) as (lines & E).
  exists r, formulae, casks, taps, lines.
  split; [exact Hrun|]. split; [exact Hf|]. split; [exact Hc|].
  split; [exact Ht|]. exact E.
Qed.

(** ** The restore tool *)

Module ApplyFacts.
Import Tool ToolNotions ToolFacts ApplyTool ApplyNotions.

(** *** Batches *)

Lemma batches_from_concat {A} fuel i size (names : list A) acc :
  length names ≤ i + fuel * size →
  concat (batches_from fuel i size names acc) = concat acc ++ drop i names.
Proof.
  revert i acc. induction fuel as [|fuel IH]; intros i acc Hfuel.
  - simpl. rewrite drop_ge by lia. rewrite app_nil_r. reflexivity.
  - cbn [batches_from]. destruct (i <? length names) eqn:Hi.
    + rewrite IH by lia. rewrite concat_app. cbn [concat].
      rewrite app_nil_r, <- app_assoc, <- drop_drop, take_drop. reflexivity.
    + apply Nat.ltb_ge in Hi. rewrite drop_ge by lia.
      rewrite app_nil_r. reflexivity.
Qed.

Lemma batches_from_sizes {A} fuel i size (names : list A) acc :
  0 < size →
  Forall (fun batch => 0 < length batch ≤ size) acc →
  Forall (fun batch => 0 < length batch ≤ size)
    (batches_from fuel i size names acc).
Proof.
  intros Hsize. revert i acc. induction fuel as [|fuel IH]; intros i acc Hacc.
  - exact Hacc.
  - cbn [batches_from]. destruct (i <? length names) eqn:Hi; [|exact Hacc].
    apply Nat.ltb_lt in Hi. apply IH, Forall_app_2; [exact Hacc|].
    constructor; [|constructor].
    rewrite length_take, length_drop. lia.
Qed.

Lemma batches_from_fuel {A} fuel fuel' i size (names : list A) acc :
  0 < size → length names ≤ i + fuel * size → fuel ≤ fuel' →
  batches_from fuel' i size names acc = batches_from fuel i size names acc.
Proof.
  intros Hsize. revert fuel' i acc.
  induction fuel as [|fuel IH]; intros fuel' i acc Hfuel Hle.
  - destruct fuel' as [|fuel']; [reflexivity|]. cbn [batches_from].
    destruct (i <? length names) eqn:Hi; [|reflexivity].
    apply Nat.ltb_lt in Hi. lia.
  - destruct fuel' as [|fuel']; [lia|]. cbn [batches_from].
    destruct (i <? length names); [|reflexivity].
    apply IH; lia.
Qed.

Lemma batches_from_length {A} fuel i size (names : list A) acc :
  0 < size → length names ≤ i + fuel * size →
  length (batches_from fuel i size names acc)
  = length acc + (length names - i + size - 1) / size.
Proof.
  intros Hsize. revert i acc. induction fuel as [|fuel IH]; intros i acc Hfuel.
  - simpl. replace (length names - i + size - 1) with (size - 1) by lia.
    rewrite Nat.div_small by lia. lia.
  - cbn [batches_from]. destruct (i <? length names) eqn:Hi.
    + apply Nat.ltb_lt in Hi. rewrite IH by lia.
      rewrite length_app. cbn [length].
      destruct (le_lt_dec (i + size) (length names)) as [Hfull|Hlast].
      * replace (length names - i + size - 1)
          with (length names - (i + size) + size - 1 + 1 * size) by lia.
        rewrite Nat.div_add by lia. lia.
      * replace (length names - (i + size) + size - 1) with (size - 1) by lia.
        replace (length names - i + size - 1)
          with (length names - i - 1 + 1 * size) by lia.
        rewrite Nat.div_add, !Nat.div_small by lia. lia.
    + apply Nat.ltb_ge in Hi.
      replace (length names - i + size - 1) with (size - 1) by lia.
      rewrite Nat.div_small by lia. lia.
Qed.

(** *** The arguments of the command line *)

Lemma run_ret_bind {A B} (a : A) (f : A → P B) c : (mret a ≫= f) c = f a c.
Proof. reflexivity. Qed.

Lemma parse_argument_run o arg c :
  arg ≠ "--help" → arg ≠ "-h" →
  parse_argument o arg c = (Returned (turn o arg), c).
Proof.
  intros Hhelp Hh. apply String.eqb_neq in Hhelp, Hh.
  unfold parse_argument, turn, option_names. cbn [existsb].
  rewrite Hhelp, Hh. cbn [orb].
  destruct o as [file g m d v]. cbn [setupFile installGlobalPackages
    installMas dryRun verify].
  destruct (String.eqb arg "--install-global-packages") eqn:E1.
  { apply String.eqb_eq in E1. subst arg.
    rewrite ?orb_true_r, ?orb_false_r. reflexivity. }
  destruct (String.eqb arg "--install-mas") eqn:E2.
  { apply String.eqb_eq in E2. subst arg.
    rewrite ?orb_true_r, ?orb_false_r. reflexivity. }
  destruct (String.eqb arg "--dry-run") eqn:E3.
  { apply String.eqb_eq in E3. subst arg.
    rewrite ?orb_true_r, ?orb_false_r. reflexivity. }
  destruct (String.eqb arg "--verify") eqn:E4.
  { apply String.eqb_eq in E4. subst arg.
    rewrite ?orb_true_r, ?orb_false_r. reflexivity. }
  rewrite !orb_false_r. cbn [orb].
  destruct (file_given _); reflexivity.
Qed.

Lemma parse_arguments_run o args c :
  ¬ In "--help" args → ¬ In "-h" args →
  parse_arguments o args c = (Returned (foldl turn o args), c).
Proof.
  revert o. induction args as [|arg args IH]; intros o Hhelp Hh; [reflexivity|].
  cbn [parse_arguments foldl]. rewrite run_then, parse_argument_run.
  - apply IH; intros H; [apply Hhelp|apply Hh]; right; exact H.
  - intros ->. apply Hhelp. left. reflexivity.
  - intros ->. apply Hh. left. reflexivity.
Qed.

Lemma includes_cons (x arg : string) args :
  existsb (String.eqb x) (arg :: args)
  = String.eqb arg x || existsb (String.eqb x) args.
Proof. cbn [existsb]. rewrite String.eqb_sym. reflexivity. Qed.

(** The options at the end of the loop. *)
Lemma foldl_turn o args :
  let o' := foldl turn o args in
  installGlobalPackages o'
  = installGlobalPackages o
    || existsb (String.eqb "--install-global-packages") args
  ∧ installMas o' = installMas o || existsb (String.eqb "--install-mas") args
  ∧ dryRun o' = dryRun o || existsb (String.eqb "--dry-run") args
  ∧ verify o' = verify o || existsb (String.eqb "--verify") args
  ∧ (file_given o = true → setupFile o' = setupFile o)
  ∧ (file_given o = false →
     file_given o' = bool_decide (is_Some (find names_file args))
     ∧ ∀ file, find names_file args = Some file → setupFile o' = Some file).
Proof.
  revert o. induction args as [|arg args IH]; intros o; cbv zeta.
  - cbn [foldl existsb find]. rewrite !orb_false_r.
    do 4 (split; [reflexivity|]). split; [reflexivity|].
    intros Hfile. rewrite Hfile. split.
    + symmetry. apply bool_decide_eq_false. intros [file Hx]. discriminate Hx.
    + intros file Hx. discriminate Hx.
  - cbn [foldl]. destruct (IH (turn o arg)) as (Hg & Hm & Hd & Hv & Hkeep & Hset).
    rewrite Hg, Hm, Hd, Hv, !includes_cons. cbn [turn installGlobalPackages
      installMas dryRun verify]. rewrite !orb_assoc.
    split; [reflexivity|]. split; [reflexivity|]. split; [reflexivity|].
    split; [reflexivity|]. split.
    + intros Hfile.
      assert (file_given (turn o arg) = true ∧ setupFile (turn o arg)
              = setupFile o) as [Hfile' Heq].
      { unfold turn, file_given in *. cbn [setupFile]. rewrite Hfile.
        rewrite orb_true_r. auto. }
      rewrite Hkeep by assumption. exact Heq.
    + intros Hfile. cbn [find].
      destruct (existsb (String.eqb arg) option_names) eqn:Hopt.
      * assert (names_file arg = false) as ->
          by (unfold names_file; rewrite Hopt; reflexivity).
        assert (file_given (turn o arg) = false) as Hfile'.
        { unfold turn, file_given in *. cbn [setupFile]. rewrite Hopt.
          exact Hfile. }
        apply Hset. exact Hfile'.
      * destruct (String.eqb arg "") eqn:Hempty.
        -- assert (names_file arg = false) as ->
             by (unfold names_file; rewrite Hopt, Hempty; reflexivity).
           assert (file_given (turn o arg) = false) as Hfile'.
           { unfold turn, file_given. cbn [setupFile]. rewrite Hopt.
             unfold file_given in Hfile. rewrite Hfile. cbn [orb].
             rewrite Hempty. reflexivity. }
           apply Hset. exact Hfile'.
        -- assert (names_file arg = true) as ->
             by (unfold names_file; rewrite Hopt, Hempty; reflexivity).
           assert (file_given (turn o arg) = true
                   ∧ setupFile (turn o arg) = Some arg) as [Hfile' Heq].
           { unfold turn, file_given. cbn [setupFile]. rewrite Hopt.
             unfold file_given in Hfile. rewrite Hfile. cbn [orb].
             rewrite Hempty. auto. }
           assert (setupFile (foldl turn (turn o arg) args) = Some arg)
             as Hfinal by (rewrite Hkeep by assumption; exact Heq).
           split.
           ++ unfold file_given. rewrite Hfinal, Hempty.
              symmetry. apply bool_decide_eq_true. eauto.
           ++ intros file [= <-]. exact Hfinal.
Qed.

End ApplyFacts.

Module PrepareFacts.
Import Tool ToolNotions ToolFacts ApplyTool ApplyNotions ApplyFacts.

Lemma report_errors_run errors c :
  for_of errors (fun error => console_error ("  - " +:+ error)) c
  = (Returned (),
     {| stdout := stdout c;
        stderr := stderr c ++ (String.append "  - " <$> errors);
        executed := executed c |}).
Proof.
  revert c. induction errors as [|e errors IH]; intros c.
  - simpl. rewrite app_nil_r. destruct c; reflexivity.
  - cbn [for_of]. rewrite run_then. cbn [console_error fst snd].
    rewrite IH. cbn [stdout stderr executed fmap list_fmap].
    rewrite <- app_assoc. reflexivity.
Qed.

(** The run up to the validation of a document that was read. *)
Lemma prepare_reads existsSync read_json number args file setup :
  ¬ In "--help" args → ¬ In "-h" args →
  find names_file args = Some file →
  existsSync file = true →
  read_json file = DiffTool.Parsed setup →
  ∃ o,
    parse_arguments no_options args silent = (Returned o, silent)
    ∧ prepare existsSync read_json number args silent
      = ('(validation, setup) ← validate setup;
         when (negb (valid validation))
           (console_error "Invalid setup file:";;
            for_of (errors validation) (fun error =>
              console_error ("  - " +:+ error));;
            process_exit 1);;
         compatible ← try (isCompatibleVersion setup);
         when (negb compatible)
           (version ← try (member setup "version");
            version ← text number
                        (if truthy version then version else VStr "1.0");
            console_error ("Warning: Setup file version " +:+ version
                           +:+ " may not be fully compatible");;
            console_error
              "Consider re-capturing your setup with the latest version");;
         mret (o, setup)) silent.
Proof.
  intros Hhelp Hh Hfind Hexists Hread.
  exists (foldl turn no_options args).
  split; [apply parse_arguments_run; assumption|].
  unfold prepare. rewrite run_then, parse_arguments_run by assumption.
  destruct (foldl_turn no_options args) as (_ & _ & _ & _ & _ & Hfile).
  destruct (Hfile eq_refl) as [Hgiven Hset].
  rewrite Hfind in Hgiven. rewrite (Hset _ Hfind).
  rewrite bool_decide_eq_true_2 in Hgiven by eauto.
  rewrite Hgiven. cbn [negb when]. rewrite run_ret_bind.
  cbv zeta. cbn [default from_option id].
  rewrite Hexists. cbn [negb when]. rewrite run_ret_bind.
  rewrite Hread. rewrite run_ret_bind. reflexivity.
Qed.

(** A document stamped ["1.0"] is not compatible. *)
Lemma stamped_incompatible id (props : gmap string value) :
  isCompatibleVersion (VObj id (<["version" := VStr "1.0"]> props))
  = Ok false.
Proof.
  rewrite (isCompatibleVersion_string _ "1.0");
    [reflexivity|reflexivity| |discriminate].
  unfold field. cbn [own_props]. rewrite lookup_insert_eq. reflexivity.
Qed.

Lemma backfilled id (props : gmap string value) :
  truthy (field (VObj id props) "version") = false →
  v_setup (validateSetup (VObj id props)).2
  = VObj id (<["version" := VStr "1.0"]> props).
Proof.
  intros Hv. rewrite ValidateFacts.setup_after_validateSetup, Hv. reflexivity.
Qed.

End PrepareFacts.

(** The version check of [isCompatibleVersion] throws on a document that
    is [null] or [undefined], and on a [version] that is truthy and not
    a string, which has no [split]; it returns in every other case. *)
Theorem isCompatibleVersion_throws_exactly (setup : value) :
  isCompatibleVersion setup = Throw TypeError
  ↔ nullish setup = true
    ∨ (truthy (field setup "version") = true
       ∧ Keyed.is_string (field setup "version") = false).
Proof.
  unfold isCompatibleVersion, member.
  destruct (nullish setup); [intuition|].
  cbn [mbind outcome_bind].
  destruct (field setup "version") as [| |b|n|s|i items ps|i ps]; simpl.
  1,2: split; [discriminate|intros [?|[? _]]; discriminate].
  - destruct b; simpl; intuition discriminate.
  - destruct (n =? 0)%Z; simpl; intuition discriminate.
  - destruct (String.eqb s ""); simpl;
      split; try discriminate; intros [?|[_ ?]]; discriminate.
  - intuition.
  - intuition.
Qed.

(** A document without a truthy [version] is compatible before it is
    validated and incompatible afterwards: the backfill stamps it
    ["1.0"], whose major differs from that of the schema. *)
Theorem isCompatibleVersion_after_validateSetup
    (id : nat) (props : gmap string value) :
  let setup := VObj id props in
  truthy (field setup "version") = false →
  isCompatibleVersion setup = Ok true
  ∧ v_setup (validateSetup setup).2
    = VObj id (<["version" := VStr "1.0"]> props)
  ∧ isCompatibleVersion (v_setup (validateSetup setup).2) = Ok false.
Proof.
  cbv zeta. intros Hv.
  split; [apply isCompatibleVersion_falsy; [reflexivity|exact Hv]|].
  rewrite (PrepareFacts.backfilled id props Hv).
  split; [reflexivity|apply PrepareFacts.stamped_incompatible].
Qed.

(** The loop over the arguments of [apply.js], when none asks for help:
    an option holds when it occurs anywhere, and the file is the first
    argument that is neither an option nor empty. *)
Theorem apply_parse_arguments (args : list string) (c : Tool.effects) :
  ¬ In "--help" args → ¬ In "-h" args →
  ∃ o, ApplyTool.parse_arguments ApplyTool.no_options args c
       = (Tool.Returned o, c)
    ∧ ApplyTool.installGlobalPackages o
      = existsb (String.eqb "--install-global-packages") args
    ∧ ApplyTool.installMas o = existsb (String.eqb "--install-mas") args
    ∧ ApplyTool.dryRun o = existsb (String.eqb "--dry-run") args
    ∧ ApplyTool.verify o = existsb (String.eqb "--verify") args
    ∧ ApplyTool.file_given o
      = bool_decide (is_Some (find ApplyNotions.names_file args))
    ∧ (∀ file, find ApplyNotions.names_file args = Some file →
         ApplyTool.setupFile o = Some file).
Proof.
  intros Hhelp Hh. exists (foldl ApplyNotions.turn ApplyTool.no_options args).
  split; [apply ApplyFacts.parse_arguments_run; assumption|].
  destruct (ApplyFacts.foldl_turn ApplyTool.no_options args)
    as (Hg & Hm & Hd & Hv & _ & Hfile).
  destruct (Hfile eq_refl) as [Hgiven Hset].
  rewrite Hg, Hm, Hd, Hv.
  repeat match goal with |- _ ∧ _ => split end;
    first [reflexivity | assumption].
Qed.

(** [apply.js] installs nothing from a document that fails validation:
    the messages are written to the error output, after the warning of
    the Validator if any, and the process exits with status 1. *)
Theorem apply_rejects_invalid_document
    (existsSync : string → bool) (read_json : string → DiffTool.parsed)
    (number : Z → string) (args : list string) (file : string)
    (setup : value) (r : validation) :
  ¬ In "--help" args → ¬ In "-h" args →
  find ApplyNotions.names_file args = Some file →
  existsSync file = true →
  read_json file = DiffTool.Parsed setup →
  (validateSetup setup).1 = Ok r →
  valid r = false →
  ApplyTool.prepare existsSync read_json number args ToolNotions.silent
  = (Tool.Exited 1,
     {| Tool.stdout := [];
        Tool.stderr := v_console (validateSetup setup).2
                       ++ ApplyNotions.rejection (errors r);
        Tool.executed := [] |}).
Proof.
  intros Hhelp Hh Hfind Hexists Hread Hr Hvalid.
  destruct (PrepareFacts.prepare_reads existsSync read_json number args file
              setup Hhelp Hh Hfind Hexists Hread) as (o & _ & ->).
  rewrite ToolFacts.run_then. unfold ApplyTool.validate. rewrite Hr.
  cbn [fst snd]. rewrite Hvalid. cbn [negb Tool.when].
  rewrite !ToolFacts.run_then. cbn [Tool.console_error fst snd].
  rewrite !ToolFacts.run_then.
  rewrite PrepareFacts.report_errors_run.
  cbn [fst snd Tool.process_exit Tool.stdout Tool.stderr Tool.executed
       ToolNotions.silent app].
  unfold ApplyNotions.rejection. rewrite <- app_assoc. reflexivity.
Qed.

(** In [apply.js] the exemption of [isCompatibleVersion] for a document
    without version never applies: the document is validated first, which
    stamps it ["1.0"], so every valid document without a truthy
    [version] gets both the warning of the Validator and the warning that
    version 1.0 may not be fully compatible. *)
Theorem apply_warns_on_legacy_document
    (existsSync : string → bool) (read_json : string → DiffTool.parsed)
    (number : Z → string) (args : list string) (file : string)
    (id : nat) (props : gmap string value) (r : validation) :
  ¬ In "--help" args → ¬ In "-h" args →
  find ApplyNotions.names_file args = Some file →
  existsSync file = true →
  read_json file = DiffTool.Parsed (VObj id props) →
  truthy (field (VObj id props) "version") = false →
  (validateSetup (VObj id props)).1 = Ok r →
  valid r = true →
  ∃ o,
    ApplyTool.prepare existsSync read_json number args ToolNotions.silent
    = (Tool.Returned (o, VObj id (<["version" := VStr "1.0"]> props)),
       {| Tool.stdout := [];
          Tool.stderr :=
            [ Validate.legacy_warning;
              "Warning: Setup file version 1.0 may not be fully compatible";
              "Consider re-capturing your setup with the latest version" ];
          Tool.executed := [] |}).
Proof.
  intros Hhelp Hh Hfind Hexists Hread Hv Hr Hvalid.
  destruct (PrepareFacts.prepare_reads existsSync read_json number args file
              _ Hhelp Hh Hfind Hexists Hread) as (o & _ & ->).
  exists o.
  pose proof (PrepareFacts.backfilled id props Hv) as Hafter.
  pose proof (PrepareFacts.stamped_incompatible id props) as Hcompat.
  rewrite ToolFacts.run_then. unfold ApplyTool.validate. rewrite Hr.
  cbn [fst snd]. rewrite Hafter in *. rewrite Hvalid. cbn [negb Tool.when].
  rewrite ApplyFacts.run_ret_bind.
  rewrite ToolFacts.run_try_bind, Hcompat. cbn [negb Tool.when].
  rewrite OutcomeFacts.console_after_validateSetup, Hv. cbn [nullish orb].
  rewrite ToolFacts.run_then, ToolFacts.run_try_bind.
  unfold member. cbn [nullish]. unfold field. cbn [own_props].
  rewrite lookup_insert_eq.
  reflexivity.
Qed.

Module InstallFacts.
Import Tool ToolNotions ToolFacts ApplyTool ApplyNotions ApplyFacts.

Section Runs.
Context (Q : string → Prop).

Lemma runs_ret {A} (a : A) : runs Q (mret a).
Proof. intros c. exists []. rewrite app_nil_r. auto. Qed.

Lemma runs_try {A} (o : outcome A) : runs Q (try o).
Proof. intros c. exists []. rewrite app_nil_r. auto. Qed.

Lemma runs_console_log line : runs Q (console_log line).
Proof. intros c. exists []. rewrite app_nil_r. auto. Qed.

Lemma runs_console_error line : runs Q (console_error line).
Proof. intros c. exists []. rewrite app_nil_r. auto. Qed.

Lemma runs_bind_returned {A B} (R : A → Prop) (m : P A) (f : A → P B) :
  runs Q m → (∀ c a c', m c = (Returned a, c') → R a) →
  (∀ a, R a → runs Q (f a)) → runs Q (m ≫= f).
Proof.
  intros Hm HR Hf c. rewrite run_then.
  destruct (Hm c) as (l1 & H1 & Hq1).
  destruct (m c) as [[a|e|code] c1] eqn:E; simpl in *.
  - destruct (Hf a (HR _ _ _ E) c1) as (l2 & H2 & Hq2).
    exists (l1 ++ l2). rewrite H2, H1, app_assoc.
    auto using Forall_app_2.
  - exists l1. auto.
  - exists l1. auto.
Qed.

Lemma runs_bind {A B} (m : P A) (f : A → P B) :
  runs Q m → (∀ a, runs Q (f a)) → runs Q (m ≫= f).
Proof.
  intros Hm Hf. apply (runs_bind_returned (fun _ => True)); auto.
Qed.

Lemma runs_when b (m : P unit) : runs Q m → runs Q (when b m).
Proof. destruct b; [auto|intros _; apply runs_ret]. Qed.

Lemma runs_for_of {A} (l : list A) (body : A → P unit) :
  Forall (fun x => runs Q (body x)) l → runs Q (for_of l body).
Proof.
  induction 1 as [|x l Hx Hl IH]; [apply runs_ret|].
  apply runs_bind; auto.
Qed.

Lemma runs_exec external command :
  keeps_record external → Q command → runs Q (exec external command).
Proof.
  intros Hrecord Hq c. exists [command]. unfold exec.
  rewrite Hrecord. auto.
Qed.

End Runs.

Lemma try_returned {A} (o : outcome A) c a c' :
  try o c = (Returned a, c') → o = Ok a.
Proof. unfold try. destruct o; intros H; inversion H; reflexivity. Qed.

Lemma filter_with_kept {A} (test : A → outcome bool) l kept :
  filter_with test l = Ok kept → Forall (fun x => test x = Ok true) kept.
Proof.
  revert kept. induction l as [|x l IH]; intros kept; cbn [filter_with].
  - intros [= <-]. constructor.
  - destruct (test x) as [keep|e] eqn:Hx;
      destruct (filter_with test l) as [rest|e'];
      try discriminate.
    intros [= <-]. destruct keep; auto.
Qed.

Lemma filter_with_sublist {A} (test : A → outcome bool) l kept :
  filter_with test l = Ok kept → sublist kept l.
Proof.
  revert kept. induction l as [|x l IH]; intros kept; cbn [filter_with].
  - intros [= <-]. constructor.
  - destruct (test x) as [keep|e] eqn:Hx;
      destruct (filter_with test l) as [rest|e'];
      try discriminate.
    intros [= <-]. destruct keep; [apply sublist_skip|apply sublist_cons];
      auto.
Qed.

Lemma installTaps_dry_run_runs number external taps :
  runs (fun _ => False) (installTaps number external taps true).
Proof.
  unfold installTaps.
  destruct (length taps =? 0); [apply runs_ret|].
  apply runs_bind; [apply runs_console_log|]. intros _.
  apply runs_bind; [apply runs_try|]. intros names.
  apply runs_bind; [apply runs_try|]. intros safeTaps.
  apply runs_bind; [apply runs_when, runs_console_error|]. intros _.
  apply runs_bind; [|intros _; apply runs_console_log].
  apply runs_for_of, Forall_forall. intros tap _.
  apply runs_bind; [apply runs_try|]. intros name.
  apply runs_bind; [apply runs_console_log|]. intros _.
  apply runs_ret.
Qed.

End InstallFacts.

(** [installTaps] calls [exec] with nothing but [brew tap <name>] for
    names made of letters, digits, [-], [_] and [/] only, whatever the
    document lists as taps and however the run ends. *)
Theorem installTaps_runs_safe_commands
    (number : Z → string) (external : string → Tool.P unit)
    (taps : list value) (dryRun : bool) :
  ApplyNotions.keeps_record external →
  ApplyNotions.runs ApplyNotions.safe_tap_command
    (ApplyTool.installTaps number external taps dryRun).
Proof.
  intros Hrecord. unfold ApplyTool.installTaps.
  destruct (length taps =? 0); [apply InstallFacts.runs_ret|].
  apply InstallFacts.runs_bind; [apply InstallFacts.runs_console_log|].
  intros _.
  apply InstallFacts.runs_bind; [apply InstallFacts.runs_try|].
  intros names.
  eapply (InstallFacts.runs_bind_returned _
            (fun safeTaps => Forall (fun tap =>
               (s ← Tool.to_string number tap;
                Ok (ApplyTool.tap_name s)) = Ok true) safeTaps)).
  { apply InstallFacts.runs_try. }
  { intros c safeTaps c' H. apply InstallFacts.try_returned in H.
    exact (InstallFacts.filter_with_kept _ _ _ H). }
  intros safeTaps Hsafe.
  apply InstallFacts.runs_bind.
  { apply InstallFacts.runs_when, InstallFacts.runs_console_error. }
  intros _.
  apply InstallFacts.runs_bind; [|intros _; apply InstallFacts.runs_console_log].
  apply InstallFacts.runs_for_of.
  eapply Forall_impl; [exact Hsafe|]. cbv beta. intros tap Htap.
  apply InstallFacts.runs_bind; [apply InstallFacts.runs_try|]. intros shown.
  apply InstallFacts.runs_bind; [apply InstallFacts.runs_console_log|].
  intros _. apply InstallFacts.runs_when.
  eapply (InstallFacts.runs_bind_returned _
            (fun name => Tool.to_string number tap = Ok name)).
  { apply InstallFacts.runs_try. }
  { intros c name c' H. exact (InstallFacts.try_returned _ _ _ _ H). }
  intros name Hname. apply InstallFacts.runs_exec; [exact Hrecord|].
  exists name. split; [reflexivity|].
  rewrite Hname in Htap. cbn in Htap. congruence.
Qed.

(** A dry run of [installTaps] does not call [exec]. *)
Theorem installTaps_dry_run
    (number : Z → string) (external : string → Tool.P unit)
    (taps : list value) (c : Tool.effects) :
  Tool.executed (ApplyTool.installTaps number external taps true c).2
  = Tool.executed c.
Proof.
  destruct (InstallFacts.installTaps_dry_run_runs number external taps c)
    as (l & H & Hl).
  destruct l as [|x l]; [rewrite H, app_nil_r; reflexivity|].
  inversion Hl as [|? ? []].
Qed.

(** The batches of [installFormulae] and [installCasks]: each holds
    between one and [size] names, together they are the names in
    order, and there is one per [size] names, the last one possibly
    shorter. *)
Theorem install_batches {A : Type} (size : nat) (names : list A) :
  0 < size →
  let batches := ApplyTool.batches_of size names in
  concat batches = names
  ∧ Forall (fun batch => 0 < length batch ≤ size) batches
  ∧ length batches = (length names + size - 1) / size
  ∧ (∀ fuel, length names ≤ fuel →
       ApplyTool.batches_from fuel 0 size names [] = batches).
Proof.
  intros Hsize. cbv zeta. unfold ApplyTool.batches_of.
  assert (length names ≤ 0 + length names * size) as Hfuel by nia.
  split; [|split; [|split]].
  - rewrite ApplyFacts.batches_from_concat by exact Hfuel. reflexivity.
  - apply ApplyFacts.batches_from_sizes; [exact Hsize|constructor].
  - rewrite (ApplyFacts.batches_from_length _ 0 size names [] Hsize Hfuel).
    cbn [length]. rewrite Nat.sub_0_r, Nat.add_0_l. reflexivity.
  - intros fuel Hle.
    apply ApplyFacts.batches_from_fuel; [exact Hsize|nia|exact Hle].
Qed.

(** * Instances *)

Lemma validateSetup_required_fields_witness :
  ∃ r, (validateSetup (incomplete_setup [])).1 = Ok r
    ∧ In "Missing required field: system.macosVersion" (errors r)
    ∧ In "Missing required field: homebrew" (errors r)
    ∧ ¬ In "Missing required field: system.hostname" (errors r).
Proof.
  destruct (validateSetup_required_fields (incomplete_setup []) eq_refl)
    as (r & Hr & _ & Hhost & Hos & _ & Hbrew).
  exists r. split; [exact Hr|]. split; [|split].
  - apply Hos. split; reflexivity.
  - apply Hbrew. reflexivity.
  - intros H. apply Hhost in H as [_ H]. discriminate H.
Defined.

Lemma validateSetup_array_fields_witness :
  ∃ r, (validateSetup (incomplete_setup [])).1 = Ok r
    ∧ In "Invalid field: applications must be an array" (errors r)
    ∧ ¬ In "Invalid field: shellConfigs must be an array" (errors r).
Proof.
  destruct (validateSetup_array_fields (incomplete_setup []) eq_refl)
    as (r & Hr & _ & _ & _ & Happs & Hshell & _).
  exists r. split; [exact Hr|]. split.
  - apply Happs. split; reflexivity.
  - intros H. apply Hshell in H as [H _]. discriminate H.
Defined.

Lemma validateSetup_global_package_managers_witness :
  ∃ r, (validateSetup (incomplete_setup [])).1 = Ok r
    ∧ In "Invalid field: globalPackages.npm must be an array" (errors r).
Proof.
  destruct (validateSetup_global_package_managers (incomplete_setup []) "npm"
              eq_refl) as (r & Hr & Hmanager & _).
  exists r. split; [exact Hr|].
  apply Hmanager; [left; reflexivity|]. repeat split; reflexivity.
Defined.

Lemma validateSetup_messages_in_order_witness :
  ∃ r, (validateSetup (incomplete_setup [])).1 = Ok r
    ∧ errors r
      = [ "Missing required field: system.macosVersion";
          "Missing required field: system.captureDate";
          "Missing required field: homebrew";
          "Invalid field: applications must be an array";
          "Invalid field: globalPackages.npm must be an array" ].
Proof.
  destruct (validateSetup_messages_in_order (incomplete_setup []) eq_refl)
    as (r & Hr & Herrors).
  exists r. split; [exact Hr|]. rewrite Herrors. reflexivity.
Defined.

Lemma validateSetup_twice_witness :
  ∃ r, (validateSetup (incomplete_setup [])).1 = Ok r
    ∧ (validateSetup (v_setup (validateSetup (incomplete_setup [])).2)).1
      = Ok r
    ∧ v_console
        (validateSetup (v_setup (validateSetup (incomplete_setup [])).2)).2
      = [].
Proof.
  destruct (validateSetup_twice (incomplete_setup []) eq_refl)
    as (r & Hr & Hagain & _ & Hquiet).
  exists r. split; [exact Hr|]. split; [exact Hagain|].
  apply Hquiet. reflexivity.
Defined.

Lemma validateSetup_reads_seven_sections_witness :
  (validateSetup (incomplete_setup [("binaries", VStr "none")])).1
  = (validateSetup (incomplete_setup [])).1.
Proof.
  apply validateSetup_reads_seven_sections; [reflexivity|].
  intros k Hk. unfold validated_sections in Hk. cbn [In] in Hk.
  repeat (destruct Hk as [<-|Hk]; [reflexivity|]). destruct Hk.
Defined.

Lemma isCompatibleVersion_after_validateSetup_witness :
  isCompatibleVersion (VObj 0 ∅) = Ok true
  ∧ isCompatibleVersion (v_setup (validateSetup (VObj 0 ∅)).2) = Ok false.
Proof.
  destruct (isCompatibleVersion_after_validateSetup 0 ∅)
    as (Hbefore & _ & Hafter); [vm_compute; reflexivity|].
  split; [exact Hbefore|exact Hafter].
Defined.

Lemma diffSetups_homebrew_report_witness :
  ∃ r, (diffSetups studio_homebrew laptop_homebrew 100).1 = Ok r
    ∧ homebrew r !! "formulae"
      = Some {| added := [VStr "jq"]; removed := [VStr "wget"] |}.
Proof.
  apply (diffSetups_homebrew_report studio_homebrew laptop_homebrew 100
           "formulae"); [reflexivity|cbn [In]; tauto|reflexivity..].
Defined.

Lemma diffSetups_homebrew_symmetry_witness :
  ∃ r r' c c',
    (diffSetups studio_homebrew laptop_homebrew 100).1 = Ok r
    ∧ (diffSetups laptop_homebrew studio_homebrew 200).1 = Ok r'
    ∧ homebrew r !! "taps" = Some c
    ∧ homebrew r' !! "taps" = Some c'
    ∧ added c = removed c' ∧ removed c = added c'.
Proof.
  apply diffSetups_homebrew_symmetry; [reflexivity|cbn [In]; tauto].
Defined.

Lemma diffSetups_same_document_witness :
  (diffSetups laptop_homebrew laptop_homebrew 100).1 = Ok Diff.initial_diff.
Proof. apply diffSetups_same_document. reflexivity. Defined.

Lemma diffSetups_reads_three_sections_witness :
  (diffSetups (setup_with_homebrew 0 "studio" [] [VStr "git"])
     (setup_with_homebrew 0 "laptop" [] [VStr "jq"]) 100).1
  = (diffSetups (setup_with_homebrew 0 "desk" [] [VStr "git"])
       (setup_with_homebrew 0 "shelf" [] [VStr "jq"]) 200).1.
Proof.
  apply diffSetups_reads_three_sections; [reflexivity..|].
  intros k Hk. unfold compared_sections in Hk. cbn [In] in Hk.
  repeat (destruct Hk as [<-|Hk]; [split; reflexivity|]). destruct Hk.
Defined.

Lemma diff_main_usage_witness :
  DiffTool.main no_file unreadable decimal 0 ["mac-setup.json"]
    ToolNotions.silent
  = (Tool.Exited 0,
     {| Tool.stdout := DiffToolNotions.usage_lines; Tool.stderr := [];
        Tool.executed := [] |}).
Proof.
  apply diff_main_usage. right. right. cbn [length]. lia.
Defined.

Lemma diff_main_unreadable_input_witness :
  DiffTool.main no_file unreadable decimal 0 ["old.json"; "new.json"]
    ToolNotions.silent
  = (Tool.Exited 1,
     {| Tool.stdout := []; Tool.stderr := ["File not found: old.json"];
        Tool.executed := [] |}).
Proof.
  refine (proj1 (diff_main_unreadable_input no_file unreadable decimal 0
                   "old.json" "new.json" [] _ _) eq_refl).
  - cbn [In]. intros [H|[H|[]]]; discriminate H.
  - cbn [In]. intros [H|[H|[]]]; discriminate H.
Defined.

Lemma diff_compare_crashes_witness :
  (DiffTool.compare decimal 100 studio_homebrew (VObj 40 ∅)
     ToolNotions.silent).1
  = Tool.Uncaught TypeError.
Proof. apply diff_compare_crashes. right. left. reflexivity. Defined.

Lemma diff_compare_summary_witness :
  ∃ lines,
    DiffTool.compare decimal 100 studio_homebrew laptop_homebrew
      ToolNotions.silent
    = (Tool.Returned (),
       {| Tool.stdout := lines ++ DiffToolNotions.summary_lines 2 1 0;
          Tool.stderr := []; Tool.executed := [] |}).
Proof.
  destruct (diff_compare_summary decimal 100 studio_homebrew laptop_homebrew
              ToolNotions.silent eq_refl eq_refl eq_refl eq_refl)
    as (r & formulae & casks & taps & lines & Hr & Hf & Hc & Ht & E).
  rewrite OutcomeOfDiff.diffSetups_outcome in Hr.
  change (Engine.diffable studio_homebrew laptop_homebrew) with true in Hr.
  injection Hr as <-.
  vm_compute in Hf, Hc, Ht.
  injection Hf as <-. injection Hc as <-. injection Ht as <-.
  exists lines. exact E.
Defined.

Lemma apply_parse_arguments_witness :
  ∃ o, ApplyTool.parse_arguments ApplyTool.no_options
         ["--verify"; "mac-setup.json"; "--dry-run"; "other.json"]
         ToolNotions.silent
       = (Tool.Returned o, ToolNotions.silent)
    ∧ ApplyTool.setupFile o = Some "mac-setup.json"
    ∧ ApplyTool.dryRun o = true ∧ ApplyTool.verify o = true
    ∧ ApplyTool.installMas o = false.
Proof.
  destruct (apply_parse_arguments
              ["--verify"; "mac-setup.json"; "--dry-run"; "other.json"]
              ToolNotions.silent) as (o & Hrun & _ & Hmas & Hdry & Hv & _ & Hfile).
  - cbn [In]. intros [H|[H|[H|[H|[]]]]]; discriminate H.
  - cbn [In]. intros [H|[H|[H|[H|[]]]]]; discriminate H.
  - exists o. split; [exact Hrun|]. split; [apply Hfile; reflexivity|].
    split; [exact Hdry|]. split; [exact Hv|exact Hmas].
Defined.

Lemma apply_rejects_invalid_document_witness :
  ApplyTool.prepare any_file (holding (incomplete_setup [])) decimal
    ["mac-setup.json"; "--dry-run"] ToolNotions.silent
  = (Tool.Exited 1,
     {| Tool.stdout := [];
        Tool.stderr :=
          [ Validate.legacy_warning;
            "Invalid setup file:";
            "  - Missing required field: system.macosVersion";
            "  - Missing required field: system.captureDate";
            "  - Missing required field: homebrew";
            "  - Invalid field: applications must be an array";
            "  - Invalid field: globalPackages.npm must be an array" ];
        Tool.executed := [] |}).
Proof.
  refine (apply_rejects_invalid_document any_file
            (holding (incomplete_setup [])) decimal
            ["mac-setup.json"; "--dry-run"] "mac-setup.json"
            (incomplete_setup [])
            {| valid := false;
               errors :=
                 [ "Missing required field: system.macosVersion";
                   "Missing required field: system.captureDate";
                   "Missing required field: homebrew";
                   "Invalid field: applications must be an array";
                   "Invalid field: globalPackages.npm must be an array" ] |}
            _ _ eq_refl eq_refl eq_refl _ eq_refl).
  - cbn [In]. intros [H|[H|[]]]; discriminate H.
  - cbn [In]. intros [H|[H|[]]]; discriminate H.
  - vm_compute. reflexivity.
Defined.

Lemma apply_warns_on_legacy_document_witness :
  ∃ o,
    ApplyTool.prepare any_file (holding (setup_with_version VNull)) decimal
      ["mac-setup.json"] ToolNotions.silent
    = (Tool.Returned
         (o, VObj 0 (<["version" := VStr "1.0"]>
                       (own_props (setup_with_version VNull)))),
       {| Tool.stdout := [];
          Tool.stderr :=
            [ Validate.legacy_warning;
              "Warning: Setup file version 1.0 may not be fully compatible";
              "Consider re-capturing your setup with the latest version" ];
          Tool.executed := [] |}).
Proof.
  refine (apply_warns_on_legacy_document any_file
            (holding (setup_with_version VNull)) decimal ["mac-setup.json"]
            "mac-setup.json" 0 (own_props (setup_with_version VNull))
            {| valid := true; errors := [] |}
            _ _ eq_refl eq_refl eq_refl eq_refl _ eq_refl).
  - cbn [In]. intros [H|[]]; discriminate H.
  - cbn [In]. intros [H|[]]; discriminate H.
  - vm_compute. reflexivity.
Defined.

Lemma installTaps_runs_safe_commands_witness :
  ApplyNotions.runs ApplyNotions.safe_tap_command
    (ApplyTool.installTaps decimal succeeds
       [VStr "homebrew/cask"; VStr "x; rm -rf ~";
        object_literal 0 [("name", VStr "homebrew/core")]]
       false).
Proof.
  apply installTaps_runs_safe_commands. intros command c. reflexivity.
Defined.

Lemma install_batches_witness :
  concat (ApplyTool.batches_of 50 (seq 0 120)) = seq 0 120
  ∧ length (ApplyTool.batches_of 50 (seq 0 120)) = 3.
Proof.
  destruct (install_batches 50 (seq 0 120)) as (Hall & _ & Hcount & _);
    [lia|].
  split; [exact Hall|]. rewrite Hcount. reflexivity.
Defined.
